(** * Vector index and hybrid recommendation engine of the newsletter backend

    A shallow embedding of

    - [backend/app/services/faiss_service.py] (class [FAISSService]), and
    - the recommendation handlers of [backend/main_simple.py]
      ([_content_based_recs], [_collaborative_recs],
      [hybrid_recommendations]),

    together with the properties the specification states about them.

    Numbers.  The index stores [float32] vectors; they are modelled by exact
    rationals ([Q]), so that distances and means are the mathematical ones.
    The collaborative recommender needs Euclidean norms and is modelled over
    the real numbers ([R]).  Identifiers, slots and ratings are Python
    integers ([Z]).

    Exceptions.  A Python function that can raise returns a [result]; the
    [try: ... except Exception as e: log; raise] wrappers of the service
    re-raise what they catch, so they are the identity on [result]. *)

From Stdlib Require Import ZArith QArith Qabs Reals Lra Lia List Permutation Sorted.
From stdpp Require Import gmap strings list fin_maps sorting.

Set Default Proof Using "Type".

(** ** Exceptions and results *)

Inductive exn : Type :=
| ValueError
| AssertionError
| KeyError
| UnpicklingError
| RuntimeError
| FileNotFoundError.

Inductive result (A : Type) : Type :=
| Ok (a : A)
| Raise (e : exn).
Arguments Ok {A} a.
Arguments Raise {A} e.

Definition rbind {A B} (r : result A) (f : A -> result B) : result B :=
  match r with
  | Ok a => f a
  | Raise e => Raise e
  end.

Notation "'try!' x := r 'in' k" := (rbind r (fun x => k))
  (at level 10, x name, r at level 100, k at level 200).

(** ** Generic stable insertion sort

    Used for the three library sorts the code relies on: the ordering of
    FAISS hits, Python's [sorted] and numpy's [argsort]. *)

Section InsertionSort.
Context {A : Type} (leb : A -> A -> bool).

Fixpoint sort_insert (x : A) (l : list A) : list A :=
  match l with
  | [] => [x]
  | y :: l' => if leb x y then x :: l else y :: sort_insert x l'
  end.

Fixpoint stable_sort (l : list A) : list A :=
  match l with
  | [] => []
  | x :: l' => sort_insert x (stable_sort l')
  end.
End InsertionSort.

(** ** Vectors *)

Definition vector := list Q.

(** Squared Euclidean distance, the metric of [IndexFlatL2]. *)
Definition sqdist (x y : vector) : Q :=
  fold_right Qplus 0%Q (map (fun p : Q * Q => (fst p - snd p) * (fst p - snd p))%Q (combine x y)).

(** ** The FAISS library: [IndexFlatL2]

    [faiss] is an external library.  The model keeps what the Python wrapper
    of [IndexFlatL2] exposes: the dimension [d], the stored rows, and the
    shape assertions of [add] and [search]. *)

Module Faiss.

Record IndexFlatL2 : Type := mkIndex {
  d : nat;
  xb : list vector
}.

Definition new (dim : nat) : IndexFlatL2 := mkIndex dim [].

Definition ntotal (ix : IndexFlatL2) : Z := Z.of_nat (length (xb ix)).

(** [index.add(x)]: [n, d = x.shape; assert d == self.d].  A two
    dimensional array is modelled by the list of its rows, the column
    count being the length of every row. *)
Definition add (ix : IndexFlatL2) (x : list vector) : result IndexFlatL2 :=
  if forallb (fun v => Nat.eqb (length v) (d ix)) x
  then Ok (mkIndex (d ix) (xb ix ++ x))
  else Raise AssertionError.

(** Distance reported for a missing neighbour (label [-1]): the largest
    finite [float32]. *)
Definition FLT_MAX : Q := 340282346638528859811704183484516925440 # 1.

Definition hit_leb (a b : Q * Z) : bool := Qle_bool (fst a) (fst b).

(** All stored rows with their distance to [q] and their slot. *)
Definition distances (ix : IndexFlatL2) (q : vector) : list (Q * Z) :=
  imap (fun i v => (sqdist q v, Z.of_nat i)) (xb ix).

(** [index.search(x, k)] for a single query row: [assert d == self.d;
    assert k > 0]; the [k] nearest rows by ascending distance, padded
    with label [-1] when fewer than [k] rows are stored.  FAISS does not
    specify which of two equidistant rows comes first; the model takes the
    lower slot, and no property below depends on it.  Distances are exact
    rationals: the rounding of [float32] is left out, and so is its
    overflow, by which a row whose distance exceeds [FLT_MAX] is not
    reported; a property that counts the rows reported assumes that no
    distance comes near [FLT_MAX]. *)
Definition search (ix : IndexFlatL2) (q : vector) (k : Z) : result (list (Q * Z)) :=
  if negb (Nat.eqb (length q) (d ix)) then Raise AssertionError
  else if (k <=? 0)%Z then Raise AssertionError
  else
    let sorted := stable_sort hit_leb (distances ix q) in
    Ok (firstn (Z.to_nat k)
          (sorted ++ repeat (FLT_MAX, (-1)%Z) (Z.to_nat k - length sorted))).

End Faiss.

(** ** [FAISSService] *)

Record FAISSService : Type := mkService {
  index : Faiss.IndexFlatL2;
  article_id_map : gmap Z Z;   (* FAISS slot -> article id *)
  dimension : nat              (* settings.FAISS_DIMENSION *)
}.

(** [_initialize_index]: a fresh [IndexFlatL2] of the configured
    dimension. *)
Definition _initialize_index (s : FAISSService) : FAISSService :=
  mkService (Faiss.new (dimension s)) (article_id_map s) (dimension s).

(** [__init__] with [settings.FAISS_DIMENSION = dim]. *)
Definition init (dim : nat) : FAISSService :=
  mkService (Faiss.new dim) ∅ dim.

(** [embedding.reshape(1, -1)]: a one dimensional array of [n] components
    becomes the single row of a matrix of [n] columns, also when [n] is 0. *)
Definition reshape_row (v : vector) : vector := v.

(** The loop
    [for dist, idx in zip(distances[0], indices[0]):
       if idx in self.article_id_map: results.append((map[idx], float(dist)))]. *)
Definition collect_results (m : gmap Z Z) (hits : list (Q * Z)) : list (Z * Q) :=
  omap (fun h : Q * Z =>
          match m !! snd h with
          | Some aid => Some (aid, fst h)
          | None => None
          end) hits.

Definition search_by_embedding (s : FAISSService) (embedding : vector) (top_k : Z)
  : result (list (Z * Q)) :=
  if (Faiss.ntotal (index s) =? 0)%Z then Ok []
  else
    let emb := reshape_row embedding in
    let top_k := Z.min top_k (Faiss.ntotal (index s)) in
    try! hits := Faiss.search (index s) emb top_k in
    Ok (collect_results (article_id_map s) hits).

(** [get_index_stats]; the constant ["index_type"] entry is omitted. *)
Record stats : Type := mkStats {
  total_vectors : Z;
  stats_dimension : nat;
  articles_indexed : nat
}.

Definition get_index_stats (s : FAISSService) : stats :=
  mkStats (Faiss.ntotal (index s)) (dimension s) (size (article_id_map s)).

(** Python's [l[:k]]: a negative [k] counts from the end. *)
Definition py_take {A} (k : Z) (l : list A) : list A :=
  if (0 <=? k)%Z then firstn (Z.to_nat k) l
  else firstn (length l - Z.to_nat (- k)) l.

(** [enumerate(l)]. *)
Definition enumerate {A} (l : list A) : list (nat * A) :=
  imap (fun i x => (i, x)) l.

(** The loop [for i, aid in enumerate(article_ids): map[start + i] = aid]. *)
Definition record_ids (start : Z) (article_ids : list Z) (m : gmap Z Z) : gmap Z Z :=
  foldl (fun m p => <[(start + Z.of_nat (fst p))%Z := snd p]> m) m (enumerate article_ids).

(** A method that mutates the service returns the state it leaves behind
    together with its outcome. *)
Definition add_embeddings (s : FAISSService) (embeddings : list vector) (article_ids : list Z)
  : FAISSService * result unit :=
  if negb (Nat.eqb (length embeddings) (length article_ids)) then (s, Raise ValueError)
  else
    let start_idx := Faiss.ntotal (index s) in
    match Faiss.add (index s) embeddings with
    | Raise e => (s, Raise e)
    | Ok ix =>
        (mkService ix (record_ids start_idx article_ids (article_id_map s)) (dimension s),
         Ok tt)
    end.

Definition add_single_embedding (s : FAISSService) (embedding : vector) (article_id : Z)
  : FAISSService * result unit :=
  let row := reshape_row embedding in
  let start_idx := Faiss.ntotal (index s) in
  match Faiss.add (index s) [row] with
  | Raise e => (s, Raise e)
  | Ok ix => (mkService ix (<[start_idx := article_id]> (article_id_map s)) (dimension s),
              Ok tt)
  end.

(** [np.vstack(rows)]: the rows must have one common length, and there must
    be at least one. *)
Definition vstack (rows : list vector) : result (list vector) :=
  match rows with
  | [] => Raise ValueError
  | r :: _ =>
      if forallb (fun v => Nat.eqb (length v) (length r)) rows then Ok rows
      else Raise ValueError
  end.

Definition bytes := list Byte.byte.

(** ** Stored embeddings: [rebuild_from_embeddings] and [_content_based_recs] *)

Record UserFeedback : Type := mkFeedback {
  user_id : Z;
  article_id : Z;
  rating : Z
}.

Record FAISSEmbedding : Type := mkEmbedding {
  emb_article_id : Z;
  embedding_vector : bytes
}.

Definition vadd (x y : vector) : vector := zip_with Qplus x y.

(** [np.mean(matrix, axis=0)]: the column sums divided by the row count. *)
Definition mean_axis0 (matrix : list vector) : vector :=
  match matrix with
  | [] => []
  | r :: rs =>
      map (fun x => x / inject_Z (Z.of_nat (length matrix)))%Q (foldl vadd r rs)
  end.

Section StoredEmbeddings.
(** [pickle.loads] on a stored embedding: the one dimensional array that
    was pickled, or [None] when it raises. *)
Variable pickle_loads : bytes -> option vector.

(** One iteration of the decoding loop of [rebuild_from_embeddings]:
    an empty blob is skipped, and so is a blob for which [pickle.loads]
    raises; every other row is kept, also when its array has no
    component. *)
Definition decode_row (row : Z * bytes) : option (Z * vector) :=
  match snd row with
  | [] => None
  | _ =>
      match pickle_loads (snd row) with
      | None => None
      | Some vec => Some (fst row, reshape_row vec)
      end
  end.

Definition rebuild_from_embeddings (s : FAISSService) (rows : list (Z * bytes))
  : FAISSService * result unit :=
  (* self._initialize_index(); self.article_id_map = {} *)
  let s0 := mkService (index (_initialize_index s)) ∅ (dimension s) in
  match rows with
  | [] => (s0, Ok tt)
  | _ =>
      let decoded := omap decode_row rows in
      let vectors := map snd decoded in
      let article_ids := map fst decoded in
      match vectors with
      | [] => (s0, Ok tt)
      | _ =>
          match vstack vectors with
          | Raise e => (s0, Raise e)
          | Ok matrix =>
              match Faiss.add (index s0) matrix with
              | Raise e => (s0, Raise e)
              | Ok ix => (mkService ix (record_ids 0 article_ids ∅) (dimension s), Ok tt)
              end
          end
      end
  end.

(** [db.query(FAISSEmbedding).filter(article_id == a).first()] followed by
    the guarded [pickle.loads]. *)
Definition stored_vector (embs : list FAISSEmbedding) (a : Z) : option vector :=
  match find (fun e => Z.eqb (emb_article_id e) a) embs with
  | None => None
  | Some e =>
      match embedding_vector e with
      | [] => None
      | _ => pickle_loads (embedding_vector e)
      end
  end.

Definition liked_rows (feedback : list UserFeedback) (user : Z) : list UserFeedback :=
  List.filter (fun r => Z.eqb (user_id r) user && (4 <=? rating r)%Z) feedback.

Definition resolved_vectors (feedback : list UserFeedback) (embs : list FAISSEmbedding)
    (user : Z) : list vector :=
  omap (fun fb => stored_vector embs (article_id fb)) (liked_rows feedback user).

Definition _content_based_recs (s : FAISSService) (feedback : list UserFeedback)
    (embs : list FAISSEmbedding) (user : Z) (top_k : Z) : result (list (Z * Q)) :=
  match liked_rows feedback user with
  | [] => Ok []
  | _ =>
      match resolved_vectors feedback embs user with
      | [] => Ok []
      | embeddings =>
          try! matrix := vstack embeddings in
          search_by_embedding s (mean_axis0 matrix) top_k
      end
  end.
End StoredEmbeddings.

(** A stand-in for [pickle] used in examples: a stream starts with the
    protocol marker [0x80], and each following byte is one component. *)
Definition toy_pickle_loads (b : bytes) : option vector :=
  match b with
  | Byte.x80 :: payload => Some (map (fun c => inject_Z (Z.of_N (Byte.to_N c))) payload)
  | _ => None
  end.

(** ** Text search *)

Section TextSearch.
(** [generate_embedding]: the sentence-transformer model, which raises
    when the model cannot be loaded. *)
Variable generate_embedding : string -> result vector.

Definition search (s : FAISSService) (query : string) (top_k : Z) : result (list (Z * Q)) :=
  if (Faiss.ntotal (index s) =? 0)%Z then Ok []
  else
    try! query_embedding := generate_embedding query in
    let emb := reshape_row query_embedding in
    let top_k := Z.min top_k (Faiss.ntotal (index s)) in
    try! hits := Faiss.search (index s) emb top_k in
    Ok (collect_results (article_id_map s) hits).
End TextSearch.

(** ** Snapshots: [save_index] and [load_index] *)

(** What [pickle.load] returns for a snapshot file, as far as
    [load_index] looks at it: the entries ['index'] and
    ['article_id_map'], each of which may be missing. *)
Record snapshot_dict : Type := mkSnapshot {
  entry_index : option bytes;
  entry_article_id_map : option (gmap Z Z)
}.

Section Snapshots.
(** [faiss.serialize_index] / [faiss.deserialize_index] and
    [pickle.dump] / [pickle.load]; the readers return [None] when they
    raise. *)
Variable serialize_index : Faiss.IndexFlatL2 -> bytes.
Variable deserialize_index : bytes -> option Faiss.IndexFlatL2.
Variable pickle_dump : snapshot_dict -> bytes.
Variable pickle_load : bytes -> option snapshot_dict.

(** The file system maps a path to the content of the file. *)
Definition save_index (s : FAISSService) (fs : gmap string bytes) (filepath : string)
  : gmap string bytes :=
  let index_data :=
    mkSnapshot (Some (serialize_index (index s))) (Some (article_id_map s)) in
  <[filepath := pickle_dump index_data]> fs.

Definition load_index (s : FAISSService) (fs : gmap string bytes) (filepath : string)
  : FAISSService * result unit :=
  match fs !! filepath with
  | None => (s, Raise FileNotFoundError)
  | Some content =>
      match pickle_load content with
      | None => (s, Raise UnpicklingError)
      | Some index_data =>
          match entry_index index_data with
          | None => (s, Raise KeyError)
          | Some blob =>
              match deserialize_index blob with
              | None => (s, Raise RuntimeError)
              | Some ix =>
                  (* self.index = faiss.deserialize_index(index_data['index']) *)
                  let s1 := mkService ix (article_id_map s) (dimension s) in
                  match entry_article_id_map index_data with
                  | None => (s1, Raise KeyError)
                  | Some m =>
                      (* self.article_id_map = index_data['article_id_map'] *)
                      (mkService ix m (dimension s), Ok tt)
                  end
              end
          end
      end
  end.
End Snapshots.

(** ** Collaborative recommender ([_collaborative_recs]) *)

Definition rvec := list R.

Definition dot (x y : rvec) : R := fold_right Rplus 0%R (zip_with Rmult x y).

(** [np.linalg.norm]. *)
Definition norm (x : rvec) : R := sqrt (dot x x).

(** The literal [1e-6]. *)
Definition eps : R := (1 / 1000000)%R.

(** [sorted({...})]: the distinct values in ascending order. *)
Definition sorted_set (l : list Z) : list Z := stable_sort Z.leb (remove_dups l).

(** Lookup in the dict [{x: i for i, x in enumerate(l)}] of a list of
    distinct values: the position of [x]. *)
Fixpoint index_of (x : Z) (l : list Z) : option nat :=
  match l with
  | [] => None
  | y :: l' => if Z.eqb x y then Some 0%nat else option_map S (index_of x l')
  end.

Definition users_of (rows : list UserFeedback) : list Z := sorted_set (map user_id rows).
Definition articles_of (rows : list UserFeedback) : list Z := sorted_set (map article_id rows).

(** [matrix[i, j] = x]. *)
Definition set_cell (matrix : list rvec) (i j : nat) (x : R) : list rvec :=
  alter (fun row => <[j := x]> row) i matrix.

(** [np.zeros(...)] followed by the loop
    [for r in rows: matrix[user_index[r.user_id], article_index[r.article_id]] = r.rating]. *)
Definition rating_matrix (rows : list UserFeedback) : list rvec :=
  let users := users_of rows in
  let articles := articles_of rows in
  foldl (fun matrix r =>
           match index_of (user_id r) users, index_of (article_id r) articles with
           | Some i, Some j => set_cell matrix i j (IZR (rating r))
           | _, _ => matrix
           end)
        (repeat (repeat 0%R (length articles)) (length users)) rows.

(** [norms = np.linalg.norm(matrix, axis=1) * (np.linalg.norm(target) + 1e-6) + 1e-6]
    and [sims = (matrix @ target) / norms]. *)
Definition row_norms (matrix : list rvec) (target : rvec) : list R :=
  map (fun row => norm row * (norm target + eps) + eps)%R matrix.

Definition similarities (matrix : list rvec) (target : rvec) : list R :=
  zip_with Rdiv (map (fun row => dot row target) matrix) (row_norms matrix target).

(** [sims @ matrix]: column [j] receives the sum of [sims[u] * matrix[u][j]]. *)
Definition weighted_scores (sims : list R) (matrix : list rvec) (ncols : nat) : rvec :=
  fold_right (fun (p : R * rvec) acc => zip_with Rplus (map (Rmult (fst p)) (snd p)) acc)
             (repeat 0%R ncols) (zip sims matrix).

(** The loop that zeroes the columns the target user has rated. *)
Definition zero_rated (rows : list UserFeedback) (user : Z) (articles : list Z)
    (scores_vec : rvec) : rvec :=
  foldl (fun sc r =>
           if Z.eqb (user_id r) user then
             match index_of (article_id r) articles with
             | Some j => <[j := 0%R]> sc
             | None => sc
             end
           else sc)
        scores_vec rows.

Definition target_row (rows : list UserFeedback) (user : Z) : option rvec :=
  match index_of user (users_of rows) with
  | None => None
  | Some ui => Some (default [] (rating_matrix rows !! ui))
  end.

(** The scores after zeroing, for a user that occurs in the feedback. *)
Definition scores_of (rows : list UserFeedback) (user : Z) (target : rvec) : rvec :=
  let matrix := rating_matrix rows in
  let sims := similarities matrix target in
  zero_rated rows user (articles_of rows)
    (weighted_scores sims matrix (length (articles_of rows))).

Section Argsort.
(** [numpy.argsort]: an ordering of the positions by ascending value;
    which of two equal values comes first is not specified. *)
Variable argsort : list R -> list nat.

Definition _collaborative_recs (rows : list UserFeedback) (user : Z) (top_k : Z) : list Z :=
  match rows with
  | [] => []
  | _ =>
      match target_row rows user with
      | None => []
      | Some target =>
          let scores_vec := scores_of rows user target in
          let top_indices := py_take top_k (rev (argsort scores_vec)) in
          omap (fun i => if Rlt_dec 0 (nth i scores_vec 0%R)
                         then articles_of rows !! i else None)
               top_indices
      end
  end.
End Argsort.

(** ** Hybrid ranker (the fusion step of [hybrid_recommendations]) *)

Definition in_list (x : Z) (l : list Z) : bool := existsb (Z.eqb x) l.

(** [scores[aid] = 0; += 0.7 if aid in content_ids; += 0.3 if aid in collab_recs]. *)
Definition fused_score (content_ids collab_recs : list Z) (aid : Z) : Q :=
  ((0 + (if in_list aid content_ids then 7 # 10 else 0))
   + (if in_list aid collab_recs then 3 # 10 else 0))%Q.

(** The comparison of the descending sort: [a] comes before [b] when its
    score is at least that of [b]. *)
Definition by_score (score : Z -> Q) (a b : Z) : bool := Qle_bool (score b) (score a).

Section SetOrder.
(** The iteration order of the Python set built from a list: each
    element once, in an order the language does not specify. *)
Variable set_iter : list Z -> list Z.

(** [None] is the cold-start branch ([if not combined]), which leaves the
    ranker and queries the most recent articles. *)
Definition ranked_ids (content_recs : list (Z * Q)) (collab_recs : list Z) (k : Z)
  : option (list Z) :=
  let content_ids := map fst content_recs in
  let combined := set_iter (content_ids ++ collab_recs) in
  match combined with
  | [] => None
  | _ =>
      let score := fused_score content_ids collab_recs in
      (* sorted(scores.keys(), key=lambda x: scores[x], reverse=True)[:k] *)
      Some (py_take k (stable_sort (by_score score) combined))
  end.
End SetOrder.

(** ** Vocabulary of the properties *)

(** Results in order of distance. *)
Definition by_distance (a b : Z * Q) : Prop := (snd a <= snd b)%Q.

(** A hit whose slot is not a key of the mapping. *)
Definition unmapped (m : gmap Z Z) (h : Q * Z) : bool :=
  match m !! snd h with Some _ => false | None => true end.

(** The hits FAISS hands to the service: the [min(k, ntotal)] nearest slots. *)
Definition nearest_hits (s : FAISSService) (q : vector) (k : Z) : list (Q * Z) :=
  take (Z.to_nat (Z.min k (Faiss.ntotal (index s))))
       (stable_sort Faiss.hit_leb (Faiss.distances (index s) q)).

(** The index of a service has the configured dimension: established by
    [init] and by every rebuild, kept by insertion; only a loaded snapshot
    of another dimension breaks it. *)
Definition consistent (s : FAISSService) : Prop := Faiss.d (index s) = dimension s.

(** The (article id, vector) pairs an index holds, by slot. *)
Definition contents (s : FAISSService) : list (Z * vector) :=
  omap (fun p : nat * vector =>
          option_map (fun aid => (aid, snd p)) (article_id_map s !! Z.of_nat (fst p)))
       (enumerate (Faiss.xb (index s))).

(** The state a successful rebuild installs. *)
Definition rebuilt (dim : nat) (decoded : list (Z * vector)) : FAISSService :=
  mkService (Faiss.mkIndex dim (map snd decoded))
            (record_ids 0 (map fst decoded) ∅) dim.

(** The sum of the components [j] of a list of vectors. *)
Definition column_sum (j : nat) (vs : list vector) : Q :=
  fold_right Qplus 0%Q (map (fun v => nth j v 0%Q) vs).

(** The similarity as the specification words it:
    [(u . target) / (|u| * |target| + eps)]. *)
Definition claimed_similarity (u target : rvec) : R :=
  (dot u target / (norm u * norm target + eps))%R.

(** The test [scores_vec[i] > 0]. *)
Definition positive_at (scores_vec : rvec) (i : nat) : bool :=
  if Rlt_dec 0 (nth i scores_vec 0%R) then true else false.

(** An [argsort] on the reals: the stable insertion sort of the positions. *)
Definition real_leb_at (v : list R) (i j : nat) : bool :=
  if Rle_dec (nth i v 0%R) (nth j v 0%R) then true else false.

Definition real_argsort (v : list R) : list nat :=
  stable_sort (real_leb_at v) (seq 0 (length v)).

(** ** Example data *)

(** A service with three stored vectors, built by insertion. *)
Definition example_index : FAISSService :=
  fst (add_embeddings (init 2) [[1; 2]; [0; 0]; [3; 2]]%Q [10; 20; 30]%Z).

(** A service with two stored vectors and a mapping entry for the first
    only. *)
Definition gapped_index : FAISSService :=
  mkService (Faiss.mkIndex 2 [[1; 2]; [0; 0]]%Q) {[ 0%Z := 10%Z ]} 2.

(** A stand-in for [faiss.serialize_index] and [pickle] used in examples.
    An index is written as one byte for the dimension followed by one byte
    per component; a snapshot as the marker [0x80], the length-prefixed
    index entry and the mapping as (slot, article id) byte pairs, an
    absent entry being the single byte [0x00]. *)
Definition nat_byte (n : nat) : Byte.byte := default Byte.x00 (Byte.of_N (N.of_nat n)).
Definition byte_nat (b : Byte.byte) : nat := N.to_nat (Byte.to_N b).
Definition Q_byte (x : Q) : Byte.byte := nat_byte (Z.to_nat (Qnum x)).
Definition byte_Q (b : Byte.byte) : Q := inject_Z (Z.of_nat (byte_nat b)).

Fixpoint chunks {A} (fuel n : nat) (l : list A) : list (list A) :=
  match fuel, l with
  | S fuel', _ :: _ => take n l :: chunks fuel' n (drop n l)
  | _, _ => []
  end.

Definition toy_serialize_index (ix : Faiss.IndexFlatL2) : bytes :=
  nat_byte (Faiss.d ix) :: map Q_byte (concat (Faiss.xb ix)).

Definition toy_deserialize_index (b : bytes) : option Faiss.IndexFlatL2 :=
  match b with
  | [] => None
  | h :: payload =>
      let dim := byte_nat h in
      if Nat.eqb (length payload mod dim) 0
      then Some (Faiss.mkIndex dim (chunks (length payload) dim (map byte_Q payload)))
      else None
  end.

Fixpoint byte_pairs (l : bytes) : option (list (Z * Z)) :=
  match l with
  | [] => Some []
  | k :: v :: l' =>
      option_map (cons (Z.of_nat (byte_nat k), Z.of_nat (byte_nat v))) (byte_pairs l')
  | _ => None
  end.

Definition toy_pickle_dump (dict : snapshot_dict) : bytes :=
  Byte.x80 ::
    match entry_index dict with
    | None => [Byte.x00]
    | Some b => Byte.x01 :: nat_byte (length b) :: b
    end ++
    match entry_article_id_map dict with
    | None => [Byte.x00]
    | Some m =>
        Byte.x01 :: flat_map (fun kv : Z * Z => [nat_byte (Z.to_nat (fst kv));
                                                  nat_byte (Z.to_nat (snd kv))])
                             (map_to_list m)
    end.

Definition toy_load_map (l : bytes) : option (option (gmap Z Z)) :=
  match l with
  | [Byte.x00] => Some None
  | Byte.x01 :: pairs => option_map (fun kvs => Some (list_to_map kvs)) (byte_pairs pairs)
  | _ => None
  end.

Definition toy_pickle_load (b : bytes) : option snapshot_dict :=
  match b with
  | Byte.x80 :: Byte.x00 :: l => option_map (mkSnapshot None) (toy_load_map l)
  | Byte.x80 :: Byte.x01 :: n :: l =>
      option_map (mkSnapshot (Some (take (byte_nat n) l)))
                 (toy_load_map (drop (byte_nat n) l))
  | _ => None
  end.

Definition toy_save := save_index toy_serialize_index toy_pickle_dump.
Definition toy_load := load_index toy_deserialize_index toy_pickle_load.

(** * Further code

    The remaining methods of [FAISSService], the startup and embedding
    handlers of [main_simple.py] that drive it, and the text helpers of the
    news handlers. *)

(** ** In-memory snapshots: [save_to_bytes] and [load_from_bytes] *)

Section SnapshotBytes.
Variable serialize_index : Faiss.IndexFlatL2 -> bytes.
Variable deserialize_index : bytes -> option Faiss.IndexFlatL2.
Variable pickle_dump : snapshot_dict -> bytes.
Variable pickle_load : bytes -> option snapshot_dict.

Definition save_to_bytes (s : FAISSService) : bytes :=
  let index_data :=
    mkSnapshot (Some (serialize_index (index s))) (Some (article_id_map s)) in
  pickle_dump index_data.

Definition load_from_bytes (s : FAISSService) (data : bytes) : FAISSService * result unit :=
  match pickle_load data with
  | None => (s, Raise UnpicklingError)
  | Some index_data =>
      match entry_index index_data with
      | None => (s, Raise KeyError)
      | Some blob =>
          match deserialize_index blob with
          | None => (s, Raise RuntimeError)
          | Some ix =>
              let s1 := mkService ix (article_id_map s) (dimension s) in
              match entry_article_id_map index_data with
              | None => (s1, Raise KeyError)
              | Some m => (mkService ix m (dimension s), Ok tt)
              end
          end
      end
  end.
End SnapshotBytes.

(** ** Startup: [_persist_faiss_index] and [_load_faiss_index] *)

Section Startup.
Variable serialize_index : Faiss.IndexFlatL2 -> bytes.
Variable deserialize_index : bytes -> option Faiss.IndexFlatL2.
Variable pickle_dump : snapshot_dict -> bytes.
Variable pickle_load : bytes -> option snapshot_dict.
Variable pickle_loads : bytes -> option vector.

(** [FAISS_INDEX_PATH.parent.mkdir(parents=True, exist_ok=True)] followed by
    [save_index]; whatever is raised is logged and swallowed. *)
Definition _persist_faiss_index (s : FAISSService) (fs : gmap string bytes)
    (path : string) : gmap string bytes :=
  save_index serialize_index pickle_dump s fs path.

(** The fallback of [_load_faiss_index]: rebuild from the stored rows and,
    when the directory of the snapshot exists, persist the result; an
    exception of the rebuild is logged and swallowed. *)
Definition rebuild_fallback (s : FAISSService) (fs : gmap string bytes)
    (parent_exists : bool) (path : string) (rows : list (Z * bytes))
  : FAISSService * gmap string bytes :=
  match rebuild_from_embeddings pickle_loads s rows with
  | (s', Ok _) =>
      (s', if parent_exists then _persist_faiss_index s' fs path else fs)
  | (s', Raise _) => (s', fs)
  end.

(** [_load_faiss_index]: [rows] is the content of the table of stored
    embeddings, [parent_exists] tells whether the directory of the snapshot
    exists (it does when the snapshot file does). *)
Definition _load_faiss_index (s : FAISSService) (fs : gmap string bytes)
    (parent_exists : bool) (path : string) (rows : list (Z * bytes))
  : FAISSService * gmap string bytes :=
  match fs !! path with
  | Some _ =>
      match load_index deserialize_index pickle_load s fs path with
      | (s', Ok _) => (s', fs)
      | (s', Raise _) => rebuild_fallback s' fs true path rows
      end
  | None => rebuild_fallback s fs parent_exists path rows
  end.
End Startup.

(** ** Services built by the program *)

(** The services reached from [__init__] by insertions and rebuilds. *)
Inductive reachable (pickle_loads : bytes -> option vector) : FAISSService -> Prop :=
| reach_init dim : reachable pickle_loads (init dim)
| reach_add s embeddings article_ids :
    reachable pickle_loads s ->
    reachable pickle_loads (fst (add_embeddings s embeddings article_ids))
| reach_add_single s embedding article_id :
    reachable pickle_loads s ->
    reachable pickle_loads (fst (add_single_embedding s embedding article_id))
| reach_rebuild s rows :
    reachable pickle_loads s ->
    reachable pickle_loads (fst (rebuild_from_embeddings pickle_loads s rows)).

(** The index has the configured dimension, so has every stored vector,
    and the keys of the mapping are the slots [0 .. ntotal - 1]. *)
Definition index_invariant (s : FAISSService) : Prop :=
  Faiss.d (index s) = dimension s /\
  Forall (fun v => length v = dimension s) (Faiss.xb (index s)) /\
  forall z, is_Some (article_id_map s !! z) <-> (0 <= z < Faiss.ntotal (index s))%Z.

(** ** The rating a cell of the rating matrix ends with *)

(** The rating of the last feedback row of user [u] for article [a], if
    there is one. *)
Fixpoint last_rating (rows : list UserFeedback) (u a : Z) : option Z :=
  match rows with
  | [] => None
  | r :: rest =>
      match last_rating rest u a with
      | Some x => Some x
      | None =>
          if Z.eqb (user_id r) u && Z.eqb (article_id r) a then Some (rating r) else None
      end
  end.

(** ** The recommendation handler ([hybrid_recommendations]) *)

(** A row of the table of articles; only the columns the modelled code
    reads or writes are kept. *)
Record Article : Type := mkArticle {
  art_id : Z;
  art_title : string;
  art_url : string;
  art_content : string;
  art_source : string;
  art_bias_score : option Q;
  art_fact_check_status : option string;
  art_bias_explanation : option string;
  art_created_at : Z
}.

(** [db.query(Article).order_by(Article.created_at.desc()).limit(k).all()]. *)
Definition most_recent (articles : list Article) (k : Z) : list Article :=
  take (Z.to_nat k)
       (stable_sort (fun a b => Z.leb (art_created_at b) (art_created_at a)) articles).

Section Recommendations.
Variable pickle_loads : bytes -> option vector.
Variable argsort : list R -> list nat.
Variable set_iter : list Z -> list Z.

(** The handler returns the articles of its response; an exception becomes
    the HTTP error 500.  The framework has checked [1 <= k <= 20] before
    the handler runs. *)
Definition hybrid_recommendations (s : FAISSService) (feedback : list UserFeedback)
    (embs : list FAISSEmbedding) (articles : list Article) (user : Z) (k : Z)
  : result (list Article) :=
  try! content_recs := _content_based_recs pickle_loads s feedback embs user k in
  let collab_recs := _collaborative_recs argsort feedback user k in
  match ranked_ids set_iter content_recs collab_recs k with
  | None => Ok (most_recent articles k)
  | Some ranked =>
      (* db.query(Article).filter(Article.id.in_(ranked_ids)).all() *)
      Ok (List.filter (fun a => in_list (art_id a) ranked) articles)
  end.
End Recommendations.

(** ** The embedding handler ([generate_embeddings]) *)

(** The update or insertion of the stored embedding of an article:
    [existing.embedding_vector = payload] on the first row of the article,
    a new row when there is none. *)
Fixpoint upsert_embedding (embs : list FAISSEmbedding) (aid : Z) (payload : bytes)
  : list FAISSEmbedding :=
  match embs with
  | [] => [mkEmbedding aid payload]
  | e :: rest =>
      if Z.eqb (emb_article_id e) aid then mkEmbedding aid payload :: rest
      else e :: upsert_embedding rest aid payload
  end.

(** [session.query(FAISSEmbedding.article_id, FAISSEmbedding.embedding_vector).all()]. *)
Definition stored_rows (embs : list FAISSEmbedding) : list (Z * bytes) :=
  map (fun e => (emb_article_id e, embedding_vector e)) embs.

Section GenerateEmbeddings.
Variable generate_embedding : string -> result vector.
Variable pickle_dumps : vector -> bytes.
Variable serialize_index : Faiss.IndexFlatL2 -> bytes.
Variable pickle_dump : snapshot_dict -> bytes.

(** The loop over the articles, with its accumulators [vectors] and [ids]
    and the table of stored embeddings. *)
Fixpoint embed_loop (articles : list Article) (vectors : list vector) (ids : list Z)
    (embs : list FAISSEmbedding) : result (list vector * list Z * list FAISSEmbedding) :=
  match articles with
  | [] => Ok (vectors, ids, embs)
  | art :: rest =>
      match art_content art with
      | EmptyString => embed_loop rest vectors ids embs
      | _ =>
          try! embedding := generate_embedding (art_content art) in
          embed_loop rest (vectors ++ [embedding]) (ids ++ [art_id art])
            (upsert_embedding embs (art_id art) (pickle_dumps embedding))
      end
  end.

(** What a successful call leaves behind and answers. *)
Record embeddings_outcome : Type := mkOutcome {
  out_service : FAISSService;
  out_embeddings : list FAISSEmbedding;
  out_files : gmap string bytes;
  out_indexed : nat;
  out_total_vectors : Z
}.

(** [articles] is the table of articles, of which the first [limit] rows
    are processed.  When the handler raises (HTTP error 500) the service is
    as it was and the session is closed without a commit, so that the table
    of stored embeddings is as it was, too. *)
Definition generate_embeddings (s : FAISSService) (embs : list FAISSEmbedding)
    (fs : gmap string bytes) (path : string) (articles : list Article) (limit : nat)
  : result embeddings_outcome :=
  try! looped := embed_loop (take limit articles) [] [] embs in
  let '(vectors, ids, embs') := looped in
  match vectors with
  | [] => Ok (mkOutcome s embs' fs (length ids) (total_vectors (get_index_stats s)))
  | _ =>
      try! matrix := vstack vectors in
      match add_embeddings s matrix ids with
      | (_, Raise e) => Raise e
      | (s', Ok _) =>
          Ok (mkOutcome s' embs' (_persist_faiss_index serialize_index pickle_dump s' fs path)
                (length ids) (total_vectors (get_index_stats s')))
      end
  end.
End GenerateEmbeddings.

(** *** Vocabulary of the properties *)

(** The test [if not art.content: continue], negated. *)
Definition has_content (art : Article) : bool :=
  match art_content art with
  | EmptyString => false
  | _ => true
  end.

(** The articles a call embeds: those of the first [limit] rows of the
    table that have a content. *)
Definition embedded_articles (articles : list Article) (limit : nat) : list Article :=
  List.filter has_content (take limit articles).

(** The table of stored embeddings after the embeddings [vectors] of the
    articles [arts] were written to it, one after the other. *)
Definition store_after (pickle_dumps : vector -> bytes) (embs : list FAISSEmbedding)
    (arts : list Article) (vectors : list vector) : list FAISSEmbedding :=
  foldl (fun acc p => upsert_embedding acc (art_id (fst p)) (pickle_dumps (snd p)))
        embs (zip arts vectors).


(** The stored embedding of an article:
    [db.query(FAISSEmbedding).filter(FAISSEmbedding.article_id == aid).first()]. *)
Definition row_of (aid : Z) (embs : list FAISSEmbedding) : option FAISSEmbedding :=
  List.find (fun e => Z.eqb (emb_article_id e) aid) embs.

(** *** Example data *)

(** A stand-in for the embedding model and for [pickle.dumps] used in
    examples: a text is embedded as its length followed by [1], and a
    vector is written as the marker [0x80] and one byte per component. *)
Definition toy_generate_embedding (text : string) : result vector :=
  Ok [inject_Z (Z.of_nat (String.length text)); 1%Q].

Definition toy_pickle_dumps (v : vector) : bytes := Byte.x80 :: map Q_byte v.

(** An article of which only the id, the content and the time of creation
    matter. *)
Definition plain_article (id : Z) (content : string) (created_at : Z) : Article :=
  mkArticle id "" "" content "" None None None created_at.

Definition example_articles : list Article :=
  [plain_article 1 "ab" 10; plain_article 2 "" 30; plain_article 3 "abc" 20].

Definition toy_generate_embeddings :=
  generate_embeddings toy_generate_embedding toy_pickle_dumps
                      toy_serialize_index toy_pickle_dump.

(** ** The text helpers of the news handlers *)

(** Python's [min(a, b)] and [max(a, b)] on floats, which return the first
    argument unless the second is strictly smaller (larger), and the
    comparison [a < b]. *)
Definition Qlt_bool (a b : Q) : bool := negb (Qle_bool b a).
Definition py_min (a b : Q) : Q := if Qlt_bool b a then b else a.
Definition py_max (a b : Q) : Q := if Qlt_bool a b then b else a.

Definition left_keywords : list string :=
  ["progressive"; "climate"; "inequality"; "social justice"; "regulation"; "fair wage";
   "labor rights"].
Definition right_keywords : list string :=
  ["market"; "tax cut"; "deregulation"; "business"; "entrepreneur"; "conservative";
   "free market"].
Definition neutral_keywords : list string :=
  ["technology"; "innovation"; "research"; "study"; "data"; "report"; "analysis"].

Section Bias.
(** [str.lower] and [str.count]: [count text kw] is [text.count(kw)]. *)
Variable lower : string -> string.
Variable count : string -> string -> nat.

(** [sum(lowered.count(kw) for kw in keywords)]. *)
Definition keyword_hits (lowered : string) (keywords : list string) : nat :=
  list_sum (map (count lowered) keywords).

(** [_simple_bias]: the score (a float, here an exact rational) and its
    explanation. *)
Definition _simple_bias (text : string) : Q * string :=
  match text with
  | EmptyString => (0%Q, "No content to score")
  | _ =>
      let lowered := lower text in
      let left_score := keyword_hits lowered left_keywords in
      let right_score := keyword_hits lowered right_keywords in
      let neutral_score := keyword_hits lowered neutral_keywords in
      let total := (left_score + right_score + neutral_score)%nat in
      if Nat.eqb total 0 then (0%Q, "Neutral (no bias markers detected)")
      else
        let bias_score :=
          (inject_Z (Z.of_nat right_score - Z.of_nat left_score)
           / (inject_Z (Z.of_nat total) + (1 # 1000000)))%Q in
        let bias_score := py_max (py_min bias_score 1%Q) (-1)%Q in
        let explanation :=
          if Qlt_bool (Qabs bias_score) (3 # 10) then "Balanced coverage with minimal bias"
          else if Qlt_bool (3 # 10) bias_score
               then "Slightly leans right (market/business focus)"
               else "Slightly leans left (progressive/social focus)" in
        (bias_score, explanation)
  end.
End Bias.

(** Operations of Python strings that do not depend on the character set:
    [kw in text], [text.split(sep)] for a one-character separator, and
    [text[:n]]; [text.startswith(p)] is [String.prefix p text] and
    [len(text)] is [String.length text]. *)
Fixpoint contains (text kw : string) : bool :=
  if String.prefix kw text then true
  else match text with
       | EmptyString => false
       | String _ rest => contains rest kw
       end.

Fixpoint split_on (sep : Ascii.ascii) (text : string) : list string :=
  match text with
  | EmptyString => [EmptyString]
  | String c rest =>
      if Ascii.eqb c sep then EmptyString :: split_on sep rest
      else match split_on sep rest with
           | piece :: pieces => String c piece :: pieces
           | [] => [String c EmptyString]
           end
  end.

Definition str_take (n : nat) (text : string) : string := String.substring 0 n text.

(** The character ['.']. *)
Definition full_stop : Ascii.ascii := Ascii.ascii_of_nat 46.

(** [sum(1 for x in l if p(x))]. *)
Definition count_if {A} (p : A -> bool) (l : list A) : nat := length (List.filter p l).

(** *** [_calculate_relevance_score] *)

Section Relevance.
(** [str.lower], [str.split()] (on white space) and [str.strip]. *)
Variable lower : string -> string.
Variable split : string -> list string.
Variable strip : string -> string.

(** [[k.strip() for k in query_lower.split() if k.strip()]]. *)
Definition keywords_of (query : string) : list string :=
  omap (fun k => match strip k with
                 | EmptyString => None
                 | stripped => Some stripped
                 end)
       (split (lower query)).

Definition _calculate_relevance_score (article : Article) (query : string) : Q :=
  let keywords := keywords_of query in
  match keywords with
  | [] => 0%Q
  | _ =>
      let title_lower := lower (art_title article) in
      let content_lower := lower (art_content article) in
      let source_lower := lower (art_source article) in
      let title_matches := count_if (contains title_lower) keywords in
      let total_matches :=
        count_if (fun keyword => contains title_lower keyword
                                 || contains content_lower keyword
                                 || contains source_lower keyword) keywords in
      if Nat.eqb total_matches 0 then 0%Q
      else
        let match_ratio :=
          (inject_Z (Z.of_nat total_matches) / inject_Z (Z.of_nat (length keywords)))%Q in
        if Qlt_bool match_ratio (1 # 2) then 0%Q
        else
          let score := (0 + inject_Z (Z.of_nat title_matches * 10))%Q in
          let content_matches := count_if (contains content_lower) keywords in
          let source_matches := count_if (contains source_lower) keywords in
          let score := (score + inject_Z (Z.of_nat content_matches * 2))%Q in
          let score := (score + inject_Z (Z.of_nat source_matches * 3))%Q in
          score
  end.
End Relevance.

(** *** The fact-checking service ([fact_check_service.py]) *)

(** The dictionary a check of one claim returns. *)
Record claim_check : Type := mkCheck {
  check_status : string;
  check_verdict : string;
  check_sources : list string;
  check_method : string
}.

(** The dictionary [check_article] returns. *)
Record article_check : Type := mkArticleCheck {
  overall_status : string;
  claims_checked : nat;
  flagged_count : nat;
  verified_count : nat;
  details : list claim_check
}.

(** An entry of ["claimReview"]: its ["textualRating"] and the ["name"]
    of its ["publisher"], when present. *)
Record review : Type := mkReview {
  textualRating : option string;
  publisher_name : option string
}.

(** What the request to the Google Fact Check API comes to: an exception
    (of the request, or of reading its answer), or a status code with the
    ["claimReview"] lists of the ["claims"] of the JSON body. *)
Inductive api_reply : Type :=
  | ApiRaised
  | ApiAnswer (status_code : Z) (claims : list (list review)).

Definition risky_words : list string :=
  ["rumor"; "fake"; "unverified"; "conspiracy"; "allegedly"; "possibly"].

Section FactCheck.
Variable lower : string -> string.
Variable strip : string -> string.
(** [settings.GOOGLE_FACT_CHECK_API_KEY] and [requests.get] on the API
    with a query and a key. *)
Variable GOOGLE_FACT_CHECK_API_KEY : string.
Variable google_fact_check : string -> string -> api_reply.

Definition extract_claims (text : string) (max_claims : Z) : list string :=
  if Nat.ltb (String.length text) 50 then []
  else
    let sentences := split_on full_stop text in
    let claims :=
      omap (fun sent =>
              let sent := strip sent in
              if Nat.ltb 50 (String.length sent) && Nat.ltb (String.length sent) 500
                 && negb (existsb (fun p => String.prefix p sent) ["http"; "The"; "A "; "An "])
              then Some sent else None)
           (py_take (max_claims * 2) sentences) in
    py_take max_claims claims.

Definition _heuristic_check (claim : string) : claim_check :=
  let lowered := lower claim in
  if existsb (contains lowered) risky_words
  then mkCheck "flagged" "Contains uncertainty markers" [] "heuristic"
  else mkCheck "verified" "Passes basic checks" [] "heuristic".

(** The verdict: the first non-empty ["textualRating"], in lower case. *)
Fixpoint first_rating (reviews : list review) : string :=
  match reviews with
  | [] => "unknown"
  | r :: rest =>
      match textualRating r with
      | Some (String c s) => lower (String c s)
      | _ => first_rating rest
      end
  end.

Definition fact_check_claim (claim : string) (api_key : option string) : claim_check :=
  let api_key := match api_key with
                 | Some (String c s) => String c s
                 | _ => GOOGLE_FACT_CHECK_API_KEY
                 end in
  match api_key with
  | EmptyString => _heuristic_check claim
  | _ =>
      match google_fact_check (str_take 500 claim) api_key with
      | ApiRaised => _heuristic_check claim
      | ApiAnswer status_code claims =>
          if Z.eqb status_code 200 then
            match claims with
            | claim_obj :: _ =>
                let verdict := first_rating claim_obj in
                mkCheck (if contains verdict "true" then "verified" else "flagged")
                        verdict
                        (take 2 (map (fun r => default "Unknown" (publisher_name r)) claim_obj))
                        "google_api"
            | [] => mkCheck "unknown" "No fact-check data available" [] "google_api"
            end
          else _heuristic_check claim
      end
  end.

(** The loop of [check_article] with its counters. *)
Fixpoint check_claims (claims : list string) (results : list claim_check)
    (flagged verified : nat) : list claim_check * nat * nat :=
  match claims with
  | [] => (results, flagged, verified)
  | claim :: rest =>
      let result := fact_check_claim claim None in
      let results := results ++ [result] in
      if String.eqb (check_status result) "flagged"
      then check_claims rest results (S flagged) verified
      else if String.eqb (check_status result) "verified"
           then check_claims rest results flagged (S verified)
           else check_claims rest results flagged verified
  end.

Definition check_article (article_text : string) : article_check :=
  let claims := extract_claims article_text 2 in
  match claims with
  | [] => mkArticleCheck "verified" 0 0 0 []
  | _ =>
      let '(results, flagged, verified) := check_claims claims [] 0 0 in
      let overall := if Nat.ltb 0 flagged then "flagged" else "verified" in
      mkArticleCheck overall (length claims) flagged verified results
  end.

(** [_simple_fact_check] of [main_simple.py]. *)
Definition _simple_fact_check (text : string) : string :=
  match text with
  | EmptyString => "unknown"
  | _ => overall_status (check_article text)
  end.
End FactCheck.

(** ** The news handlers: [fetch_news_by_interests] and [fetch_news] *)

(** An article as the Serper service returns it; its ["date"] is not used. *)
Record ArticleData : Type := mkData {
  data_title : string;
  data_url : string;
  data_content : string;
  data_source : string
}.

(** A user with [json.loads(user.interests)], which is [None] when it
    raises. *)
Record User : Type := mkUser {
  usr_id : Z;
  usr_interests : option (list string)
}.

(** The answer of a handler that raises HTTP errors. *)
Inductive response (A : Type) : Type :=
  | Answer (a : A)
  | NotFound
  | ServerError.
Arguments Answer {A} a.
Arguments NotFound {A}.
Arguments ServerError {A}.

(** [db.query(Article).filter(Article.url == url).first()]. *)
Definition article_by_url (url : string) (table : list Article) : option Article :=
  List.find (fun a => String.eqb (art_url a) url) table.

Section News.
(** [serper_service.fetch_news(query, num_results)], which asks the Serper
    API, falls back to mock articles and catches what is raised. *)
Variable serper_fetch_news : string -> Z -> list ArticleData.

(** The loop that removes duplicates, with its accumulators. *)
Fixpoint unique_by_url (all_articles unique_articles : list ArticleData)
    (seen_urls : gset string) : list ArticleData :=
  match all_articles with
  | [] => unique_articles
  | article :: rest =>
      if decide (data_url article ∈ seen_urls)
      then unique_by_url rest unique_articles seen_urls
      else unique_by_url rest (unique_articles ++ [article])
                         ({[data_url article]} ∪ seen_urls)
  end.

Definition fetch_news_by_interests (interests : list string) (articles_per_interest : Z)
  : list ArticleData :=
  let all_articles :=
    concat (map (fun interest => serper_fetch_news interest articles_per_interest)
                interests) in
  unique_by_url all_articles [] ∅.

Variable lower : string -> string.
Variable strip : string -> string.
Variable count : string -> string -> nat.
Variable GOOGLE_FACT_CHECK_API_KEY : string.
Variable google_fact_check : string -> string -> api_reply.
(** The id and the time of creation the database gives to a row that is
    added to the table. *)
Variable db_defaults : list Article -> Z * Z.

(** The articles to store: the first part of [fetch_news]. *)
Definition articles_to_store (users : list User) (user_id : option Z)
    (query : option string) (limit : Z) : response (list ArticleData) :=
  match user_id with
  | Some uid =>
      if Z.eqb uid 0 then
        match query with
        | Some (String c q) => Answer (serper_fetch_news (String c q) limit)
        | _ => Answer (serper_fetch_news "technology news" limit)
        end
      else
        match List.find (fun u => Z.eqb (usr_id u) uid) users with
        | None => NotFound
        | Some user =>
            match usr_interests user with
            | None => ServerError
            | Some interests =>
                let articles_per_interest :=
                  match interests with
                  | [] => limit
                  | _ => Z.max 1 (limit / Z.of_nat (length interests))
                  end in
                Answer (fetch_news_by_interests interests articles_per_interest)
            end
        end
  | None =>
      match query with
      | Some (String c q) => Answer (serper_fetch_news (String c q) limit)
      | _ => Answer (serper_fetch_news "technology news" limit)
      end
  end.

(** The row added for an article that is not stored yet. *)
Definition new_article (table : list Article) (article_data : ArticleData)
    (apply_fact_check : bool) : Article :=
  let content := data_content article_data in
  let fact_status :=
    if apply_fact_check
    then Some (_simple_fact_check lower strip GOOGLE_FACT_CHECK_API_KEY google_fact_check
                                  content)
    else None in
  let scored := if apply_fact_check then Some (_simple_bias lower count content) else None in
  mkArticle (fst (db_defaults table)) (data_title article_data) (data_url article_data)
            content (data_source article_data)
            (option_map fst scored) fact_status (option_map snd scored)
            (snd (db_defaults table)).

(** The loop that stores the articles, with the list [stored_articles] it
    builds and the table of articles. *)
Fixpoint store_articles (articles_data : list ArticleData) (stored_articles : list Article)
    (table : list Article) (apply_fact_check : bool) : list Article * list Article :=
  match articles_data with
  | [] => (table, stored_articles)
  | article_data :: rest =>
      match article_by_url (data_url article_data) table with
      | Some existing =>
          store_articles rest (stored_articles ++ [existing]) table apply_fact_check
      | None =>
          let article := new_article table article_data apply_fact_check in
          store_articles rest (stored_articles ++ [article]) (table ++ [article])
                         apply_fact_check
      end
  end.

(** [fetch_news]: the table of articles it leaves and the articles of its
    answer. *)
Definition fetch_news (users : list User) (table : list Article) (user_id : option Z)
    (query : option string) (limit : Z) (apply_fact_check : bool)
  : response (list Article * list Article) :=
  match articles_to_store users user_id query limit with
  | Answer articles_data => Answer (store_articles articles_data [] table apply_fact_check)
  | NotFound => NotFound
  | ServerError => ServerError
  end.
End News.

(** *** Example data *)

(** A stand-in for the Serper service used in examples, which answers every
    query with three articles, two of them under one URL; and a database
    that numbers its rows. *)
Definition example_feed (query : string) (num_results : Z) : list ArticleData :=
  [mkData "first" "u1" "c1" "s"; mkData "second" "u1" "c2" "s"; mkData "third" "u2" "c3" "s"].

Definition example_defaults (table : list Article) : Z * Z :=
  (Z.of_nat (length table) + 1, 0)%Z.

Definition example_fetch_news :=
  fetch_news example_feed (fun s => s) (fun s => s) (fun _ _ => 0%nat) ""
             (fun _ _ => ApiRaised) example_defaults.

(** ** The search handler of [routes.py] ([search_articles]) *)

Section RouteSearch.
Variable generate_embedding : string -> result vector.

(** [{article.id: article for article in articles}]: of two articles with
    one id the later one stays. *)
Definition article_lookup (articles : list Article) : gmap Z Article :=
  foldl (fun m article => <[art_id article := article]> m) ∅ articles.

(** [cached_result] is what the cache holds under the key of the request,
    if anything, [table] the table of articles.  The handler answers with
    a list of articles; the second component is what it writes to the
    cache, if anything.  An exception becomes the HTTP error 500. *)
Definition search_articles (cached_result : option (list Article)) (s : FAISSService)
    (table : list Article) (query : string) (top_k : Z)
  : result (list Article * option (list Article)) :=
  match cached_result with
  | Some cached => Ok (cached, None)
  | None =>
      try! search_results := search generate_embedding s query top_k in
      match search_results with
      | [] => Ok ([], None)
      | _ =>
          let article_ids := map fst search_results in
          (* db.query(Article).filter(Article.id.in_(article_ids)).all() *)
          let articles := List.filter (fun a => in_list (art_id a) article_ids) table in
          let lookup := article_lookup articles in
          let sorted_articles :=
            omap (fun r : Z * Q => lookup !! fst r) search_results in
          Ok (sorted_articles, Some sorted_articles)
      end
  end.
End RouteSearch.
(** * Properties *)

(** ** The insertion sort *)

Section InsertionSortFacts.
Context {A : Type} (leb : A -> A -> bool).

Lemma sort_insert_perm x l : Permutation (sort_insert leb x l) (x :: l).
Proof.
  induction l as [|y l IH]; simpl; [done|].
  destruct (leb x y); [done|].
  rewrite IH. apply perm_swap.
Qed.

Lemma stable_sort_perm l : Permutation (stable_sort leb l) l.
Proof.
  induction l as [|x l IH]; simpl; [done|].
  rewrite sort_insert_perm. by constructor.
Qed.

Lemma stable_sort_length l : length (stable_sort leb l) = length l.
Proof. apply Permutation_length, stable_sort_perm. Qed.

Lemma stable_sort_elem_of x l : x ∈ stable_sort leb l ↔ x ∈ l.
Proof. by rewrite stable_sort_perm. Qed.

Hypothesis leb_total : forall a b, leb a b = true \/ leb b a = true.
Hypothesis leb_trans : forall a b c, leb a b = true -> leb b c = true -> leb a c = true.

Lemma sort_insert_sorted x l :
  StronglySorted (fun a b => leb a b = true) l ->
  StronglySorted (fun a b => leb a b = true) (sort_insert leb x l).
Proof using leb_total leb_trans.
  induction 1 as [|y l Hs IH Hall]; simpl.
  - repeat constructor.
  - destruct (leb x y) eqn:Hxy.
    + constructor; [by constructor|].
      constructor; [done|].
      eapply Forall_impl; [exact Hall|]. intros z Hz. eauto.
    + constructor; [done|].
      rewrite sort_insert_perm. constructor; [|done].
      destruct (leb_total x y); congruence.
Qed.

Lemma stable_sort_sorted l :
  StronglySorted (fun a b => leb a b = true) (stable_sort leb l).
Proof using leb_total leb_trans.
  induction l; simpl; [constructor|]. by apply sort_insert_sorted.
Qed.
End InsertionSortFacts.

Lemma StronglySorted_take {A} (R : A -> A -> Prop) n l :
  StronglySorted R l -> StronglySorted R (take n l).
Proof.
  intros Hs. rewrite <- (take_drop n l) in Hs.
  by apply StronglySorted_app_1_l in Hs.
Qed.

Lemma StronglySorted_weaken {A} (R R' : A -> A -> Prop) l :
  (forall a b, R a b -> R' a b) -> StronglySorted R l -> StronglySorted R' l.
Proof.
  intros HR. induction 1 as [|x l Hs IH Hall]; constructor; [done|].
  eapply Forall_impl; [exact Hall|]. auto.
Qed.

Lemma StronglySorted_omap {A B} (R : A -> A -> Prop) (R' : B -> B -> Prop)
    (f : A -> option B) l :
  (forall x y x' y', R x y -> f x = Some x' -> f y = Some y' -> R' x' y') ->
  StronglySorted R l -> StronglySorted R' (omap f l).
Proof.
  intros Hf. induction 1 as [|x l Hs IH Hall]; csimpl; [constructor|].
  destruct (f x) as [x'|] eqn:Hx; [|done].
  constructor; [done|].
  apply Forall_forall. intros y' Hy'.
  apply list_elem_of_omap in Hy' as (y & Hy & Hfy).
  rewrite Forall_forall in Hall. eauto.
Qed.

Lemma length_omap_le {A B} (f : A -> option B) l : length (omap f l) <= length l.
Proof.
  induction l as [|x l IH]; csimpl; [lia|]. destruct (f x); simpl; lia.
Qed.

(** ** The vector index: search *)

Lemma hit_leb_total a b : Faiss.hit_leb a b = true \/ Faiss.hit_leb b a = true.
Proof.
  unfold Faiss.hit_leb. rewrite !Qle_bool_iff.
  destruct (Qlt_le_dec (fst a) (fst b)); [left; by apply Qlt_le_weak | by right].
Qed.

Lemma hit_leb_trans a b c :
  Faiss.hit_leb a b = true -> Faiss.hit_leb b c = true -> Faiss.hit_leb a c = true.
Proof. unfold Faiss.hit_leb. rewrite !Qle_bool_iff. apply Qle_trans. Qed.

Lemma distances_length ix q : length (Faiss.distances ix q) = length (Faiss.xb ix).
Proof. apply length_imap. Qed.

(** What the service receives from FAISS: since it asks for at most
    [ntotal] neighbours, no padding occurs. *)
Lemma faiss_search_within ix q k hits :
  (k <= Faiss.ntotal ix)%Z ->
  Faiss.search ix q k = Ok hits ->
  hits = take (Z.to_nat k) (stable_sort Faiss.hit_leb (Faiss.distances ix q)) /\
  length hits = Z.to_nat k /\ (0 < k)%Z /\ length q = Faiss.d ix.
Proof.
  unfold Faiss.search, Faiss.ntotal. intros Hk.
  destruct (Nat.eqb_spec (length q) (Faiss.d ix)) as [Hd|]; simpl; [|done].
  destruct (Z.leb_spec k 0); [done|]. intros [= <-].
  assert (Hlen : length (stable_sort Faiss.hit_leb (Faiss.distances ix q))
                 = length (Faiss.xb ix))
    by (by rewrite stable_sort_length, distances_length).
  rewrite Hlen.
  replace (Z.to_nat k - length (Faiss.xb ix)) with 0 by lia.
  simpl. rewrite app_nil_r. split; [done|].
  split; [|done]. rewrite length_take, Hlen. lia.
Qed.

Lemma faiss_search_ok ix q k :
  (0 < k)%Z -> length q = Faiss.d ix -> exists hits, Faiss.search ix q k = Ok hits.
Proof.
  intros Hk Hd. unfold Faiss.search. rewrite Hd, Nat.eqb_refl. simpl.
  destruct (Z.leb_spec k 0); [lia|]. eauto.
Qed.

(** The outcome of [search_by_embedding] on a non-empty index. *)
Lemma search_by_embedding_inv s q k res :
  Faiss.ntotal (index s) <> 0%Z ->
  search_by_embedding s q k = Ok res ->
  let k' := Z.min k (Faiss.ntotal (index s)) in
  res = collect_results (article_id_map s)
          (take (Z.to_nat k')
             (stable_sort Faiss.hit_leb (Faiss.distances (index s) q))) /\
  (0 < k')%Z /\ length q = Faiss.d (index s).
Proof.
  intros Hn. unfold search_by_embedding.
  destruct (Z.eqb_spec (Faiss.ntotal (index s)) 0); [done|].
  unfold reshape_row. cbv zeta.
  destruct (Faiss.search _ _ _) as [hits|] eqn:Hs; [|done].
  cbn [rbind]. intros [= <-].
  apply faiss_search_within in Hs as (-> & _ & ? & ?); [done|lia].
Qed.

(** A positive [k] and a query of the dimension of the index make the
    search return. *)
Lemma search_by_embedding_returns s q k :
  (0 < k)%Z -> q <> [] -> length q = Faiss.d (index s) ->
  exists res, search_by_embedding s q k = Ok res.
Proof.
  intros Hk Hq Hd. unfold search_by_embedding.
  destruct (Z.eqb_spec (Faiss.ntotal (index s)) 0); [eauto|].
  unfold reshape_row. cbv zeta.
  destruct (faiss_search_ok (index s) q
              (Z.min k (Faiss.ntotal (index s)))) as [hits ->]; [|done|].
  - unfold Faiss.ntotal in *. lia.
  - cbn [rbind]. eauto.
Qed.

(** C1.  For every index state, query vector and [k], a search that
    returns yields at most [min(k, total_count)] results, each of them the
    article id of a stored slot with the squared Euclidean distance of that
    slot's vector to the query, in order of non-decreasing distance; on an
    index with zero vectors it returns the empty list without raising; and
    it does return whenever [k] is positive and the query has the
    dimension of the index. *)
Theorem search_by_embedding_spec (s : FAISSService) (q : vector) (k : Z) :
  (Faiss.ntotal (index s) = 0%Z -> search_by_embedding s q k = Ok []) /\
  (forall res, search_by_embedding s q k = Ok res ->
     length res <= Z.to_nat (Z.min k (Faiss.ntotal (index s))) /\
     StronglySorted by_distance res /\
     (forall aid dist, (aid, dist) ∈ res ->
        exists i v, article_id_map s !! Z.of_nat i = Some aid /\
                    Faiss.xb (index s) !! i = Some v /\
                    dist = sqdist q v)) /\
  ((0 < k)%Z -> q <> [] -> length q = Faiss.d (index s) ->
     exists res, search_by_embedding s q k = Ok res).
Proof.
  split; [|split].
  - intros Hn. unfold search_by_embedding. by rewrite Hn.
  - intros res Hres.
    destruct (decide (Faiss.ntotal (index s) = 0%Z)) as [Hn|Hn].
    { unfold search_by_embedding in Hres. rewrite Hn in Hres. simpl in Hres.
      injection Hres as <-. split; [simpl; lia|]. split; [constructor|].
      intros ?? Hin. by apply elem_of_nil in Hin. }
    apply search_by_embedding_inv in Hres as (-> & Hk & Hd); [|done].
    split; [|split].
    + etrans; [apply length_omap_le|]. rewrite length_take. lia.
    + eapply StronglySorted_omap; [|apply StronglySorted_take, stable_sort_sorted;
                                     [apply hit_leb_total|apply hit_leb_trans]].
      intros x y x' y' Hxy Hx Hy. simpl in Hx, Hy.
      destruct (_ !! snd x); [|done]. destruct (_ !! snd y); [|done].
      injection Hx as <-. injection Hy as <-.
      unfold by_distance. simpl. by apply Qle_bool_iff.
    + intros aid dist Hin.
      apply list_elem_of_omap in Hin as (h & Hh & Hf).
      apply elem_of_take in Hh as (j & Hj & _).
      apply list_elem_of_lookup_2 in Hj.
      apply stable_sort_elem_of in Hj.
      apply elem_of_lookup_imap in Hj as (i & v & -> & Hv).
      simpl in Hf. destruct (_ !! Z.of_nat i) as [a|] eqn:Ha; [|done].
      injection Hf as <- <-. eauto.
  - apply search_by_embedding_returns.
Qed.

Example search_nearest_two :
  search_by_embedding example_index [1; 2]%Q 2 = Ok [(10%Z, 0%Q); (30%Z, 4%Q)].
Proof. reflexivity. Qed.

Example search_more_than_stored :
  search_by_embedding example_index [1; 2]%Q 7
  = Ok [(10%Z, 0%Q); (30%Z, 4%Q); (20%Z, 5%Q)].
Proof. reflexivity. Qed.

Example search_wrong_dimension :
  search_by_embedding example_index [1; 2; 3]%Q 2 = Raise AssertionError.
Proof. reflexivity. Qed.

Example search_empty_index :
  search_by_embedding (init 2) [1; 2; 3]%Q (-4) = Ok [].
Proof. reflexivity. Qed.

(** ** Hits without a mapping entry *)

Lemma collect_results_length m hits :
  length (collect_results m hits) + length (List.filter (unmapped m) hits) = length hits.
Proof.
  unfold collect_results, unmapped.
  induction hits as [|h hits IH]; csimpl; [done|].
  destruct (m !! snd h); simpl; lia.
Qed.

Lemma filter_nonempty {A} (p : A -> bool) l x :
  x ∈ l -> p x = true -> 0 < length (List.filter p l).
Proof.
  intros Hin Hp. assert (Hx : In x (List.filter p l)).
  { apply filter_In. split; [by apply list_elem_of_In|done]. }
  destruct (List.filter p l); [done|simpl; lia].
Qed.

Lemma nearest_hits_length s q k :
  length (nearest_hits s q k) = Z.to_nat (Z.min k (Faiss.ntotal (index s))).
Proof.
  unfold nearest_hits.
  rewrite length_take, stable_sort_length, distances_length.
  unfold Faiss.ntotal. lia.
Qed.

(** A mapping with fewer entries than there are slots misses a slot. *)
Lemma missing_slot (m : gmap Z Z) (n : nat) :
  size m < n -> exists i, i < n /\ m !! Z.of_nat i = None.
Proof.
  intros Hsz.
  destruct (decide (Forall (fun i => is_Some (m !! Z.of_nat i)) (seq 0 n)))
    as [Hall|Hnot].
  - exfalso.
    assert (Hsub : (list_to_set (Z.of_nat <$> seq 0 n) : gset Z) ⊆ dom m).
    { intros z Hz. apply elem_of_list_to_set, list_elem_of_fmap in Hz
        as (i & -> & Hi).
      apply elem_of_dom. rewrite Forall_forall in Hall. by apply Hall. }
    apply subseteq_size in Hsub.
    rewrite size_dom, size_list_to_set, length_fmap, length_seq in Hsub; [lia|].
    apply NoDup_fmap; [apply _|apply NoDup_seq].
  - apply not_Forall_Exists in Hnot; [|apply _].
    apply Exists_exists in Hnot as (i & Hi & Hnone).
    exists i. apply elem_of_seq in Hi. split; [lia|].
    by apply eq_None_not_Some.
Qed.

Section TextSearchFacts.
Variable generate_embedding : string -> result vector.

(** Text search is embedding search on the generated embedding. *)
Lemma search_by_text s query q k :
  generate_embedding query = Ok q ->
  search generate_embedding s query k = search_by_embedding s q k.
Proof. intros Hq. unfold search, search_by_embedding. by rewrite Hq. Qed.
End TextSearchFacts.

(** [gapped_index] is what loading a snapshot with an incomplete mapping
    installs. *)
Example gapped_index_loaded :
  let snapshot :=
    mkSnapshot (Some (toy_serialize_index (Faiss.mkIndex 2 [[1; 2]; [0; 0]]%Q)))
               (Some {[ 0%Z := 10%Z ]}) in
  toy_load (init 2) {[ "faiss_index.pkl" := toy_pickle_dump snapshot ]} "faiss_index.pkl"
  = (gapped_index, Ok tt).
Proof. vm_compute. reflexivity. Qed.

(** C10, as stated, fails: the mapping of [gapped_index] has one entry for
    two stored vectors, yet a search for the single nearest neighbour of
    the first vector returns [min(1, 2) = 1] result, not fewer. *)
Lemma search_gap_not_hit :
  size (article_id_map gapped_index) < Z.to_nat (Faiss.ntotal (index gapped_index)) /\
  search_by_embedding gapped_index [1; 2]%Q 1 = Ok [(10%Z, 0%Q)] /\
  ~ (length [(10%Z, 0%Q)]
     < Z.to_nat (Z.min 1 (Faiss.ntotal (index gapped_index)))).
Proof.
  split; [vm_compute; lia|]. split; [by vm_compute|]. vm_compute. lia.
Qed.

(** C10 (amended).  A search that returns has dropped exactly the hits
    among the [min(k, total_count)] nearest slots whose slot is not a key
    of the mapping, without raising; the text search does the same on the
    generated embedding.  On an index whose mapping has fewer entries than
    stored vectors the result is therefore shorter than
    [min(k, total_count)] as soon as one of those nearest slots is
    unmapped, which is the case whenever [k >= total_count]. *)
Theorem search_drops_unmapped_hits (s : FAISSService) (q : vector) (k : Z) :
  (forall res, search_by_embedding s q k = Ok res ->
     res = collect_results (article_id_map s) (nearest_hits s q k) /\
     length res + length (List.filter (unmapped (article_id_map s)) (nearest_hits s q k))
       = Z.to_nat (Z.min k (Faiss.ntotal (index s)))) /\
  (forall gen query, gen query = Ok q -> search gen s query k = search_by_embedding s q k) /\
  ((size (article_id_map s) < Z.to_nat (Faiss.ntotal (index s)))%nat ->
   (Faiss.ntotal (index s) <= k)%Z -> q <> [] -> length q = Faiss.d (index s) ->
   exists res, search_by_embedding s q k = Ok res /\
     length res < Z.to_nat (Z.min k (Faiss.ntotal (index s)))).
Proof.
  assert (Hfirst : forall res, search_by_embedding s q k = Ok res ->
     res = collect_results (article_id_map s) (nearest_hits s q k) /\
     length res + length (List.filter (unmapped (article_id_map s)) (nearest_hits s q k))
       = Z.to_nat (Z.min k (Faiss.ntotal (index s)))).
  { intros res Hres.
    assert (res = collect_results (article_id_map s) (nearest_hits s q k)) as ->.
    { destruct (decide (Faiss.ntotal (index s) = 0%Z)) as [Hn|Hn].
      - unfold search_by_embedding in Hres. rewrite Hn in Hres. simpl in Hres.
        injection Hres as <-. unfold nearest_hits, Faiss.distances.
        unfold Faiss.ntotal in Hn.
        destruct (Faiss.xb (index s)); [|simpl in Hn; lia].
        simpl. by rewrite take_nil.
      - by apply search_by_embedding_inv in Hres as (-> & _). }
    split; [done|]. by rewrite collect_results_length, nearest_hits_length. }
  split; [done|]. split; [intros; by apply search_by_text|].
  intros Hsz Hk Hq Hd.
  destruct (search_by_embedding_returns s q k) as [res Hres];
    [unfold Faiss.ntotal in *; lia|done|done|].
  exists res. split; [done|].
  destruct (Hfirst res Hres) as [_ Hlen].
  enough (0 < length (List.filter (unmapped (article_id_map s)) (nearest_hits s q k)))
    by lia.
  unfold Faiss.ntotal in Hsz. rewrite Nat2Z.id in Hsz.
  destruct (missing_slot _ _ Hsz) as (i & Hi & Hnone).
  destruct (lookup_lt_is_Some_2 (Faiss.xb (index s)) i Hi) as [v Hv].
  apply (filter_nonempty _ _ (sqdist q v, Z.of_nat i)).
  - unfold nearest_hits. rewrite take_ge.
    + apply stable_sort_elem_of.
      by apply (elem_of_lookup_imap_2 (fun i v => (sqdist q v, Z.of_nat i)) _ v i).
    + rewrite stable_sort_length, distances_length. unfold Faiss.ntotal in *. lia.
  - unfold unmapped. simpl. by rewrite Hnone.
Qed.

(** ** Insertion *)

Lemma faiss_add_rejects ix x :
  Exists (fun v => length v <> Faiss.d ix) x -> Faiss.add ix x = Raise AssertionError.
Proof.
  intros Hex. unfold Faiss.add.
  destruct (forallb _ x) eqn:Hall; [|done].
  rewrite forallb_forall in Hall. apply Exists_exists in Hex as (v & Hv & Hne).
  apply list_elem_of_In, Hall, Nat.eqb_eq in Hv. done.
Qed.

Lemma faiss_add_accepts ix x :
  Forall (fun v => length v = Faiss.d ix) x ->
  Faiss.add ix x = Ok (Faiss.mkIndex (Faiss.d ix) (Faiss.xb ix ++ x)).
Proof.
  intros Hall. unfold Faiss.add.
  destruct (forallb _ x) eqn:Hb; [done|].
  apply not_true_iff_false in Hb. destruct Hb.
  apply forallb_forall. intros v Hv. apply Nat.eqb_eq.
  rewrite Forall_forall in Hall. by apply Hall, list_elem_of_In.
Qed.

Lemma init_consistent dim : consistent (init dim).
Proof. done. Qed.

Lemma add_embeddings_consistent s (embs : list vector) (ids : list Z) :
  consistent s -> consistent (fst (add_embeddings s embs ids)).
Proof.
  unfold consistent, add_embeddings, Faiss.add. intros Hs.
  destruct (negb _); [done|]. by destruct (forallb _ _).
Qed.

Lemma add_single_embedding_consistent s (v : vector) (aid : Z) :
  consistent s -> consistent (fst (add_single_embedding s v aid)).
Proof.
  unfold consistent, add_single_embedding, Faiss.add. intros Hs.
  by destruct (forallb _ _).
Qed.

(** An accepted insertion appends the vectors and grows the count. *)
Lemma add_embeddings_accepts s (embs : list vector) (ids : list Z) :
  length embs = length ids ->
  Forall (fun v => length v = Faiss.d (index s)) embs ->
  exists s', add_embeddings s embs ids = (s', Ok tt) /\
    Faiss.xb (index s') = Faiss.xb (index s) ++ embs /\
    total_vectors (get_index_stats s')
      = (total_vectors (get_index_stats s) + Z.of_nat (length embs))%Z.
Proof.
  intros Hlen Hall. unfold add_embeddings.
  destruct (Nat.eqb_spec (length embs) (length ids)); [simpl|done].
  rewrite faiss_add_accepts by done.
  eexists. split; [done|]. split; [done|].
  simpl. unfold Faiss.ntotal. simpl. rewrite length_app. lia.
Qed.




(** ** Rebuild *)

Lemma record_ids_lookup_from (start : Z) (ids : list Z) :
  forall (n : nat) (m : gmap Z Z) (z : Z),
    foldl (fun m p => <[(start + Z.of_nat (fst p))%Z := snd p]> m) m
          (imap (fun i x => (n + i, x)) ids) !! z
    = if decide (start + Z.of_nat n <= z < start + Z.of_nat n + Z.of_nat (length ids))%Z
      then ids !! Z.to_nat (z - start - Z.of_nat n)
      else m !! z.
Proof.
  induction ids as [|a ids IH]; intros n m z; simpl.
  - case_decide; [lia|done].
  - rewrite (imap_ext _ (fun i x => (S n + i, x))) by (intros; simpl; f_equal; lia).
    rewrite IH. simpl. replace (n + 0) with n by lia.
    repeat case_decide; try lia.
    + replace (Z.to_nat (z - start - Z.of_nat n)) with
        (S (Z.to_nat (z - start - Z.of_nat (S n)))) by lia. done.
    + assert (z = (start + Z.of_nat n)%Z) as -> by lia.
      rewrite lookup_insert_eq.
      by replace (Z.to_nat (start + Z.of_nat n - start - Z.of_nat n)) with 0 by lia.
    + rewrite lookup_insert_ne by lia. done.
Qed.

Lemma record_ids_lookup start ids m z :
  record_ids start ids m !! z
  = if decide (start <= z < start + Z.of_nat (length ids))%Z
    then ids !! Z.to_nat (z - start)
    else m !! z.
Proof.
  unfold record_ids, enumerate.
  rewrite (imap_ext _ (fun i x => (0 + i, x))) by done.
  rewrite record_ids_lookup_from. simpl.
  repeat case_decide; try lia; [|done]. f_equal. lia.
Qed.

Lemma vstack_uniform (n : nat) (rows : list vector) :
  rows <> [] -> Forall (fun v => length v = n) rows -> vstack rows = Ok rows.
Proof.
  intros Hne Hall. unfold vstack. destruct rows as [|r rows']; [done|].
  destruct (forallb _ _) eqn:Hb; [done|].
  apply not_true_iff_false in Hb. destruct Hb.
  apply forallb_forall. intros v Hv. apply Nat.eqb_eq.
  rewrite Forall_forall in Hall.
  rewrite (Hall v) by (by apply list_elem_of_In).
  symmetry. apply Hall. left.
Qed.

Lemma contents_from (decoded : list (Z * vector)) :
  forall (n : nat) (m : gmap Z Z),
    (forall i : nat, m !! Z.of_nat (n + i) = fst <$> decoded !! i) ->
    omap (fun p : nat * vector =>
            option_map (fun aid => (aid, snd p)) (m !! Z.of_nat (fst p)))
         (imap (fun i v => (n + i, v)) (map snd decoded))
    = decoded.
Proof.
  induction decoded as [|[aid v] decoded IH]; intros n m Hm; [done|].
  csimpl. rewrite (Hm 0). simpl. f_equal.
  rewrite (imap_ext _ (fun i x => (S n + i, x))) by (intros; simpl; f_equal; lia).
  apply IH. intros i. specialize (Hm (S i)). simpl in Hm.
  rewrite <- Hm. f_equal. lia.
Qed.

(** The pairs held after a successful rebuild are the decoded rows. *)
Lemma contents_rebuilt dim decoded : contents (rebuilt dim decoded) = decoded.
Proof.
  unfold contents, rebuilt, enumerate. simpl.
  rewrite (imap_ext _ (fun i x => (0 + i, x))) by done.
  apply contents_from. intros i.
  rewrite record_ids_lookup, length_map, lookup_empty. simpl.
  case_decide.
  - rewrite Z.sub_0_r, Nat2Z.id. apply list_lookup_fmap.
  - symmetry. apply fmap_None, lookup_ge_None. lia.
Qed.

Section RebuildFacts.
Variable pickle_loads : bytes -> option vector.

Abbreviation decode := (decode_row pickle_loads).
Abbreviation rebuild := (rebuild_from_embeddings pickle_loads).

Lemma rebuild_discards s1 s2 rows :
  dimension s1 = dimension s2 -> rebuild s1 rows = rebuild s2 rows.
Proof.
  intros Hd. unfold rebuild_from_embeddings, _initialize_index. simpl.
  by rewrite Hd.
Qed.

(** Whatever the service was, after a rebuild its index has the
    configured dimension. *)
Lemma rebuild_consistent s rows : consistent (fst (rebuild s rows)).
Proof.
  unfold consistent, rebuild_from_embeddings, Faiss.add. destruct rows; [done|].
  destruct (map snd _); [done|].
  destruct (vstack _); [|done]. by destruct (forallb _ _).
Qed.

Lemma rebuild_dimension s rows : dimension (fst (rebuild s rows)) = dimension s.
Proof.
  unfold rebuild_from_embeddings. destruct rows; [done|].
  destruct (map snd _); [done|].
  destruct (vstack _); [|done]. by destruct (Faiss.add _ _).
Qed.

(** Rebuild depends on the rows only through what they decode to. *)
Lemma rebuild_decoded s rows1 rows2 :
  omap decode rows1 = omap decode rows2 -> rebuild s rows1 = rebuild s rows2.
Proof.
  intros Heq. unfold rebuild_from_embeddings.
  destruct rows1 as [|r1 rows1], rows2 as [|r2 rows2]; [done| | |by rewrite Heq].
  - rewrite <- Heq. done.
  - rewrite Heq. done.
Qed.

Lemma rebuild_ok s rows :
  Forall (fun p => length (snd p) = dimension s) (omap decode rows) ->
  rebuild s rows = (rebuilt (dimension s) (omap decode rows), Ok tt).
Proof.
  intros Hall. unfold rebuild_from_embeddings, rebuilt.
  destruct rows as [|r rows]; [done|].
  destruct (omap decode (r :: rows)) as [|p dec] eqn:Hdec; [done|].
  assert (Hv : Forall (fun v : vector => length v = dimension s) (map snd (p :: dec))).
  { apply Forall_fmap. eapply Forall_impl; [exact Hall|]. done. }
  change (map snd (p :: dec)) with (snd p :: map snd dec) in *.
  rewrite (vstack_uniform (dimension s)) by done.
  rewrite faiss_add_accepts by done. done.
Qed.

Lemma decode_skipped aid blob :
  blob = [] \/ pickle_loads blob = None -> decode (aid, blob) = None.
Proof.
  unfold decode_row. simpl. intros [->| ->]; [done|]. by destruct blob.
Qed.

(** A decoded vector of another length than the configured dimension
    makes the rebuild raise after the index and the mapping were reset. *)
Lemma rebuild_fails s rows :
  Exists (fun p => length (snd p) <> dimension s) (omap decode rows) ->
  exists e, rebuild s rows = (init (dimension s), Raise e).
Proof.
  intros Hex. unfold rebuild_from_embeddings, init.
  destruct rows as [|r rows]; [by apply Exists_nil in Hex|].
  destruct (omap decode (r :: rows)) as [|p dec] eqn:Hdec; [by apply Exists_nil in Hex|].
  cbn [map]. destruct (vstack _) as [matrix|e] eqn:Hstack; [|eauto].
  assert (matrix = snd p :: map snd dec) as ->.
  { unfold vstack in Hstack. by destruct (forallb _ _); simplify_eq. }
  rewrite faiss_add_rejects; [eauto|].
  change (snd p :: map snd dec) with (map snd (p :: dec)).
  apply Exists_fmap. eapply Exists_impl; [exact Hex|]. done.
Qed.

(** C5.  [rebuild] discards the current index and mapping (its outcome
    depends on the service only through the configured dimension); a row
    whose blob is empty or does not unpickle is skipped and the remaining
    rows are processed as if it were absent; when every decoded vector
    has the configured dimension the rebuild succeeds, stores them in
    row order and maps slot [i] (from 0, contiguously, and no other
    slot) to the article of the [i]-th decoded row, so that the index
    holds exactly the decoded (article id, vector) pairs; when some
    decoded vector has another length the rebuild raises and leaves the
    index and the mapping empty; and rebuilding again from the same rows
    reproduces the same state, hence the same multiset of
    (article id, vector) pairs. *)
Theorem rebuild_spec (s : FAISSService) (rows : list (Z * bytes)) :
  let decoded := omap decode rows in
  let s' := fst (rebuild s rows) in
  (forall s2, dimension s2 = dimension s -> rebuild s2 rows = rebuild s rows) /\
  (forall rows1 aid blob rows2,
     rows = rows1 ++ (aid, blob) :: rows2 ->
     blob = [] \/ pickle_loads blob = None ->
     rebuild s rows = rebuild s (rows1 ++ rows2)) /\
  (Forall (fun p => length (snd p) = dimension s) decoded ->
     snd (rebuild s rows) = Ok tt /\
     Faiss.xb (index s') = map snd decoded /\
     (forall i : nat, article_id_map s' !! Z.of_nat i = fst <$> decoded !! i) /\
     (forall z, is_Some (article_id_map s' !! z) ->
                (0 <= z < Z.of_nat (length decoded))%Z) /\
     contents s' = decoded) /\
  (Exists (fun p => length (snd p) <> dimension s) decoded ->
     (exists e, snd (rebuild s rows) = Raise e) /\
     s' = init (dimension s) /\
     total_vectors (get_index_stats s') = 0%Z) /\
  rebuild s' rows = rebuild s rows /\
  Permutation (contents (fst (rebuild s' rows))) (contents s').
Proof.
  intros decoded s'. split; [|split; [|split; [|split; [|split]]]].
  - intros s2 Hd. by apply rebuild_discards.
  - intros rows1 aid blob rows2 -> Hbad. apply rebuild_decoded.
    rewrite !omap_app. csimpl. by rewrite decode_skipped.
  - intros Hall. subst s' decoded. rewrite rebuild_ok by done. simpl.
    split; [done|]. split; [done|]. split.
    + intros i. rewrite record_ids_lookup, length_map, lookup_empty.
      case_decide as Hi.
      * rewrite Z.sub_0_r, Nat2Z.id. apply list_lookup_fmap.
      * symmetry. apply fmap_None, lookup_ge_None. lia.
    + split; [|apply contents_rebuilt].
      intros z. rewrite record_ids_lookup, length_map, lookup_empty.
      case_decide; [lia|]. by intros [? ?].
  - intros Hex. subst s' decoded. destruct (rebuild_fails _ _ Hex) as [e ->].
    simpl. eauto.
  - apply rebuild_discards, rebuild_dimension.
  - subst s'. by rewrite (rebuild_discards _ s) by apply rebuild_dimension.
Qed.
End RebuildFacts.

(** An instance: the second row does not unpickle and is skipped, the other
    two receive slots 0 and 1. *)
Lemma rebuild_spec_witness :
  let rows := [(11%Z, [Byte.x80; Byte.x01; Byte.x02]); (12%Z, [Byte.x00]);
               (13%Z, [Byte.x80; Byte.x03; Byte.x04])] in
  let s' := fst (rebuild_from_embeddings toy_pickle_loads gapped_index rows) in
  snd (rebuild_from_embeddings toy_pickle_loads gapped_index rows) = Ok tt /\
  Faiss.xb (index s') = [[1; 2]; [3; 4]]%Q /\
  article_id_map s' !! 0%Z = Some 11%Z /\
  article_id_map s' !! 1%Z = Some 13%Z.
Proof.
  intros rows s'.
  destruct (rebuild_spec toy_pickle_loads gapped_index rows)
    as (_ & _ & H & _).
  destruct H as (H1 & H2 & H3 & _ & _).
  - repeat constructor.
  - split; [exact H1|]. split; [exact H2|].
    split; [exact (H3 0)|exact (H3 1)].
Defined.

(** C5, as stated, fails: rows that decode are not inserted again when one
    of them has another length than the configured dimension, be it a
    vector of three components or an array without components; the
    rebuild raises and the index it leaves is empty. *)
Lemma rebuild_decoded_not_inserted :
  let rows3 := [(11%Z, [Byte.x80; Byte.x01; Byte.x02]);
                (12%Z, [Byte.x80; Byte.x03; Byte.x04; Byte.x05])] in
  let rows0 := [(11%Z, [Byte.x80]); (12%Z, [Byte.x80; Byte.x05; Byte.x06])] in
  omap (decode_row toy_pickle_loads) rows3 = [(11%Z, [1; 2]%Q); (12%Z, [3; 4; 5]%Q)] /\
  rebuild_from_embeddings toy_pickle_loads example_index rows3
  = (init 2, Raise ValueError) /\
  omap (decode_row toy_pickle_loads) rows0 = [(11%Z, []); (12%Z, [5; 6]%Q)] /\
  rebuild_from_embeddings toy_pickle_loads example_index rows0
  = (init 2, Raise ValueError) /\
  total_vectors (get_index_stats (init 2)) = 0%Z.
Proof. vm_compute. done. Qed.

(** ** Snapshots *)

Section SnapshotFacts.
Variable serialize_index : Faiss.IndexFlatL2 -> bytes.
Variable deserialize_index : bytes -> option Faiss.IndexFlatL2.
Variable pickle_dump : snapshot_dict -> bytes.
Variable pickle_load : bytes -> option snapshot_dict.

Abbreviation save := (save_index serialize_index pickle_dump).
Abbreviation load := (load_index deserialize_index pickle_load).

(** What [load_index] does with a file that unpickles to a dictionary with
    both entries whose index entry deserializes. *)
Lemma load_index_installs s fs path content blob m ix :
  fs !! path = Some content ->
  pickle_load content = Some (mkSnapshot (Some blob) (Some m)) ->
  deserialize_index blob = Some ix ->
  load s fs path = (mkService ix m (dimension s), Ok tt).
Proof. intros Hf Hp Hd. unfold load_index. by rewrite Hf, Hp; simpl; rewrite Hd. Qed.

(** When the file holds a dictionary whose index entry deserializes but
    whose mapping entry is missing, the index has already been replaced
    when the lookup of the mapping raises. *)
Lemma load_index_partial s fs path content blob ix :
  fs !! path = Some content ->
  pickle_load content = Some (mkSnapshot (Some blob) None) ->
  deserialize_index blob = Some ix ->
  load s fs path = (mkService ix (article_id_map s) (dimension s), Raise KeyError).
Proof. intros Hf Hp Hd. unfold load_index. by rewrite Hf, Hp; simpl; rewrite Hd. Qed.

(** C6.  Provided the two libraries read back what they wrote for this
    index and this mapping, [save_index] followed by [load_index] on the
    same path succeeds and leaves the service as it was, so that
    [get_index_stats] and the answer to every probe query are the same;
    loaded into another service with the same configured dimension the
    snapshot reproduces the saved one. *)
Theorem save_load_roundtrip (s : FAISSService) (fs : gmap string bytes) (path : string) :
  deserialize_index (serialize_index (index s)) = Some (index s) ->
  pickle_load (pickle_dump (mkSnapshot (Some (serialize_index (index s)))
                                       (Some (article_id_map s))))
    = Some (mkSnapshot (Some (serialize_index (index s))) (Some (article_id_map s))) ->
  forall s2, dimension s2 = dimension s ->
    let s' := fst (load s2 (save s fs path) path) in
    snd (load s2 (save s fs path) path) = Ok tt /\
    s' = s /\
    get_index_stats s' = get_index_stats s /\
    (forall q k, search_by_embedding s' q k = search_by_embedding s q k).
Proof.
  intros Hfaiss Hpickle s2 Hdim s'. subst s'.
  erewrite load_index_installs; [| |exact Hpickle|exact Hfaiss].
  - simpl. rewrite Hdim. by destruct s.
  - unfold save_index. apply lookup_insert_eq.
Qed.

(** C8 (amended).  [load_index] raises and leaves the service untouched
    when the file is missing, does not unpickle, has no index entry, or
    its index entry does not deserialize; a snapshot that unpickles with
    both entries and whose index deserializes is installed whatever the
    dimension of that index, the configured dimension staying as it was. *)
Theorem load_index_outcomes (s : FAISSService) (fs : gmap string bytes) (path : string) :
  (fs !! path = None \/
   (exists content, fs !! path = Some content /\
      (pickle_load content = None \/
       exists dict, pickle_load content = Some dict /\
         (entry_index dict = None \/
          exists blob, entry_index dict = Some blob /\ deserialize_index blob = None))) ->
   exists e, load s fs path = (s, Raise e)) /\
  (forall content blob m ix,
     fs !! path = Some content ->
     pickle_load content = Some (mkSnapshot (Some blob) (Some m)) ->
     deserialize_index blob = Some ix ->
     load s fs path = (mkService ix m (dimension s), Ok tt)).
Proof.
  split.
  - unfold load_index.
    intros [->|(content & -> & [->|(dict & -> & [->|(blob & -> & ->)])])]; eauto.
  - intros. by eapply load_index_installs.
Qed.
End SnapshotFacts.

(** An instance of the round trip with the example codec, from one process
    to a freshly started one. *)
Lemma save_load_roundtrip_witness :
  let s := fst (add_embeddings (init 2) [[1; 2]; [0; 0]]%Q [10%Z; 20%Z]) in
  let s' := fst (toy_load (init 2) (toy_save s ∅ "faiss_index.pkl") "faiss_index.pkl") in
  s' = s /\ get_index_stats s' = get_index_stats s.
Proof.
  intros s s'.
  destruct (save_load_roundtrip toy_serialize_index toy_deserialize_index
              toy_pickle_dump toy_pickle_load s ∅ "faiss_index.pkl")
    with (s2 := init 2) as (_ & H1 & H2 & _).
  - vm_compute. reflexivity.
  - vm_compute. reflexivity.
  - reflexivity.
  - split; [exact H1|exact H2].
Defined.

(** C8, as stated, fails: a snapshot saved by a service configured with
    dimension 3 is installed by a service configured with dimension 2. *)
Lemma load_foreign_dimension_installed :
  let fs := toy_save (init 3) ∅ "faiss_index.pkl" in
  let out := toy_load (init 2) fs "faiss_index.pkl" in
  snd out = Ok tt /\
  Faiss.d (index (fst out)) = 3 /\
  dimension (fst out) = 2.
Proof. vm_compute. done. Qed.

(** ** Content recommender *)

Lemma vadd_length n x y : length x = n -> length y = n -> length (vadd x y) = n.
Proof. intros Hx Hy. unfold vadd. rewrite length_zip_with. lia. Qed.

Lemma vadd_nth j x y :
  length x = length y -> nth j (vadd x y) 0%Q = (nth j x 0 + nth j y 0)%Q.
Proof.
  unfold vadd. revert j y. induction x as [|a x IH]; intros j [|b y] Hlen;
    simplify_eq/=; destruct j; simpl; auto.
Qed.

Lemma foldl_vadd_nth n j rs : forall r,
  length r = n -> Forall (fun v => length v = n) rs ->
  length (foldl vadd r rs) = n /\
  (nth j (foldl vadd r rs) 0 == nth j r 0 + column_sum j rs)%Q.
Proof.
  induction rs as [|a rs IH]; intros r Hr Hall; simpl.
  - split; [done|]. unfold column_sum. simpl. ring.
  - inversion Hall as [|?? Ha Hrs]; subst.
    destruct (IH (vadd r a)) as [Hlen Hnth]; [by apply vadd_length|done|].
    split; [done|]. rewrite Hnth, vadd_nth by congruence.
    unfold column_sum. simpl. ring.
Qed.

(** [mean_axis0] is the element-wise mean. *)
Lemma mean_axis0_nth n j (vs : list vector) :
  Forall (fun v => length v = n) vs -> j < n -> vs <> [] ->
  (nth j (mean_axis0 vs) 0 == column_sum j vs / inject_Z (Z.of_nat (length vs)))%Q.
Proof.
  intros Hall Hj Hne. destruct vs as [|r rs]; [done|].
  inversion Hall as [|?? Hr Hrs]; subst.
  destruct (foldl_vadd_nth (length r) j rs r) as [Hlen Hnth]; [done..|].
  unfold mean_axis0.
  set (c := inject_Z (Z.of_nat (length (r :: rs)))).
  rewrite (nth_indep _ 0%Q (0 / c)%Q) by (rewrite length_map; lia).
  rewrite (map_nth (fun x => x / c)%Q).
  rewrite Hnth. unfold column_sum. simpl. reflexivity.
Qed.

Lemma mean_axis0_length n (vs : list vector) :
  Forall (fun v => length v = n) vs -> vs <> [] -> length (mean_axis0 vs) = n.
Proof.
  intros Hall Hne. destruct vs as [|r rs]; [done|].
  inversion Hall as [|?? Hr Hrs]; subst.
  unfold mean_axis0. rewrite length_map.
  by apply (foldl_vadd_nth (length r) 0 rs r).
Qed.

Section ContentFacts.
Variable pickle_loads : bytes -> option vector.

Abbreviation stored := (stored_vector pickle_loads).
Abbreviation resolved := (resolved_vectors pickle_loads).
Abbreviation recommend := (_content_based_recs pickle_loads).

Lemma liked_rows_spec feedback user r :
  r ∈ liked_rows feedback user <->
  r ∈ feedback /\ user_id r = user /\ (4 <= rating r)%Z.
Proof.
  unfold liked_rows. rewrite !list_elem_of_In, filter_In, andb_true_iff.
  rewrite Z.eqb_eq, Z.leb_le. done.
Qed.

(** C9.  The content recommender returns the empty list, without raising,
    for a user with no feedback row of rating at least 4 and for a user
    none of whose liked articles has a stored vector that unpickles.
    Otherwise the vectors it resolves are those of the liked rows that
    have one, the others being skipped, and, these vectors having one
    common length, its answer is the index search for [top_k] neighbours
    of their element-wise mean. *)
Theorem content_based_recs_spec (s : FAISSService) (feedback : list UserFeedback)
    (embs : list FAISSEmbedding) (user : Z) (top_k : Z) :
  ((forall r, r ∈ feedback -> user_id r = user -> (rating r < 4)%Z) ->
     recommend s feedback embs user top_k = Ok []) /\
  ((forall r, r ∈ feedback -> user_id r = user -> (4 <= rating r)%Z ->
              stored embs (article_id r) = None) ->
     recommend s feedback embs user top_k = Ok []) /\
  (forall v, v ∈ resolved feedback embs user <->
     exists r, r ∈ feedback /\ user_id r = user /\ (4 <= rating r)%Z /\
               stored embs (article_id r) = Some v) /\
  (forall n, resolved feedback embs user <> [] ->
     Forall (fun v => length v = n) (resolved feedback embs user) ->
     recommend s feedback embs user top_k
       = search_by_embedding s (mean_axis0 (resolved feedback embs user)) top_k /\
     length (mean_axis0 (resolved feedback embs user)) = n /\
     forall j, j < n ->
       (nth j (mean_axis0 (resolved feedback embs user)) 0
        == column_sum j (resolved feedback embs user)
           / inject_Z (Z.of_nat (length (resolved feedback embs user))))%Q).
Proof.
  assert (Hres : forall v, v ∈ resolved feedback embs user <->
     exists r, r ∈ feedback /\ user_id r = user /\ (4 <= rating r)%Z /\
               stored embs (article_id r) = Some v).
  { intros v. unfold resolved_vectors. rewrite list_elem_of_omap.
    split.
    - intros (r & Hr & Hv). exists r.
      apply liked_rows_spec in Hr as (? & ? & ?). done.
    - intros (r & Hr & Hu & Hrat & Hv). exists r.
      split; [by apply liked_rows_spec|done]. }
  split; [|split; [|split; [done|]]].
  - intros Hnone. unfold _content_based_recs.
    destruct (liked_rows feedback user) as [|r l] eqn:Hl; [done|].
    assert (Hr : r ∈ liked_rows feedback user) by (rewrite Hl; left).
    apply liked_rows_spec in Hr as (Hin & Hu & Hr).
    specialize (Hnone r Hin Hu). lia.
  - intros Hnone. unfold _content_based_recs.
    destruct (liked_rows feedback user) as [|r l] eqn:Hl; [done|].
    destruct (resolved feedback embs user) as [|v vs] eqn:Hv; [done|].
    assert (Hin : v ∈ v :: vs) by left.
    apply Hres in Hin as (r' & Hr' & Hu & Hrat & Hst).
    rewrite Hnone in Hst; done.
  - intros n Hne Hall. split; [|split].
    + unfold _content_based_recs.
      destruct (liked_rows feedback user) as [|r l] eqn:Hl.
      { unfold resolved_vectors in Hne. by rewrite Hl in Hne. }
      destruct (resolved feedback embs user) as [|v vs] eqn:Hv; [done|].
      by rewrite (vstack_uniform n).
    + by apply mean_axis0_length.
    + intros j Hj. by apply (mean_axis0_nth n).
Qed.
End ContentFacts.

(** ** Hybrid ranker *)

Lemma in_list_spec x l : in_list x l = true <-> x ∈ l.
Proof.
  unfold in_list. rewrite existsb_exists, list_elem_of_In. split.
  - intros (y & Hy & ->%Z.eqb_eq). done.
  - intros Hx. exists x. by rewrite Z.eqb_refl.
Qed.

Lemma fused_score_cases content_ids collab_recs aid :
  (fused_score content_ids collab_recs aid
   == (if in_list aid content_ids then 7 # 10 else 0)
      + (if in_list aid collab_recs then 3 # 10 else 0))%Q.
Proof. unfold fused_score. ring. Qed.

Lemma by_score_total score a b : by_score score a b = true \/ by_score score b a = true.
Proof.
  unfold by_score. rewrite !Qle_bool_iff.
  destruct (Qlt_le_dec (score a) (score b)); [right; by apply Qlt_le_weak|by left].
Qed.

Lemma by_score_trans score a b c :
  by_score score a b = true -> by_score score b c = true -> by_score score a c = true.
Proof.
  unfold by_score. rewrite !Qle_bool_iff. intros H1 H2.
  by apply (Qle_trans _ (score b)).
Qed.

Section SetOrderFacts.
Variable set_iter : list Z -> list Z.
Hypothesis set_iter_NoDup : forall l, NoDup (set_iter l).
Hypothesis set_iter_elem_of : forall l x, x ∈ set_iter l <-> x ∈ l.

Abbreviation fuse := (ranked_ids set_iter).

(** The scenario of the specification, for every iteration order of the
    set. *)
Lemma fuse_scenario :
  fuse [(5, 1 # 10); (7, 4 # 10)]%Z [7; 9]%Z 3 = Some [7; 5; 9]%Z.
Proof using set_iter_NoDup set_iter_elem_of.
  unfold ranked_ids. simpl map. simpl app.
  pose proof (set_iter_NoDup [5; 7; 7; 9]%Z) as Hnd.
  assert (Hperm : set_iter [5; 7; 7; 9]%Z ≡ₚ [5; 7; 9]%Z).
  { apply NoDup_Permutation; [done| |].
    - apply (bool_decide_unpack (NoDup [5; 7; 9]%Z)). by vm_compute.
    - intros x. rewrite set_iter_elem_of, !elem_of_cons. tauto. }
  pose proof (Permutation_length Hperm) as Hlen.
  destruct (set_iter [5; 7; 7; 9]%Z) as [|a [|b [|c [|? ?]]]]; try done.
  assert (Ha : a ∈ [5; 7; 9]%Z) by (rewrite <- Hperm; repeat constructor).
  assert (Hb : b ∈ [5; 7; 9]%Z) by (rewrite <- Hperm; repeat constructor).
  assert (Hc : c ∈ [5; 7; 9]%Z) by (rewrite <- Hperm; repeat constructor).
  rewrite !NoDup_cons in Hnd. destruct Hnd as (Hab & Hbc & _).
  rewrite !elem_of_cons in Ha, Hb, Hc.
  destruct Ha as [->|[->|[->|Ha]]]; [| | |by apply elem_of_nil in Ha];
  destruct Hb as [->|[->|[->|Hb]]]; try (by apply elem_of_nil in Hb);
  destruct Hc as [->|[->|[->|Hc]]]; try (by apply elem_of_nil in Hc);
  try (by vm_compute);
  exfalso; first [apply Hab; by repeat constructor|apply Hbc; by repeat constructor].
Qed.

(** C2.  The ranker leaves to the cold-start branch exactly when both
    inputs are empty.  Otherwise it ranks the ids of the union of the two
    inputs, each once, by the fused score (0.7 for membership in the
    content results plus 0.3 for membership in the collaborative results,
    whatever the distances) in non-increasing order, and returns the first
    [k] of them; on the scenario of the specification the ranked list is
    [7, 5, 9]. *)
Theorem ranked_ids_spec (content_recs : list (Z * Q)) (collab_recs : list Z) (k : Z) :
  let content_ids := map fst content_recs in
  let score := fused_score content_ids collab_recs in
  (forall aid,
     (score aid == (if bool_decide (aid ∈ content_ids) then 7 # 10 else 0)
                   + (if bool_decide (aid ∈ collab_recs) then 3 # 10 else 0))%Q) /\
  (fuse content_recs collab_recs k = None <-> content_recs = [] /\ collab_recs = []) /\
  (forall ranked, fuse content_recs collab_recs k = Some ranked ->
     exists order,
       NoDup order /\
       (forall aid, aid ∈ order <-> aid ∈ content_ids \/ aid ∈ collab_recs) /\
       StronglySorted (fun a b => (score b <= score a)%Q) order /\
       ranked = py_take k order /\
       ((0 <= k)%Z -> ranked = take (Z.to_nat k) order)) /\
  (forall content_recs', map fst content_recs' = content_ids ->
     fuse content_recs' collab_recs k = fuse content_recs collab_recs k) /\
  fuse [(5, 1 # 10); (7, 4 # 10)]%Z [7; 9]%Z 3 = Some [7; 5; 9]%Z.
Proof using set_iter_NoDup set_iter_elem_of.
  intros content_ids score. split; [|split; [|split; [|split]]].
  - intros aid. subst score. rewrite fused_score_cases.
    assert (Hb : forall l, in_list aid l = bool_decide (aid ∈ l)).
    { intros l. apply eq_true_iff_eq. rewrite in_list_spec.
      by rewrite bool_decide_eq_true. }
    by rewrite !Hb.
  - unfold ranked_ids. fold content_ids.
    destruct (set_iter (content_ids ++ collab_recs)) as [|x l] eqn:Hset.
    + split; [intros _|done].
      assert (Hnil : content_ids ++ collab_recs = []).
      { destruct (content_ids ++ collab_recs) as [|y l'] eqn:Happ; [done|].
        assert (Hy : y ∈ set_iter (y :: l')) by (apply set_iter_elem_of; left).
        rewrite Hset in Hy. by apply elem_of_nil in Hy. }
      apply app_eq_nil in Hnil as [Hc ->]. split; [|done].
      subst content_ids. by destruct content_recs.
    + split; [done|]. intros [-> ->]. subst content_ids. simpl in Hset.
      assert (Hx : x ∈ set_iter []) by (rewrite Hset; left).
      rewrite set_iter_elem_of in Hx. by apply elem_of_nil in Hx.
  - intros ranked. unfold ranked_ids. fold content_ids. fold score.
    destruct (set_iter (content_ids ++ collab_recs)) as [|x l] eqn:Hset; [done|].
    intros [= <-].
    exists (stable_sort (by_score score) (x :: l)).
    split; [|split; [|split; [|split]]].
    + rewrite stable_sort_perm, <- Hset. apply set_iter_NoDup.
    + intros aid.
      by rewrite stable_sort_elem_of, <- Hset, set_iter_elem_of, elem_of_app.
    + eapply StronglySorted_weaken;
        [|apply (stable_sort_sorted (by_score score));
          [apply by_score_total|apply by_score_trans]].
      intros a b. unfold by_score. by rewrite Qle_bool_iff.
    + done.
    + intros Hk. unfold py_take. by destruct (Z.leb_spec 0 k); [|lia].
  - intros content_recs' Heq. unfold ranked_ids. by rewrite Heq.
  - apply fuse_scenario.
Qed.
End SetOrderFacts.

(** An instance: the set iterates in order of first occurrence. *)
Lemma ranked_ids_spec_witness :
  ranked_ids remove_dups [(5, 1 # 10); (7, 4 # 10)]%Z [7; 9]%Z 3 = Some [7; 5; 9]%Z.
Proof.
  apply (ranked_ids_spec remove_dups NoDup_remove_dups elem_of_remove_dups
           [(5, 1 # 10); (7, 4 # 10)]%Z [7; 9]%Z 3).
Defined.

(** ** Collaborative recommender: similarities *)

Lemma eps_pos : (0 < eps)%R.
Proof. unfold eps. lra. Qed.

Lemma norm_nonneg x : (0 <= norm x)%R.
Proof. apply sqrt_pos. Qed.

Lemma row_norm_pos row target : (0 < norm row * (norm target + eps) + eps)%R.
Proof.
  pose proof (norm_nonneg row). pose proof (norm_nonneg target).
  pose proof eps_pos. nra.
Qed.

Lemma norm_3 : norm [3%R] = 3%R.
Proof. unfold norm, dot. simpl. rewrite Rplus_0_r. apply sqrt_square. lra. Qed.

(** C3, as stated, fails: for a single user who rated a single article
    with 3, the code computes the self-similarity [9 / (9 + 4 eps)], the
    formula of the claim gives [9 / (9 + eps)]. *)
Lemma similarity_differs_from_claim :
  let rows := [mkFeedback 1 1 3] in
  rating_matrix rows = [[3%R]] /\
  target_row rows 1 = Some [3%R] /\
  similarities [[3%R]] [3%R] = [(9 / (9 + 4 * eps))%R] /\
  (9 / (9 + 4 * eps))%R <> claimed_similarity [3%R] [3%R].
Proof.
  split; [reflexivity|]. split; [reflexivity|]. split.
  - unfold similarities, row_norms. simpl. rewrite norm_3. unfold dot. simpl.
    f_equal. unfold eps. field.
  - unfold claimed_similarity. rewrite norm_3. unfold dot. simpl.
    unfold eps. intros H.
    apply (f_equal (fun x => x * (9 + 4 * (1 / 1000000)) * (3 * 3 + 1 / 1000000))%R) in H.
    field_simplify in H. lra.
Qed.

(** C3 (amended).  For every feedback table and target user present in
    it, the similarity of row [u] of the rating matrix to the target row is
    [(u . target) / (|u| * (|target| + eps) + eps)] with [eps = 1e-6]; the
    denominator is positive, so that no division by zero occurs, also for
    all-zero rows. *)
Theorem similarities_spec (rows : list UserFeedback) (user : Z) (target : rvec)
    (i : nat) (u : rvec) :
  target_row rows user = Some target ->
  rating_matrix rows !! i = Some u ->
  similarities (rating_matrix rows) target !! i
    = Some (dot u target / (norm u * (norm target + eps) + eps))%R /\
  (0 < norm u * (norm target + eps) + eps)%R /\
  length (similarities (rating_matrix rows) target) = length (rating_matrix rows).
Proof.
  intros _ Hu. split; [|split].
  - unfold similarities, row_norms.
    rewrite lookup_zip_with, !list_lookup_fmap, Hu. done.
  - apply row_norm_pos.
  - unfold similarities, row_norms. rewrite length_zip_with, !length_map. lia.
Qed.

(** An instance: the self-similarity of a single user with a single
    rating. *)
Lemma similarities_spec_witness :
  similarities (rating_matrix [mkFeedback 1 1 3]) [3%R] !! 0
    = Some (dot [3%R] [3%R] / (norm [3%R] * (norm [3%R] + eps) + eps))%R.
Proof.
  apply (similarities_spec [mkFeedback 1 1 3] 1 [3%R] 0 [3%R]); reflexivity.
Defined.

(** ** Collaborative recommender: ranking *)

Lemma sorted_set_NoDup l : NoDup (sorted_set l).
Proof. unfold sorted_set. rewrite stable_sort_perm. apply NoDup_remove_dups. Qed.

Lemma sorted_set_elem_of x l : x ∈ sorted_set l <-> x ∈ l.
Proof. unfold sorted_set. by rewrite stable_sort_elem_of, elem_of_remove_dups. Qed.

Lemma index_of_Some x l j : index_of x l = Some j -> l !! j = Some x.
Proof.
  revert j. induction l as [|y l IH]; intros j; simpl; [done|].
  destruct (Z.eqb_spec x y) as [->|Hne].
  - by intros [= <-].
  - destruct (index_of x l) as [j'|]; simpl; [|done].
    intros [= <-]. by apply IH.
Qed.

Lemma index_of_elem_of x l : x ∈ l -> exists j, index_of x l = Some j.
Proof.
  induction l as [|y l IH]; simpl; [by intros ?%elem_of_nil|].
  destruct (Z.eqb_spec x y) as [->|Hne]; [eauto|].
  intros [?|Hin]%elem_of_cons; [done|].
  destruct (IH Hin) as [j ->]. simpl. eauto.
Qed.

Lemma zero_rated_length rows user articles sc :
  length (zero_rated rows user articles sc) = length sc.
Proof.
  unfold zero_rated. revert sc. induction rows as [|r rows IH]; intros sc; simpl; [done|].
  rewrite IH. destruct (Z.eqb _ _); [|done].
  destruct (index_of _ _); [|done]. apply length_insert.
Qed.

Lemma nth_insert_zero (sc : rvec) i j :
  nth j sc 0%R = 0%R -> nth j (<[i := 0%R]> sc) 0%R = 0%R.
Proof.
  revert i j. induction sc as [|x sc IH]; intros i j; [done|].
  destruct i, j; simpl; auto.
Qed.

Lemma nth_insert_same_zero (sc : rvec) j : nth j (<[j := 0%R]> sc) 0%R = 0%R.
Proof.
  revert j. induction sc as [|x sc IH]; intros j; [by destruct j|].
  destruct j; simpl; auto.
Qed.

Lemma zero_rated_keeps_zero rows user articles sc j :
  nth j sc 0%R = 0%R -> nth j (zero_rated rows user articles sc) 0%R = 0%R.
Proof.
  unfold zero_rated. revert sc. induction rows as [|r rows IH]; intros sc Hz; simpl; [done|].
  apply IH. destruct (Z.eqb _ _); [|done].
  destruct (index_of _ _); [|done]. by apply nth_insert_zero.
Qed.

(** After the zeroing loop the column of every article the user rated
    holds 0. *)
Lemma zero_rated_zero rows user articles sc r j :
  r ∈ rows -> user_id r = user -> index_of (article_id r) articles = Some j ->
  nth j (zero_rated rows user articles sc) 0%R = 0%R.
Proof.
  intros Hin Hu Hj. revert sc.
  induction Hin as [r rows|r r' rows Hin IH]; intros sc.
  - unfold zero_rated. simpl. rewrite Hu, Z.eqb_refl, Hj.
    apply zero_rated_keeps_zero, nth_insert_same_zero.
  - unfold zero_rated in *. simpl. by apply IH.
Qed.

Lemma StronglySorted_rev {A} (R : A -> A -> Prop) l :
  StronglySorted R l -> StronglySorted (fun a b => R b a) (rev l).
Proof.
  induction 1 as [|x l Hs IH Hall]; simpl; [constructor|].
  apply StronglySorted_app_2; [|done|repeat constructor].
  intros a b Ha Hb. apply list_elem_of_singleton in Hb as ->.
  rewrite Forall_forall in Hall. apply Hall.
  by apply list_elem_of_In, in_rev, list_elem_of_In.
Qed.

(** On a list in non-increasing order of score, keeping the positive
    entries of the first [n] is taking the first [n] positive entries. *)
Lemma filter_take_sorted scores_vec n l :
  StronglySorted (fun i j => (nth j scores_vec 0 <= nth i scores_vec 0)%R) l ->
  List.filter (positive_at scores_vec) (take n l)
  = take n (List.filter (positive_at scores_vec) l).
Proof.
  intros Hs. revert n. induction Hs as [|x l Hs IH Hall]; intros n.
  - by destruct n.
  - destruct n as [|n]; [done|]. simpl.
    destruct (positive_at scores_vec x) eqn:Hx; simpl; [by rewrite IH|].
    assert (Hnone : forall l', (forall y, In y l' -> In y l) ->
                               List.filter (positive_at scores_vec) l' = []).
    { intros l' Hsub. induction l' as [|y l' IH']; [done|]. simpl.
      assert (Hy : positive_at scores_vec y = false).
      { rewrite Forall_forall in Hall.
        specialize (Hall y (proj2 (list_elem_of_In _ _) (Hsub y (or_introl eq_refl)))).
        unfold positive_at in *.
        destruct (Rlt_dec 0 (nth x scores_vec 0%R)); [done|].
        destruct (Rlt_dec 0 (nth y scores_vec 0%R)); [lra|done]. }
      rewrite Hy. apply IH'. intros z Hz. apply Hsub. by right. }
    rewrite (Hnone l) by done. rewrite take_nil.
    apply Hnone. intros y Hy. apply list_elem_of_In.
    apply list_elem_of_In in Hy. apply elem_of_take in Hy as (i & Hi & _).
    by eapply list_elem_of_lookup_2.
Qed.

Lemma omap_filter_lookup (articles : list Z) scores_vec l :
  omap (fun i => if Rlt_dec 0 (nth i scores_vec 0%R) then articles !! i else None) l
  = omap (fun i => articles !! i) (List.filter (positive_at scores_vec) l).
Proof.
  induction l as [|i l IH]; [done|]. csimpl. unfold positive_at at 1.
  destruct (Rlt_dec 0 (nth i scores_vec 0%R)); csimpl; by rewrite IH.
Qed.

Lemma rating_matrix_row_length rows :
  Forall (fun row => length row = length (articles_of rows)) (rating_matrix rows).
Proof.
  unfold rating_matrix.
  generalize (users_of rows) as users. generalize (articles_of rows) as articles.
  intros articles users.
  assert (Hinit : Forall (fun row : rvec => length row = length articles)
                         (repeat (repeat 0%R (length articles)) (length users))).
  { apply Forall_forall. intros row Hrow.
    apply list_elem_of_In, repeat_spec in Hrow as ->. apply repeat_length. }
  revert Hinit. generalize (repeat (repeat 0%R (length articles)) (length users)) as matrix.
  generalize rows at 1 as todo.
  induction todo as [|r todo IH]; intros matrix Hm; simpl; [done|].
  apply IH. destruct (index_of (user_id r) users); [|done].
  destruct (index_of (article_id r) articles); [|done].
  unfold set_cell. apply Forall_alter; [done|].
  intros row _ Hrow. cbv beta. by etrans; [apply length_insert|].
Qed.

Lemma weighted_scores_length n sims matrix :
  Forall (fun row : rvec => length row = n) matrix ->
  length (weighted_scores sims matrix n) = n.
Proof.
  unfold weighted_scores. revert sims.
  induction matrix as [|row matrix IH]; intros sims Hall.
  - destruct sims; simpl; apply repeat_length.
  - destruct sims as [|x sims]; simpl; [apply repeat_length|].
    inversion Hall as [|?? Hrow Hrest]; subst.
    rewrite length_zip_with, length_map.
    change (zip_with pair sims matrix) with (zip sims matrix).
    rewrite IH by done. lia.
Qed.

Lemma scores_of_length rows user target :
  length (scores_of rows user target) = length (articles_of rows).
Proof.
  unfold scores_of. rewrite zero_rated_length.
  apply weighted_scores_length, rating_matrix_row_length.
Qed.

Lemma target_row_nonempty rows user target :
  target_row rows user = Some target -> rows <> [].
Proof. by intros H ->. Qed.

Section ArgsortFacts.
Variable argsort : list R -> list nat.
Hypothesis argsort_perm : forall v, Permutation (argsort v) (seq 0 (length v)).
Hypothesis argsort_sorted : forall v,
  StronglySorted (fun i j => (nth i v 0 <= nth j v 0)%R) (argsort v).

Abbreviation recommend_collab := (_collaborative_recs argsort).

Lemma collaborative_recs_unfold rows user k target :
  target_row rows user = Some target ->
  recommend_collab rows user k
  = omap (fun i => articles_of rows !! i)
      (List.filter (positive_at (scores_of rows user target))
         (py_take k (rev (argsort (scores_of rows user target))))).
Proof.
  intros Ht. unfold _collaborative_recs. rewrite Ht.
  destruct rows as [|r rows]; [done|]. apply omap_filter_lookup.
Qed.

Lemma collaborative_recs_empty rows user k :
  target_row rows user = None -> recommend_collab rows user k = [].
Proof. intros Ht. unfold _collaborative_recs. rewrite Ht. by destruct rows. Qed.

(** C4.  The collaborative recommender never returns an article for which
    the target user has a feedback row.  When the user occurs in the
    feedback, the columns are ranked by non-increasing score, and for a
    non-negative [k] the result consists of the article ids of the first
    [k] columns of that ranking whose score is positive, in that order:
    at most [k] ids, every one with a positive score, and none of the
    columns with score at most 0, even if fewer than [k] remain.  Without
    feedback from the user the result is empty. *)
Theorem collaborative_recs_spec (rows : list UserFeedback) (user : Z) (k : Z) :
  let recs := recommend_collab rows user k in
  (forall a, a ∈ recs ->
     ~ exists r, r ∈ rows /\ user_id r = user /\ article_id r = a) /\
  (target_row rows user = None -> recs = []) /\
  (forall target, target_row rows user = Some target ->
     let scores_vec := scores_of rows user target in
     let ranking := rev (argsort scores_vec) in
     Permutation ranking (seq 0 (length (articles_of rows))) /\
     StronglySorted (fun i j => (nth j scores_vec 0 <= nth i scores_vec 0)%R) ranking /\
     (forall a, a ∈ recs ->
        exists i, articles_of rows !! i = Some a /\ (0 < nth i scores_vec 0)%R) /\
     ((0 <= k)%Z ->
        recs = omap (fun i => articles_of rows !! i)
                 (take (Z.to_nat k) (List.filter (positive_at scores_vec) ranking)) /\
        length recs <= Z.to_nat k)).
Proof using argsort_perm argsort_sorted.
  intros recs.
  assert (Hpos : forall target a, target_row rows user = Some target ->
            a ∈ recs ->
            exists i, articles_of rows !! i = Some a /\
                      (0 < nth i (scores_of rows user target) 0)%R).
  { intros target a Ht Ha. subst recs.
    rewrite (collaborative_recs_unfold _ _ _ _ Ht) in Ha.
    apply list_elem_of_omap in Ha as (i & Hi & Hai).
    exists i. split; [done|].
    apply list_elem_of_In, filter_In in Hi as [_ Hi].
    unfold positive_at in Hi. by destruct (Rlt_dec _ _). }
  split; [|split].
  - intros a Ha (r & Hr & Hu & Hart).
    destruct (target_row rows user) as [target|] eqn:Ht.
    + destruct (Hpos target a eq_refl Ha) as (i & Hi & Hsc).
      assert (Hin : article_id r ∈ articles_of rows).
      { apply sorted_set_elem_of, list_elem_of_In, in_map. by apply list_elem_of_In. }
      apply index_of_elem_of in Hin as [j Hj].
      pose proof (index_of_Some _ _ _ Hj) as Hlook. rewrite Hart in Hlook.
      assert (i = j) as ->
        by (eapply NoDup_lookup; [apply sorted_set_NoDup|exact Hi|exact Hlook]).
      pose proof (zero_rated_zero rows user (articles_of rows)
                    (weighted_scores (similarities (rating_matrix rows) target)
                       (rating_matrix rows) (length (articles_of rows)))
                    r j Hr Hu Hj) as Hz.
      unfold scores_of in Hsc. lra.
    + subst recs. rewrite collaborative_recs_empty in Ha by done.
      by apply elem_of_nil in Ha.
  - apply collaborative_recs_empty.
  - intros target Ht scores_vec ranking.
    assert (Hsorted : StronglySorted
              (fun i j => (nth j scores_vec 0 <= nth i scores_vec 0)%R) ranking)
      by apply StronglySorted_rev, argsort_sorted.
    split; [|split; [done|split; [intros a Ha; by apply (Hpos target)|]]].
    + subst ranking. rewrite <- Permutation_rev, argsort_perm.
      subst scores_vec. by rewrite scores_of_length.
    + intros Hk. subst recs. rewrite (collaborative_recs_unfold _ _ _ _ Ht).
      fold scores_vec. fold ranking.
      unfold py_take. destruct (Z.leb_spec 0 k); [|lia].
      rewrite filter_take_sorted by done. split; [done|].
      etrans; [apply length_omap_le|]. rewrite length_take. lia.
Qed.
End ArgsortFacts.

Lemma real_argsort_perm v : Permutation (real_argsort v) (seq 0 (length v)).
Proof. apply stable_sort_perm. Qed.

Lemma real_argsort_sorted v :
  StronglySorted (fun i j => (nth i v 0 <= nth j v 0)%R) (real_argsort v).
Proof.
  eapply StronglySorted_weaken; [|apply (stable_sort_sorted (real_leb_at v))].
  - intros i j. unfold real_leb_at. by destruct (Rle_dec _ _).
  - intros i j. unfold real_leb_at.
    destruct (Rle_dec (nth i v 0%R) (nth j v 0%R)); [by left|].
    destruct (Rle_dec (nth j v 0%R) (nth i v 0%R)); [by right|lra].
  - intros a b c. unfold real_leb_at.
    destruct (Rle_dec (nth a v 0%R) (nth b v 0%R)); [|done].
    destruct (Rle_dec (nth b v 0%R) (nth c v 0%R)); [|done].
    destruct (Rle_dec (nth a v 0%R) (nth c v 0%R)); [done|lra].
Qed.

(** An instance: user 1 rated article 10, user 2 rated articles 10 and 20;
    whatever is recommended to user 1, it is not article 10. *)
Lemma collaborative_recs_spec_witness :
  Forall (fun a => a <> 10%Z)
    (_collaborative_recs real_argsort
       [mkFeedback 1 10 5; mkFeedback 2 10 4; mkFeedback 2 20 5] 1 3).
Proof.
  apply Forall_forall. intros a Ha ->.
  destruct (collaborative_recs_spec real_argsort real_argsort_perm real_argsort_sorted
              [mkFeedback 1 10 5; mkFeedback 2 10 4; mkFeedback 2 20 5] 1 3)
    as (Hnot & _).
  apply (Hnot 10%Z Ha). exists (mkFeedback 1 10 5).
  split; [left|]. split; reflexivity.
Defined.

(** * Further properties *)

(** ** Invariants of the vector index *)

Lemma size_of_slots (m : gmap Z Z) (n : nat) :
  (forall z, is_Some (m !! z) <-> (0 <= z < Z.of_nat n)%Z) -> size m = n.
Proof.
  intros Hm.
  assert (Hdom : dom m = list_to_set (Z.of_nat <$> seq 0 n)).
  { apply set_eq. intros z. rewrite elem_of_dom, Hm, elem_of_list_to_set,
      list_elem_of_fmap. split.
    - intros Hz. exists (Z.to_nat z). split; [lia|]. apply elem_of_seq. lia.
    - intros (i & -> & Hi%elem_of_seq). lia. }
  rewrite <- size_dom, Hdom, size_list_to_set, length_fmap, length_seq; [done|].
  apply NoDup_fmap; [apply _|apply NoDup_seq].
Qed.

Lemma index_invariant_init dim : index_invariant (init dim).
Proof.
  split; [done|]. split; [constructor|].
  intros z. simpl. rewrite lookup_empty. unfold Faiss.ntotal. simpl.
  split; [by intros [? ?]|lia].
Qed.

Lemma index_invariant_add s (embeddings : list vector) (article_ids : list Z) :
  index_invariant s -> index_invariant (fst (add_embeddings s embeddings article_ids)).
Proof.
  intros Hinv. pose proof Hinv as (Hd & Hall & Hm). unfold add_embeddings.
  destruct (Nat.eqb_spec (length embeddings) (length article_ids)) as [Hlen|];
    cbn [negb]; [|done].
  unfold Faiss.add. destruct (forallb _ _) eqn:Hb; [|done].
  unfold index_invariant. cbn [fst index article_id_map dimension Faiss.d Faiss.xb].
  split; [done|]. split.
  - apply Forall_app. split; [done|].
    apply Forall_forall. intros v Hv. rewrite forallb_forall in Hb.
    apply list_elem_of_In, Hb, Nat.eqb_eq in Hv. by rewrite <- Hd.
  - intros z. rewrite record_ids_lookup. unfold Faiss.ntotal in *.
    cbn [Faiss.xb]. rewrite length_app. case_decide as Hz.
    + split; [lia|]. intros _. apply lookup_lt_is_Some. lia.
    + rewrite Hm. lia.
Qed.

Lemma index_invariant_add_single s (embedding : vector) (article_id : Z) :
  index_invariant s -> index_invariant (fst (add_single_embedding s embedding article_id)).
Proof.
  intros Hinv. pose proof Hinv as (Hd & Hall & Hm). unfold add_single_embedding.
  unfold reshape_row. cbv zeta.
  unfold Faiss.add. cbn [forallb]. rewrite andb_true_r.
  destruct (Nat.eqb_spec (length embedding) (Faiss.d (index s))) as [Hlen|]; [|done].
  unfold index_invariant. cbn [fst index article_id_map dimension Faiss.d Faiss.xb].
  split; [done|]. split.
  - apply Forall_app. split; [done|]. constructor; [by rewrite <- Hd|constructor].
  - intros z. unfold Faiss.ntotal in *. cbn [Faiss.xb]. rewrite length_app.
    cbn [length].
    destruct (decide (z = Z.of_nat (length (Faiss.xb (index s))))) as [->|Hne].
    + rewrite lookup_insert_eq. split; [lia|eauto].
    + rewrite lookup_insert_ne by done. rewrite Hm. lia.
Qed.

Lemma index_invariant_rebuild pickle_loads s rows :
  index_invariant (fst (rebuild_from_embeddings pickle_loads s rows)).
Proof.
  assert (Hempty : index_invariant (mkService (Faiss.new (dimension s)) ∅ (dimension s))).
  { apply (index_invariant_init (dimension s)). }
  unfold rebuild_from_embeddings. destruct rows as [|r rows]; [done|].
  destruct (map snd _) as [|v vs] eqn:Hvs; [done|].
  destruct (vstack _) as [matrix|] eqn:Hstack; [|done].
  assert (matrix = v :: vs) as ->.
  { unfold vstack in Hstack. by destruct (forallb _ _); simplify_eq. }
  unfold Faiss.add. cbn [index Faiss.d Faiss.xb Faiss.new _initialize_index].
  destruct (forallb _ _) eqn:Hb; [|done].
  unfold index_invariant. cbn [fst index article_id_map dimension Faiss.d Faiss.xb].
  split; [done|]. split.
  - apply Forall_forall. intros w Hw. rewrite forallb_forall in Hb.
    by apply list_elem_of_In, Hb, Nat.eqb_eq in Hw.
  - intros z. rewrite record_ids_lookup, lookup_empty. unfold Faiss.ntotal.
    cbn [Faiss.xb app]. assert (Hlen : length (map fst (omap (decode_row pickle_loads) (r :: rows)))
                   = S (length vs)).
    { rewrite length_map, <- (length_map snd), Hvs. done. }
    rewrite Hlen. cbn [length]. case_decide as Hz.
    + split; [lia|]. intros _. apply lookup_lt_is_Some. rewrite Hlen. lia.
    + split; [by intros [? ?]|lia].
Qed.

(** X1.  Every service reached from [__init__] by insertions (accepted or
    refused) and rebuilds (successful or failed) keeps the invariants of
    the index: its FAISS index and every stored vector have the configured
    dimension, the keys of the mapping are exactly the slots
    [0 .. ntotal - 1], and therefore the statistics report as many indexed
    articles as vectors. *)
Theorem reachable_invariant (pickle_loads : bytes -> option vector) (s : FAISSService) :
  reachable pickle_loads s ->
  index_invariant s /\
  Z.of_nat (articles_indexed (get_index_stats s)) = total_vectors (get_index_stats s).
Proof.
  intros Hr.
  assert (Hinv : index_invariant s).
  { induction Hr.
    - apply index_invariant_init.
    - by apply index_invariant_add.
    - by apply index_invariant_add_single.
    - apply index_invariant_rebuild. }
  split; [done|]. destruct Hinv as (_ & _ & Hm).
  simpl. unfold Faiss.ntotal in *. f_equal. by apply size_of_slots.
Qed.

Lemma reachable_invariant_witness :
  Z.of_nat (articles_indexed (get_index_stats example_index))
  = total_vectors (get_index_stats example_index).
Proof.
  apply (reachable_invariant toy_pickle_loads example_index).
  unfold example_index. apply reach_add, reach_init.
Defined.

(** ** Insertion and search together *)



Lemma search_by_embedding_collect s q k res :
  search_by_embedding s q k = Ok res ->
  res = collect_results (article_id_map s) (nearest_hits s q k).
Proof.
  intros Hres. destruct (decide (Faiss.ntotal (index s) = 0%Z)) as [Hn|Hn].
  - unfold search_by_embedding in Hres. rewrite Hn in Hres. simpl in Hres.
    injection Hres as <-. unfold nearest_hits, Faiss.distances.
    unfold Faiss.ntotal in Hn.
    destruct (Faiss.xb (index s)); [|simpl in Hn; lia].
    simpl. by rewrite take_nil.
  - by apply search_by_embedding_inv in Hres as (-> & _).
Qed.

(** Under the invariant every hit has a mapping entry. *)
Lemma nearest_hits_mapped s q k h :
  index_invariant s -> h ∈ nearest_hits s q k ->
  exists i v aid, h = (sqdist q v, Z.of_nat i) /\
                  Faiss.xb (index s) !! i = Some v /\
                  article_id_map s !! Z.of_nat i = Some aid.
Proof.
  intros (_ & _ & Hm) Hh. unfold nearest_hits in Hh.
  apply elem_of_take in Hh as (j & Hj & _).
  apply list_elem_of_lookup_2, stable_sort_elem_of in Hj.
  apply elem_of_lookup_imap in Hj as (i & v & -> & Hv).
  destruct (proj2 (Hm (Z.of_nat i))) as [aid Haid].
  { apply lookup_lt_Some in Hv. unfold Faiss.ntotal. lia. }
  eauto 6.
Qed.

Lemma collect_results_all s q k :
  index_invariant s ->
  length (collect_results (article_id_map s) (nearest_hits s q k))
  = Z.to_nat (Z.min k (Faiss.ntotal (index s))).
Proof.
  intros Hinv. rewrite <- (nearest_hits_length s q k).
  pose proof (collect_results_length (article_id_map s) (nearest_hits s q k)) as Hlen.
  enough (List.filter (unmapped (article_id_map s)) (nearest_hits s q k) = [])
    as Hnil by (rewrite Hnil in Hlen; simpl in Hlen; lia).
  destruct (List.filter _ _) as [|h l] eqn:Hf; [done|].
  assert (Hin : In h (List.filter (unmapped (article_id_map s)) (nearest_hits s q k)))
    by (rewrite Hf; left; done).
  apply filter_In in Hin as [Hin Hun]. apply list_elem_of_In in Hin.
  destruct (nearest_hits_mapped s q k h Hinv Hin) as (i & v & aid & -> & _ & Haid).
  unfold unmapped in Hun. simpl in Hun. by rewrite Haid in Hun.
Qed.

(** X2.  On a service that satisfies the index invariant, and for a query
    from which no stored vector is so far that its distance leaves the
    range of [float32] (the squared distances stay below half of
    [FLT_MAX], so that FAISS reports every row), a search that returns
    yields exactly [min(k, total_count)] results, and when
    [k >= total_count] the article of every slot is among them. *)
Theorem search_returns_exactly (s : FAISSService) (q : vector) (k : Z)
    (res : list (Z * Q)) :
  index_invariant s ->
  Forall (fun v => (2 * sqdist q v <= Faiss.FLT_MAX)%Q) (Faiss.xb (index s)) ->
  search_by_embedding s q k = Ok res ->
  length res = Z.to_nat (Z.min k (Faiss.ntotal (index s))) /\
  ((Faiss.ntotal (index s) <= k)%Z ->
   forall slot aid, article_id_map s !! slot = Some aid -> aid ∈ map fst res).
Proof.
  intros Hinv _ Hres. apply search_by_embedding_collect in Hres as ->.
  split; [by apply collect_results_all|].
  intros Hk slot aid Haid.
  destruct Hinv as (Hd & Hall & Hm).
  assert (Hslot : (0 <= slot < Faiss.ntotal (index s))%Z) by (apply Hm; eauto).
  unfold Faiss.ntotal in Hslot.
  destruct (lookup_lt_is_Some_2 (Faiss.xb (index s)) (Z.to_nat slot)) as [v Hv]; [lia|].
  apply list_elem_of_In, in_map_iff. exists (aid, sqdist q v). split; [done|].
  apply list_elem_of_In, list_elem_of_omap.
  exists (sqdist q v, slot). split; [|simpl; by rewrite Haid].
  unfold nearest_hits. rewrite take_ge.
  - apply stable_sort_elem_of.
    replace slot with (Z.of_nat (Z.to_nat slot)) by lia.
    by apply (elem_of_lookup_imap_2 (fun i v => (sqdist q v, Z.of_nat i))).
  - rewrite stable_sort_length, distances_length. unfold Faiss.ntotal in *. lia.
Qed.

Lemma search_returns_exactly_witness :
  length [(10%Z, 0%Q); (30%Z, 4%Q)]
  = Z.to_nat (Z.min 2 (Faiss.ntotal (index example_index))).
Proof.
  apply (search_returns_exactly example_index [1; 2]%Q 2 [(10%Z, 0%Q); (30%Z, 4%Q)]).
  - apply index_invariant_add, index_invariant_init.
  - repeat constructor; by vm_compute.
  - reflexivity.
Defined.

Lemma add_embeddings_ok s (embeddings : list vector) (article_ids : list Z) :
  length embeddings = length article_ids ->
  Forall (fun v => length v = Faiss.d (index s)) embeddings ->
  add_embeddings s embeddings article_ids
  = (mkService (Faiss.mkIndex (Faiss.d (index s)) (Faiss.xb (index s) ++ embeddings))
               (record_ids (Faiss.ntotal (index s)) article_ids (article_id_map s))
               (dimension s),
     Ok tt).
Proof.
  intros Hlen Hall. unfold add_embeddings.
  destruct (Nat.eqb_spec (length embeddings) (length article_ids)); [|done].
  cbn [negb]. by rewrite faiss_add_accepts.
Qed.

(** X3.  An accepted insertion appends the vectors in order, gives the
    [i]-th of them the slot [ntotal + i] mapped to the [i]-th article id,
    leaves every other mapping entry and the configured dimension as they
    were, and grows the count by the number of vectors. *)
Theorem add_embeddings_appends (s : FAISSService) (embeddings : list vector)
    (article_ids : list Z) :
  length embeddings = length article_ids ->
  Forall (fun v => length v = Faiss.d (index s)) embeddings ->
  let s' := fst (add_embeddings s embeddings article_ids) in
  snd (add_embeddings s embeddings article_ids) = Ok tt /\
  Faiss.xb (index s') = Faiss.xb (index s) ++ embeddings /\
  Faiss.d (index s') = Faiss.d (index s) /\
  dimension s' = dimension s /\
  (forall i : nat, i < length article_ids ->
     article_id_map s' !! (Faiss.ntotal (index s) + Z.of_nat i)%Z = article_ids !! i) /\
  (forall z, ~ (Faiss.ntotal (index s) <= z
                < Faiss.ntotal (index s) + Z.of_nat (length article_ids))%Z ->
     article_id_map s' !! z = article_id_map s !! z) /\
  total_vectors (get_index_stats s')
  = (total_vectors (get_index_stats s) + Z.of_nat (length embeddings))%Z.
Proof.
  intros Hlen Hall s'. subst s'. rewrite add_embeddings_ok by done.
  cbn [fst snd index article_id_map dimension Faiss.xb Faiss.d].
  repeat split.
  - intros i Hi. rewrite record_ids_lookup. case_decide; [|lia]. f_equal. lia.
  - intros z Hz. rewrite record_ids_lookup. by case_decide.
  - simpl. unfold Faiss.ntotal. simpl. rewrite length_app. lia.
Qed.

Lemma add_embeddings_appends_witness :
  article_id_map example_index !! 2%Z = Some 30%Z.
Proof.
  destruct (add_embeddings_appends (init 2) [[1; 2]; [0; 0]; [3; 2]]%Q [10; 20; 30]%Z)
    as (_ & _ & _ & _ & H & _).
  - reflexivity.
  - repeat constructor.
  - apply (H 2). simpl. lia.
Defined.

(** X4.  Inserting one vector with [add_single_embedding] is the insertion
    of the one-row batch with [add_embeddings]. *)
Theorem add_single_embedding_as_batch (s : FAISSService) (embedding : vector)
    (article_id : Z) :
  embedding <> [] ->
  add_single_embedding s embedding article_id
  = add_embeddings s [embedding] [article_id].
Proof.
  intros Hne. unfold add_single_embedding, add_embeddings.
  destruct embedding as [|x v]; [done|]. cbn [reshape_row length Nat.eqb negb].
  assert (Hrec : record_ids (Faiss.ntotal (index s)) [article_id] (article_id_map s)
                 = <[Faiss.ntotal (index s) := article_id]> (article_id_map s)).
  { unfold record_ids, enumerate. simpl. by rewrite Z.add_0_r. }
  by rewrite Hrec.
Qed.

Lemma add_single_embedding_as_batch_witness :
  add_single_embedding (init 2) [1; 2]%Q 10 = add_embeddings (init 2) [[1; 2]]%Q [10%Z].
Proof. apply add_single_embedding_as_batch. discriminate. Defined.




(** X6.  A rebuild in which some decoded vector has another length than
    the configured dimension raises, whatever the other rows are, and
    leaves the service with an empty index and an empty mapping. *)
Theorem rebuild_rejects_foreign_rows (pickle_loads : bytes -> option vector)
    (s : FAISSService) (rows : list (Z * bytes)) :
  Exists (fun p => length (snd p) <> dimension s) (omap (decode_row pickle_loads) rows) ->
  (exists e, rebuild_from_embeddings pickle_loads s rows = (init (dimension s), Raise e)) /\
  total_vectors (get_index_stats (fst (rebuild_from_embeddings pickle_loads s rows))) = 0%Z.
Proof.
  intros Hex.
  assert (Hraise : exists e, rebuild_from_embeddings pickle_loads s rows
                             = (init (dimension s), Raise e)).
  { unfold rebuild_from_embeddings, init.
    destruct rows as [|r rows]; [by apply Exists_nil in Hex|].
    destruct (omap (decode_row pickle_loads) (r :: rows)) as [|p dec] eqn:Hdec;
      [by apply Exists_nil in Hex|].
    cbn [map]. destruct (vstack _) as [matrix|e] eqn:Hstack; [|eauto].
    assert (matrix = snd p :: map snd dec) as ->.
    { unfold vstack in Hstack. by destruct (forallb _ _); simplify_eq. }
    rewrite faiss_add_rejects; [eauto|].
    change (snd p :: map snd dec) with (map snd (p :: dec)).
    apply Exists_fmap. eapply Exists_impl; [exact Hex|]. done. }
  split; [done|]. by destruct Hraise as [e ->].
Qed.

Lemma rebuild_rejects_foreign_rows_witness :
  total_vectors (get_index_stats (fst (rebuild_from_embeddings toy_pickle_loads example_index
    [(11%Z, [Byte.x80; Byte.x01; Byte.x02]);
     (12%Z, [Byte.x80; Byte.x01; Byte.x02; Byte.x03])]))) = 0%Z.
Proof.
  apply (rebuild_rejects_foreign_rows toy_pickle_loads example_index).
  right. left. simpl. lia.
Defined.

(** ** In-memory snapshots and startup *)

Section StartupFacts.
Variable serialize_index : Faiss.IndexFlatL2 -> bytes.
Variable deserialize_index : bytes -> option Faiss.IndexFlatL2.
Variable pickle_dump : snapshot_dict -> bytes.
Variable pickle_load : bytes -> option snapshot_dict.
Variable pickle_loads : bytes -> option vector.

Abbreviation file_save := (save_index serialize_index pickle_dump).
Abbreviation file_load := (load_index deserialize_index pickle_load).
Abbreviation bytes_save := (save_to_bytes serialize_index pickle_dump).
Abbreviation bytes_load := (load_from_bytes deserialize_index pickle_load).
Abbreviation startup :=
  (_load_faiss_index serialize_index deserialize_index pickle_dump pickle_load pickle_loads).
Abbreviation rebuild_rows := (rebuild_from_embeddings pickle_loads).

Lemma load_index_as_bytes s (fs : gmap string bytes) path content :
  fs !! path = Some content -> file_load s fs path = bytes_load s content.
Proof. intros Hf. unfold load_index, load_from_bytes. by rewrite Hf. Qed.

Lemma load_from_bytes_dimension s data : dimension (fst (bytes_load s data)) = dimension s.
Proof.
  unfold load_from_bytes. destruct (pickle_load data) as [dict|]; [|done].
  destruct (entry_index dict) as [blob|]; [|done].
  destruct (deserialize_index blob); [|done].
  by destruct (entry_article_id_map dict).
Qed.

Lemma load_index_dimension s (fs : gmap string bytes) path :
  dimension (fst (file_load s fs path)) = dimension s.
Proof.
  destruct (fs !! path) as [content|] eqn:Hf.
  - rewrite (load_index_as_bytes _ _ _ _ Hf). apply load_from_bytes_dimension.
  - unfold load_index. by rewrite Hf.
Qed.

(** X7.  [save_to_bytes] followed by [load_from_bytes] into any service
    succeeds (the two libraries reading back what they wrote), restores
    the saved index and mapping, and keeps the configured dimension of the
    receiving service, whatever the dimension of the snapshot; and
    [load_index] does with a file exactly what [load_from_bytes] does with
    its content, [save_index] writing the bytes of [save_to_bytes]. *)
Theorem bytes_roundtrip (s s2 : FAISSService) :
  deserialize_index (serialize_index (index s)) = Some (index s) ->
  pickle_load (pickle_dump (mkSnapshot (Some (serialize_index (index s)))
                                       (Some (article_id_map s))))
    = Some (mkSnapshot (Some (serialize_index (index s))) (Some (article_id_map s))) ->
  bytes_load s2 (bytes_save s)
    = (mkService (index s) (article_id_map s) (dimension s2), Ok tt) /\
  (forall (fs : gmap string bytes) path,
     file_save s fs path !! path = Some (bytes_save s)) /\
  (forall (fs : gmap string bytes) path content,
     fs !! path = Some content -> file_load s2 fs path = bytes_load s2 content).
Proof.
  intros Hfaiss Hpickle. split; [|split].
  - unfold load_from_bytes, save_to_bytes. rewrite Hpickle. simpl. by rewrite Hfaiss.
  - intros fs path. unfold save_index. apply lookup_insert_eq.
  - intros fs path content. apply load_index_as_bytes.
Qed.

Lemma rebuild_fallback_state s (fs : gmap string bytes) pe path rows :
  fst (rebuild_fallback serialize_index pickle_dump pickle_loads s fs pe path rows)
  = fst (rebuild_rows s rows).
Proof.
  unfold rebuild_fallback. destruct (rebuild_rows s rows) as [s' [[]|e]]; done.
Qed.

(** X8.  Startup.  When the snapshot file is present and loads, the loaded
    service is kept as it is: the stored rows are not consulted and nothing
    is written.  When the file is absent or loading it raises, the service
    ends as the rebuild from the stored rows leaves it, whatever the failed
    load had already replaced, and it satisfies the index invariant. *)
Theorem load_faiss_index_outcome (s : FAISSService) (fs : gmap string bytes)
    (parent_exists : bool) (path : string) (rows : list (Z * bytes)) :
  (forall s', is_Some (fs !! path) -> file_load s fs path = (s', Ok tt) ->
     startup s fs parent_exists path rows = (s', fs)) /\
  (fs !! path = None \/ (exists e, snd (file_load s fs path) = Raise e) ->
     fst (startup s fs parent_exists path rows) = fst (rebuild_rows s rows) /\
     index_invariant (fst (startup s fs parent_exists path rows))).
Proof.
  split.
  - intros s' [content Hf] Hload. unfold _load_faiss_index. by rewrite Hf, Hload.
  - intros Hfail.
    assert (Hst : fst (startup s fs parent_exists path rows) = fst (rebuild_rows s rows)).
    { unfold _load_faiss_index.
      destruct (fs !! path) as [content|] eqn:Hf; [|apply rebuild_fallback_state].
      destruct Hfail as [|[e He]]; [done|].
      pose proof (load_index_dimension s fs path) as Hdim.
      destruct (file_load s fs path) as [s' [[]|e']]; [done|].
      rewrite rebuild_fallback_state. f_equal. by apply rebuild_discards. }
    split; [done|]. rewrite Hst. apply index_invariant_rebuild.
Qed.

(** X9.  Restart after a fallback.  When no snapshot exists, its directory
    does, and the rebuild succeeds, startup persists the rebuilt service;
    the next startup, from any service with the same configured dimension,
    then loads exactly that service from the snapshot (the libraries
    reading back what they wrote), leaves the file system as it is, and
    does not depend on the rows stored by then. *)
Theorem startup_then_restart (s : FAISSService) (fs : gmap string bytes)
    (path : string) (rows : list (Z * bytes)) :
  let s1 := fst (rebuild_rows s rows) in
  let out := startup s fs true path rows in
  fs !! path = None ->
  snd (rebuild_rows s rows) = Ok tt ->
  deserialize_index (serialize_index (index s1)) = Some (index s1) ->
  pickle_load (pickle_dump (mkSnapshot (Some (serialize_index (index s1)))
                                       (Some (article_id_map s1))))
    = Some (mkSnapshot (Some (serialize_index (index s1))) (Some (article_id_map s1))) ->
  fst out = s1 /\
  snd out = file_save s1 fs path /\
  forall s2 parent_exists rows2, dimension s2 = dimension s ->
    startup s2 (snd out) parent_exists path rows2 = (s1, snd out).
Proof.
  intros s1 out Hnone Hok Hfaiss Hpickle.
  assert (Hout : out = (s1, file_save s1 fs path)).
  { subst out s1. unfold _load_faiss_index, rebuild_fallback, _persist_faiss_index.
    rewrite Hnone. destruct (rebuild_rows s rows) as [s' r]. simpl in Hok. by subst r. }
  rewrite Hout. cbn [fst snd]. split; [done|]. split; [done|].
  intros s2 pe rows2 Hdim. unfold _load_faiss_index.
  assert (Hfile : file_save s1 fs path !! path = Some (bytes_save s1))
    by (unfold save_index; apply lookup_insert_eq).
  rewrite Hfile, (load_index_as_bytes _ _ _ _ Hfile).
  unfold load_from_bytes, save_to_bytes. rewrite Hpickle. cbn [entry_index entry_article_id_map].
  rewrite Hfaiss. f_equal. rewrite Hdim.
  subst s1. rewrite <- (rebuild_dimension pickle_loads s rows).
  by destruct (fst (rebuild_rows s rows)).
Qed.
End StartupFacts.

Lemma load_faiss_index_outcome_witness :
  fst (_load_faiss_index toy_serialize_index toy_deserialize_index toy_pickle_dump
         toy_pickle_load toy_pickle_loads gapped_index ∅ true "faiss_index.pkl"
         [(11%Z, [Byte.x80; Byte.x01; Byte.x02])])
  = fst (rebuild_from_embeddings toy_pickle_loads gapped_index
           [(11%Z, [Byte.x80; Byte.x01; Byte.x02])]).
Proof.
  apply (load_faiss_index_outcome toy_serialize_index toy_deserialize_index
           toy_pickle_dump toy_pickle_load toy_pickle_loads).
  left. reflexivity.
Defined.

Lemma bytes_roundtrip_witness :
  load_from_bytes toy_deserialize_index toy_pickle_load (init 5)
    (save_to_bytes toy_serialize_index toy_pickle_dump example_index)
  = (mkService (index example_index) (article_id_map example_index) 5, Ok tt).
Proof.
  apply (bytes_roundtrip toy_serialize_index toy_deserialize_index toy_pickle_dump
           toy_pickle_load example_index (init 5)); vm_compute; reflexivity.
Defined.

Lemma startup_then_restart_witness :
  let rows := [(11%Z, [Byte.x80; Byte.x01; Byte.x02]); (13%Z, [Byte.x80; Byte.x03; Byte.x04])] in
  let out := _load_faiss_index toy_serialize_index toy_deserialize_index toy_pickle_dump
               toy_pickle_load toy_pickle_loads (init 2) ∅ true "faiss_index.pkl" rows in
  _load_faiss_index toy_serialize_index toy_deserialize_index toy_pickle_dump
    toy_pickle_load toy_pickle_loads (init 2) (snd out) false "faiss_index.pkl" []
  = (fst (rebuild_from_embeddings toy_pickle_loads (init 2) rows), snd out).
Proof.
  intros rows out.
  destruct (startup_then_restart toy_serialize_index toy_deserialize_index toy_pickle_dump
              toy_pickle_load toy_pickle_loads (init 2) ∅ "faiss_index.pkl" rows)
    as (_ & _ & H).
  - reflexivity.
  - reflexivity.
  - vm_compute. reflexivity.
  - vm_compute. reflexivity.
  - apply (H (init 2) false []). reflexivity.
Defined.

(** ** Collaborative recommender: what it recommends *)

Lemma index_of_None x l : x ∉ l -> index_of x l = None.
Proof.
  induction l as [|y l IH]; simpl; [done|].
  intros Hx. apply not_elem_of_cons in Hx as [Hne Hx].
  destruct (Z.eqb_spec x y); [done|]. by rewrite IH.
Qed.

Lemma index_of_lt x l j : index_of x l = Some j -> j < length l.
Proof. intros H. apply index_of_Some in H. by eapply lookup_lt_Some. Qed.

Lemma filter_sublist {A} (p : A -> bool) l : List.filter p l `sublist_of` l.
Proof.
  induction l as [|x l IH]; simpl; [constructor|].
  destruct (p x); by constructor.
Qed.

Lemma py_take_sublist {A} k (l : list A) : py_take k l `sublist_of` l.
Proof. unfold py_take. destruct (0 <=? k)%Z; apply sublist_take. Qed.

Lemma NoDup_omap_lookup (articles : list Z) (l : list nat) :
  NoDup articles -> NoDup l -> NoDup (omap (fun i => articles !! i) l).
Proof.
  intros Ha. induction 1 as [|i l Hi Hl IH]; csimpl; [constructor|].
  destruct (articles !! i) as [a|] eqn:Hai; [|done].
  constructor; [|done].
  intros (j & Hj & Haj)%list_elem_of_omap.
  by rewrite (NoDup_lookup _ _ _ _ Ha Hai Haj) in Hi.
Qed.

Section CollaborativeFacts.
Variable argsort : list R -> list nat.
Hypothesis argsort_perm : forall v, Permutation (argsort v) (seq 0 (length v)).

Abbreviation collab := (_collaborative_recs argsort).

(** A returned article heads a column with a positive score. *)
Lemma collaborative_recs_positive rows user k target a :
  target_row rows user = Some target ->
  a ∈ collab rows user k ->
  exists i, articles_of rows !! i = Some a /\
            (0 < nth i (scores_of rows user target) 0)%R.
Proof.
  intros Ht Ha. rewrite (collaborative_recs_unfold _ _ _ _ _ Ht) in Ha.
  apply list_elem_of_omap in Ha as (i & Hi & Hai).
  exists i. split; [done|].
  apply list_elem_of_In, filter_In in Hi as [_ Hi].
  unfold positive_at in Hi. by destruct (Rlt_dec _ _).
Qed.

Lemma collaborative_recs_unrated rows user k a r :
  a ∈ collab rows user k -> r ∈ rows -> article_id r = a -> user_id r <> user.
Proof.
  intros Ha Hr Hart Hu.
  destruct (target_row rows user) as [target|] eqn:Ht.
  - destruct (collaborative_recs_positive _ _ _ _ _ Ht Ha) as (i & Hi & Hsc).
    assert (Hin : article_id r ∈ articles_of rows).
    { apply sorted_set_elem_of, list_elem_of_In, in_map. by apply list_elem_of_In. }
    apply index_of_elem_of in Hin as [j Hj].
    pose proof (index_of_Some _ _ _ Hj) as Hlook. rewrite Hart in Hlook.
    assert (i = j) as ->
      by (eapply NoDup_lookup; [apply sorted_set_NoDup|exact Hi|exact Hlook]).
    pose proof (zero_rated_zero rows user (articles_of rows)
                  (weighted_scores (similarities (rating_matrix rows) target)
                     (rating_matrix rows) (length (articles_of rows)))
                  r j Hr Hu Hj) as Hz.
    unfold scores_of in Hsc. lra.
  - rewrite collaborative_recs_empty in Ha by done. by apply elem_of_nil in Ha.
Qed.

(** X10.  The collaborative recommender never returns an article twice,
    and every article it returns has a feedback row of another user; so a
    user without feedback of their own gets nothing, and neither does a user
    when nobody else has rated anything. *)
Theorem collaborative_recs_from_others (rows : list UserFeedback) (user : Z) (k : Z) :
  NoDup (collab rows user k) /\
  (forall a, a ∈ collab rows user k ->
     exists r, r ∈ rows /\ article_id r = a /\ user_id r <> user) /\
  ((forall r, r ∈ rows -> user_id r <> user) -> collab rows user k = []) /\
  ((forall r, r ∈ rows -> user_id r = user) -> collab rows user k = []).
Proof using argsort_perm.
  assert (Hothers : forall a, a ∈ collab rows user k ->
            exists r, r ∈ rows /\ article_id r = a /\ user_id r <> user).
  { intros a Ha.
    destruct (target_row rows user) as [target|] eqn:Ht.
    - destruct (collaborative_recs_positive _ _ _ _ _ Ht Ha) as (i & Hi & _).
      apply list_elem_of_lookup_2, sorted_set_elem_of, list_elem_of_fmap in Hi
        as (r & -> & Hr).
      exists r. split; [done|]. split; [done|].
      by eapply collaborative_recs_unrated.
    - rewrite collaborative_recs_empty in Ha by done. by apply elem_of_nil in Ha. }
  split; [|split; [done|split]].
  - destruct (target_row rows user) as [target|] eqn:Ht.
    + rewrite (collaborative_recs_unfold _ _ _ _ _ Ht).
      apply NoDup_omap_lookup; [apply sorted_set_NoDup|].
      eapply sublist_NoDup; [|apply filter_sublist].
      eapply sublist_NoDup; [|apply py_take_sublist].
      apply NoDup_ListNoDup, NoDup_rev, NoDup_ListNoDup.
      rewrite argsort_perm. apply NoDup_seq.
    + rewrite collaborative_recs_empty by done. constructor.
  - intros Hnone. apply collaborative_recs_empty.
    unfold target_row. rewrite index_of_None; [done|].
    intros (r & -> & Hr)%sorted_set_elem_of%list_elem_of_fmap. by apply (Hnone r).
  - intros Hall. destruct (collab rows user k) as [|a l] eqn:Hrecs; [done|].
    destruct (Hothers a) as (r & Hr & _ & Hne); [left|]. by destruct Hne; apply Hall.
Qed.
End CollaborativeFacts.

Lemma collaborative_recs_from_others_witness :
  NoDup (_collaborative_recs real_argsort
           [mkFeedback 1 10 5; mkFeedback 2 10 4; mkFeedback 2 20 5] 1 3).
Proof.
  apply (collaborative_recs_from_others real_argsort real_argsort_perm).
Defined.

(** ** The rating matrix *)

Lemma lookup_repeat {A} (x : A) n i : i < n -> repeat x n !! i = Some x.
Proof.
  revert i. induction n as [|n IH]; intros i Hi; [lia|].
  destruct i; simpl; [done|]. apply IH. lia.
Qed.

(** One assignment [matrix[i', j'] = x] seen from the cell [(i, j)]. *)
Lemma set_cell_lookup (matrix : list rvec) i' j' x i j row :
  matrix !! i = Some row -> j < length row ->
  exists row', set_cell matrix i' j' x !! i = Some row' /\
               length row' = length row /\
               row' !! j = if decide (i' = i /\ j' = j) then Some x else row !! j.
Proof.
  intros Hrow Hj. unfold set_cell, rvec in *.
  destruct (decide (i' = i)) as [->|Hi].
  - rewrite list_lookup_alter_eq, Hrow. simpl.
    eexists. split; [done|]. split; [apply length_insert|].
    destruct (decide (j' = j)) as [->|Hne].
    + rewrite list_lookup_insert_eq by done. by rewrite decide_True.
    + rewrite list_lookup_insert_ne by done. rewrite decide_False; [done|]. tauto.
  - rewrite list_lookup_alter_ne by done. exists row. split; [done|]. split; [done|].
    rewrite decide_False; [done|]. tauto.
Qed.

Lemma index_of_inj x y l i : index_of x l = Some i -> index_of y l = Some i -> x = y.
Proof.
  intros Hx%index_of_Some Hy%index_of_Some. congruence.
Qed.

Lemma fill_cell (users articles : list Z) (todo : list UserFeedback) :
  forall (matrix : list rvec) u a i j row,
    index_of u users = Some i -> index_of a articles = Some j ->
    matrix !! i = Some row -> j < length row ->
    exists row',
      foldl (fun matrix r =>
               match index_of (user_id r) users, index_of (article_id r) articles with
               | Some i, Some j => set_cell matrix i j (IZR (rating r))
               | _, _ => matrix
               end) matrix todo !! i = Some row' /\
      row' !! j = match last_rating todo u a with
                  | Some x => Some (IZR x)
                  | None => row !! j
                  end.
Proof.
  induction todo as [|r todo IH]; intros matrix u a i j row Hu Ha Hrow Hj.
  { exists row. by split. }
  cbn [foldl last_rating].
  set (matrix' := match index_of (user_id r) users, index_of (article_id r) articles with
                  | Some i, Some j => set_cell matrix i j (IZR (rating r))
                  | _, _ => matrix
                  end).
  assert (Hstep : exists row', matrix' !! i = Some row' /\ length row' = length row /\
            row' !! j = if Z.eqb (user_id r) u && Z.eqb (article_id r) a
                        then Some (IZR (rating r)) else row !! j).
  { subst matrix'.
    destruct (index_of (user_id r) users) as [i'|] eqn:Hi';
      [destruct (index_of (article_id r) articles) as [j'|] eqn:Hj'|].
    - destruct (set_cell_lookup matrix i' j' (IZR (rating r)) i j row Hrow Hj)
        as (row' & H1 & H2 & H3).
      exists row'. split; [done|]. split; [done|]. rewrite H3.
      assert (Hiu : i' = i <-> user_id r = u).
      { split; [intros ->; by eapply index_of_inj|intros Heq; congruence]. }
      assert (Hja : j' = j <-> article_id r = a).
      { split; [intros ->; by eapply index_of_inj|intros Heq; congruence]. }
      destruct (Z.eqb_spec (user_id r) u), (Z.eqb_spec (article_id r) a); cbn [andb];
        [rewrite decide_True by tauto|rewrite decide_False by tauto..]; done.
    - exists row. split; [done|]. split; [done|].
      destruct (Z.eqb_spec (article_id r) a) as [Heq|]; [congruence|].
      by rewrite andb_false_r.
    - exists row. split; [done|]. split; [done|].
      destruct (Z.eqb_spec (user_id r) u) as [Heq|]; [congruence|]. done. }
  destruct Hstep as (row' & Hrow' & Hlen & Hcell).
  destruct (IH matrix' u a i j row' Hu Ha Hrow') as (row'' & Hfinal & Hcell'').
  { by rewrite Hlen. }
  exists row''. split; [done|]. rewrite Hcell''.
  destruct (last_rating todo u a); [done|]. rewrite Hcell.
  by destruct (Z.eqb (user_id r) u && Z.eqb (article_id r) a).
Qed.

Lemma rating_matrix_length rows : length (rating_matrix rows) = length (users_of rows).
Proof.
  unfold rating_matrix.
  generalize (users_of rows) as users. generalize (articles_of rows) as articles.
  intros articles users.
  rewrite <- (repeat_length (repeat 0%R (length articles)) (length users)) at 2.
  generalize (repeat (repeat 0%R (length articles)) (length users)) as matrix.
  generalize rows at 1 as todo.
  induction todo as [|r todo IH]; intros matrix; [done|]. cbn [foldl]. rewrite IH.
  destruct (index_of (user_id r) users); [|done].
  destruct (index_of (article_id r) articles); [|done].
  unfold set_cell. apply length_alter.
Qed.

(** X11.  The rating matrix has one row per distinct user and one column
    per distinct rated article; the cell of user [u] and article [a] holds
    the rating of the last feedback row of [u] for [a], hence a later
    rating replaces an earlier one, and it holds 0 when there is no such
    row. *)
Theorem rating_matrix_cell (rows : list UserFeedback) (u a : Z) (i j : nat) :
  index_of u (users_of rows) = Some i ->
  index_of a (articles_of rows) = Some j ->
  length (rating_matrix rows) = length (users_of rows) /\
  exists row, rating_matrix rows !! i = Some row /\
              length row = length (articles_of rows) /\
              row !! j = Some (IZR (default 0%Z (last_rating rows u a))).
Proof.
  intros Hu Ha. split; [apply rating_matrix_length|].
  pose proof (index_of_lt _ _ _ Hu) as Hi. pose proof (index_of_lt _ _ _ Ha) as Hj.
  destruct (fill_cell (users_of rows) (articles_of rows) rows
              (repeat (repeat 0%R (length (articles_of rows))) (length (users_of rows)))
              u a i j (repeat 0%R (length (articles_of rows))) Hu Ha)
    as (row & Hrow & Hcell).
  { by apply lookup_repeat. }
  { by rewrite repeat_length. }
  exists row. split; [exact Hrow|]. split.
  - pose proof (rating_matrix_row_length rows) as Hall.
    rewrite Forall_forall in Hall. apply Hall. by eapply list_elem_of_lookup_2.
  - etrans; [exact Hcell|].
    destruct (last_rating rows u a); [done|]. by apply lookup_repeat.
Qed.

Lemma rating_matrix_cell_witness :
  exists row,
    rating_matrix [mkFeedback 1 10 2; mkFeedback 2 10 4; mkFeedback 1 10 5] !! 0 = Some row /\
    row !! 0 = Some 5%R.
Proof.
  destruct (rating_matrix_cell [mkFeedback 1 10 2; mkFeedback 2 10 4; mkFeedback 1 10 5]
              1 10 0 0 eq_refl eq_refl) as (_ & row & H1 & _ & H2).
  exists row. split; [exact H1|exact H2].
Defined.

(** ** The recommendation handler *)

Section HybridFacts.
Variable pickle_loads : bytes -> option vector.
Variable argsort : list R -> list nat.
Variable set_iter : list Z -> list Z.
Hypothesis set_iter_NoDup : forall l, NoDup (set_iter l).
Hypothesis set_iter_elem_of : forall l x, x ∈ set_iter l <-> x ∈ l.

Abbreviation hybrid := (hybrid_recommendations pickle_loads argsort set_iter).

Lemma ranked_ids_facts content_recs collab_recs k ranked :
  (0 <= k)%Z ->
  ranked_ids set_iter content_recs collab_recs k = Some ranked ->
  NoDup ranked /\ length ranked <= Z.to_nat k /\
  forall aid, aid ∈ ranked -> aid ∈ map fst content_recs \/ aid ∈ collab_recs.
Proof using set_iter_NoDup set_iter_elem_of.
  intros Hk. unfold ranked_ids.
  pose proof (set_iter_NoDup (map fst content_recs ++ collab_recs)) as Hcnd.
  pose proof (fun x => proj1 (set_iter_elem_of (map fst content_recs ++ collab_recs) x))
    as Hcin.
  revert Hcnd Hcin.
  destruct (set_iter (map fst content_recs ++ collab_recs)) as [|x l]; [done|].
  intros Hcnd Hcin Heq. apply (inj Some) in Heq. subst ranked.
  set (sorted := stable_sort _ _).
  assert (Hsub : py_take k sorted `sublist_of` sorted) by apply py_take_sublist.
  assert (Hnd : NoDup sorted).
  { subst sorted. by rewrite stable_sort_perm. }
  split; [by eapply sublist_NoDup|]. split.
  - unfold py_take. destruct (Z.leb_spec 0 k); [|lia]. rewrite length_take. lia.
  - intros aid Haid. eapply elem_of_sublist in Haid; [|exact Hsub].
    subst sorted. rewrite stable_sort_elem_of in Haid.
    by apply Hcin, elem_of_app in Haid.
Qed.

Lemma most_recent_spec (articles : list Article) (k : Z) :
  length (most_recent articles k) = Nat.min (Z.to_nat k) (length articles) /\
  (forall a, a ∈ most_recent articles k -> a ∈ articles) /\
  (forall a b, a ∈ most_recent articles k -> b ∈ articles ->
     b ∉ most_recent articles k -> (art_created_at b <= art_created_at a)%Z).
Proof.
  unfold most_recent.
  set (leb := fun a b : Article => (art_created_at b <=? art_created_at a)%Z).
  set (sorted := stable_sort leb articles).
  assert (Hs : StronglySorted (fun a b => leb a b = true) sorted).
  { apply stable_sort_sorted; unfold leb; intros; lia. }
  split; [|split].
  - rewrite length_take. unfold sorted. by rewrite stable_sort_length.
  - intros a Ha. apply (stable_sort_elem_of leb).
    eapply elem_of_sublist; [exact Ha|]. apply sublist_take.
  - intros a b Ha Hb Hnb.
    apply (stable_sort_elem_of leb) in Hb. fold sorted in Hb.
    rewrite <- (take_drop (Z.to_nat k) sorted) in Hb, Hs.
    apply elem_of_app in Hb as [Hb|Hb]; [done|].
    apply StronglySorted_app_1_elem_of with (x1 := a) (x2 := b) in Hs; [|done..].
    unfold leb in Hs. lia.
Qed.

(** X12.  The recommendation handler fails exactly when the content
    recommender raises.  Otherwise it answers with at most [k] rows of the
    table of articles.  When both recommenders came back empty these are
    [k] most recent articles (all of them when the table has fewer): no
    article left out is more recent than one returned.  Otherwise every
    article returned was proposed by the content or by the collaborative
    recommender. *)
Theorem hybrid_recommendations_spec (s : FAISSService) (feedback : list UserFeedback)
    (embs : list FAISSEmbedding) (articles : list Article) (user : Z) (k : Z) :
  NoDup (map art_id articles) -> (1 <= k)%Z ->
  let content := _content_based_recs pickle_loads s feedback embs user k in
  let collab_recs := _collaborative_recs argsort feedback user k in
  (forall e, content = Raise e ->
     hybrid s feedback embs articles user k = Raise e) /\
  (forall content_recs, content = Ok content_recs ->
     exists arts, hybrid s feedback embs articles user k = Ok arts /\
       length arts <= Z.to_nat k /\
       (forall a, a ∈ arts -> a ∈ articles) /\
       (content_recs = [] /\ collab_recs = [] ->
          length arts = Nat.min (Z.to_nat k) (length articles) /\
          forall a b, a ∈ arts -> b ∈ articles -> b ∉ arts ->
            (art_created_at b <= art_created_at a)%Z) /\
       (content_recs <> [] \/ collab_recs <> [] ->
          forall a, a ∈ arts ->
            art_id a ∈ map fst content_recs \/ art_id a ∈ collab_recs)).
Proof using set_iter_NoDup set_iter_elem_of.
  intros Hpk Hk content collab_recs. split.
  - intros e He. unfold hybrid_recommendations. fold content. by rewrite He.
  - intros content_recs Hc. unfold hybrid_recommendations. fold content collab_recs.
    rewrite Hc. cbn [rbind].
    destruct (ranked_ids set_iter content_recs collab_recs k) as [ranked|] eqn:Hr.
    + assert (Hk0 : (0 <= k)%Z) by lia.
      destruct (ranked_ids_facts _ _ _ _ Hk0 Hr) as (Hnd & Hlen & Hin).
      eexists. split; [done|].
      set (arts := List.filter _ articles).
      assert (Hsub : arts `sublist_of` articles) by apply filter_sublist.
      assert (Hids : forall a, a ∈ arts -> art_id a ∈ ranked).
      { intros a Ha. apply list_elem_of_In, filter_In in Ha as [_ Ha].
        by apply in_list_spec. }
      split; [|split; [|split]].
      * etrans; [|exact Hlen]. rewrite <- (length_map art_id arts).
        apply submseteq_length, NoDup_submseteq.
        -- eapply sublist_NoDup; [exact Hpk|]. by apply (fmap_sublist art_id).
        -- intros x (a & -> & Ha)%list_elem_of_fmap. by apply Hids.
      * intros a Ha. by eapply elem_of_sublist.
      * intros [-> ->]. unfold ranked_ids in Hr. simpl in Hr.
        destruct (set_iter []) as [|x l] eqn:Hset; [done|].
        assert (Hx : x ∈ set_iter []) by (rewrite Hset; left).
        rewrite set_iter_elem_of in Hx. by apply elem_of_nil in Hx.
      * intros _ a Ha. by apply Hin, Hids.
    + destruct (most_recent_spec articles k) as (Hlen & Hin & Hrecent).
      eexists. split; [done|]. split; [|split; [done|split; [done|]]].
      * rewrite Hlen. apply Nat.le_min_l.
      * intros Hne. exfalso. unfold ranked_ids in Hr.
        destruct (set_iter _) as [|x l] eqn:Hset; [|done].
        assert (Hall : forall x, x ∉ map fst content_recs ++ collab_recs).
        { intros x Hx. apply set_iter_elem_of in Hx. rewrite Hset in Hx.
          by apply elem_of_nil in Hx. }
        destruct content_recs as [|[c d] cs].
        -- destruct collab_recs as [|c cs]; [by destruct Hne|].
           apply (Hall c). simpl. left.
        -- apply (Hall c). simpl. left.
Qed.
End HybridFacts.

(** An instance: a user without feedback gets the two most recent of three
    articles. *)
Lemma hybrid_recommendations_spec_witness :
  exists arts,
    hybrid_recommendations toy_pickle_loads real_argsort remove_dups (init 2) [] []
      [plain_article 1 "a" 10; plain_article 2 "b" 30; plain_article 3 "c" 20] 1 2 = Ok arts /\
    length arts = 2 /\
    forall a b, a ∈ arts ->
      b ∈ [plain_article 1 "a" 10; plain_article 2 "b" 30; plain_article 3 "c" 20] -> b ∉ arts ->
      (art_created_at b <= art_created_at a)%Z.
Proof.
  assert (Hnd : NoDup (map art_id [plain_article 1 "a" 10; plain_article 2 "b" 30; plain_article 3 "c" 20])).
  { apply (bool_decide_unpack (NoDup [1; 2; 3]%Z)). by vm_compute. }
  assert (Hk : (1 <= 2)%Z) by lia.
  destruct (hybrid_recommendations_spec toy_pickle_loads real_argsort remove_dups
              NoDup_remove_dups elem_of_remove_dups (init 2) [] []
              [plain_article 1 "a" 10; plain_article 2 "b" 30; plain_article 3 "c" 20] 1 2 Hnd Hk)
    as [_ H].
  destruct (H [] eq_refl) as (arts & Heq & _ & _ & Hcold & _).
  exists arts. split; [exact Heq|]. apply Hcold. split; reflexivity.
Defined.

(** ** The embedding handler *)

Lemma has_content_unfold (art : Article) :
  has_content art = match art_content art with EmptyString => false | _ => true end.
Proof. done. Qed.

Section EmbedLoopFacts.
Variable generate_embedding : string -> result vector.
Variable pickle_dumps : vector -> bytes.

Abbreviation loop := (embed_loop generate_embedding pickle_dumps).
Abbreviation embeds := (fun (art : Article) (v : vector) =>
                          generate_embedding (art_content art) = Ok v).

Lemma embed_loop_ok (articles : list Article) (new : list vector) :
  Forall2 embeds (List.filter has_content articles) new ->
  forall vectors ids embs,
    loop articles vectors ids embs
    = Ok (vectors ++ new, ids ++ map art_id (List.filter has_content articles),
          store_after pickle_dumps embs (List.filter has_content articles) new).
Proof.
  revert new. induction articles as [|art rest IH]; intros new Hall vectors ids embs.
  - simpl in Hall. apply Forall2_nil_inv_l in Hall as ->.
    simpl. by rewrite !app_nil_r.
  - simpl in *. pose proof (has_content_unfold art) as Hhc.
    destruct (art_content art) as [|c cs] eqn:Hc; rewrite Hhc in *.
    + by apply IH.
    + apply Forall2_cons_inv_l in Hall as (v & new' & Hv & Hall & ->).
      rewrite Hc in Hv. rewrite Hv. cbn [rbind]. rewrite (IH new' Hall).
      unfold store_after. simpl. by rewrite <- !app_assoc.
Qed.

Lemma embed_loop_inv (articles : list Article) vectors ids embs :
  match loop articles vectors ids embs with
  | Ok _ => exists new, Forall2 embeds (List.filter has_content articles) new
  | Raise e => exists art, art ∈ List.filter has_content articles /\
                           generate_embedding (art_content art) = Raise e
  end.
Proof.
  revert vectors ids embs. induction articles as [|art rest IH]; intros vectors ids embs.
  - simpl. exists []. constructor.
  - simpl. pose proof (has_content_unfold art) as Hhc.
    destruct (art_content art) as [|c cs] eqn:Hc; rewrite Hhc; [apply IH|].
    destruct (generate_embedding (String c cs)) as [v|e] eqn:Hv; cbn [rbind].
    + specialize (IH (vectors ++ [v]) (ids ++ [art_id art])
                     (upsert_embedding embs (art_id art) (pickle_dumps v))).
      destruct (loop rest _ _ _) as [r|e].
      * destruct IH as [new Hnew]. exists (v :: new). constructor; [|done].
        by rewrite Hc.
      * destruct IH as (a & Ha & He). exists a. split; [by right|done].
    + exists art. split; [left|]. by rewrite Hc.
Qed.
End EmbedLoopFacts.

Lemma add_embeddings_inv s (embeddings : list vector) (article_ids : list Z) s' u :
  add_embeddings s embeddings article_ids = (s', Ok u) ->
  length embeddings = length article_ids /\
  Forall (fun v => length v = Faiss.d (index s)) embeddings.
Proof.
  unfold add_embeddings, Faiss.add.
  destruct (Nat.eqb_spec (length embeddings) (length article_ids)); [|done].
  cbn [negb]. destruct (forallb _ _) eqn:Hall; [|done]. intros _. split; [done|].
  apply Forall_forall. intros v Hv.
  rewrite forallb_forall in Hall. by apply Nat.eqb_eq, Hall, list_elem_of_In.
Qed.

Lemma vstack_inv (rows matrix : list vector) : vstack rows = Ok matrix -> matrix = rows.
Proof.
  unfold vstack. destruct rows as [|r rows]; [done|].
  destruct (forallb _ _); [|done]. by intros [= <-].
Qed.

Lemma Forall_Forall2_ex {A B} (P : A -> B -> Prop) (l : list A) :
  Forall (fun a => exists b, P a b) l -> exists k, Forall2 P l k.
Proof.
  induction 1 as [|a l [b Hb] _ [k Hk]]; [by exists []|].
  exists (b :: k). by constructor.
Qed.

Section GenerateEmbeddingsFacts.
Variable generate_embedding : string -> result vector.
Variable pickle_dumps : vector -> bytes.
Variable serialize_index : Faiss.IndexFlatL2 -> bytes.
Variable pickle_dump : snapshot_dict -> bytes.

Abbreviation gen_embs :=
  (generate_embeddings generate_embedding pickle_dumps serialize_index pickle_dump).
Abbreviation persist := (_persist_faiss_index serialize_index pickle_dump).
Abbreviation embeds_in := (fun (s : FAISSService) (art : Article) (v : vector) =>
  generate_embedding (art_content art) = Ok v /\ length v = Faiss.d (index s)).

(** The state a successful call leaves behind. *)
Lemma generate_embeddings_ok s embs fs path articles limit (vectors : list vector) :
  let sel := embedded_articles articles limit in
  Forall2 (embeds_in s) sel vectors ->
  gen_embs s embs fs path articles limit
  = Ok (mkOutcome
          (mkService (Faiss.mkIndex (Faiss.d (index s)) (Faiss.xb (index s) ++ vectors))
                     (record_ids (Faiss.ntotal (index s)) (map art_id sel) (article_id_map s))
                     (dimension s))
          (store_after pickle_dumps embs sel vectors)
          (match sel with [] => fs | _ =>
             persist (mkService
                        (Faiss.mkIndex (Faiss.d (index s)) (Faiss.xb (index s) ++ vectors))
                        (record_ids (Faiss.ntotal (index s)) (map art_id sel)
                                    (article_id_map s))
                        (dimension s)) fs path
           end)
          (length sel)
          (total_vectors (get_index_stats s) + Z.of_nat (length sel))).
Proof.
  intros sel Hall. subst sel. unfold embedded_articles in *. unfold generate_embeddings.
  assert (Hemb : Forall2 (fun art v => generate_embedding (art_content art) = Ok v)
                   (List.filter has_content (take limit articles)) vectors).
  { eapply Forall2_impl; [exact Hall|]. by intros art v [? _]. }
  assert (Hdim : Forall (fun v : vector => length v = Faiss.d (index s)) vectors).
  { eapply Forall2_Forall_r; [exact Hall|]. apply Forall_forall. by intros art _ v [_ ?]. }
  pose proof (Forall2_length _ _ _ Hall) as Hlen.
  rewrite (embed_loop_ok _ _ _ _ Hemb). cbn [rbind app].
  rewrite length_map. clear Hemb.
  revert Hall Hlen. generalize (List.filter has_content (take limit articles)).
  intros sel Hall Hlen.
  destruct vectors as [|v vectors].
  - destruct sel as [|art sel']; [|done]. simpl.
    rewrite app_nil_r, Z.add_0_r. by destruct s as [[d xb] m dim].
  - destruct sel as [|art sel']; [done|].
    rewrite (vstack_uniform (Faiss.d (index s))) by done. cbn [rbind].
    rewrite add_embeddings_ok by (by rewrite ?length_map). f_equal. f_equal.
    unfold get_index_stats, Faiss.ntotal. cbn [total_vectors index Faiss.xb].
    rewrite length_app, <- Hlen. lia.
Qed.

Lemma generate_embeddings_inv s embs fs path articles limit out :
  gen_embs s embs fs path articles limit = Ok out ->
  exists vectors, Forall2 (embeds_in s) (embedded_articles articles limit) vectors.
Proof.
  unfold generate_embeddings.
  pose proof (embed_loop_inv generate_embedding pickle_dumps (take limit articles) [] [] embs)
    as Hinv.
  destruct (embed_loop _ _ _ _ _ _) as [[[vectors ids] embs']|e] eqn:Hloop; [|done].
  destruct Hinv as [new Hnew]. rewrite (embed_loop_ok _ _ _ _ Hnew) in Hloop.
  injection Hloop as <- <- <-. cbn [rbind app].
  intros Hout. exists new. apply Forall2_same_length_lookup. split.
  { by eapply Forall2_length. }
  intros i art v Hart Hv. split.
  { eapply Forall2_lookup_lr in Hnew; done. }
  destruct new as [|v0 new']; [done|].
  destruct (vstack (v0 :: new')) as [matrix|e] eqn:Hstack; [|done].
  apply vstack_inv in Hstack as ->. cbn [rbind] in Hout.
  destruct (add_embeddings s _ _) as [s' [u|e]] eqn:Hadd; [|done].
  apply add_embeddings_inv in Hadd as [_ Hall].
  rewrite Forall_forall in Hall. apply Hall. by eapply list_elem_of_lookup_2.
Qed.

(** X13.  A successful call embeds the articles with a content among the
    first [limit] articles, in their order: their embeddings, all of the
    dimension of the index, are appended to the index and mapped to the
    ids of their articles, whether the articles were indexed before or
    not; they are written to the table of stored embeddings; the answer
    counts them and gives the new size of the index, and the snapshot file
    is rewritten when at least one article was embedded. *)
Theorem generate_embeddings_outcome (s : FAISSService) (embs : list FAISSEmbedding)
    (fs : gmap string bytes) (path : string) (articles : list Article) (limit : nat)
    (out : embeddings_outcome) :
  gen_embs s embs fs path articles limit = Ok out ->
  let sel := embedded_articles articles limit in
  exists vectors,
    Forall2 (embeds_in s) sel vectors /\
    Faiss.xb (index (out_service out)) = Faiss.xb (index s) ++ vectors /\
    article_id_map (out_service out)
      = record_ids (Faiss.ntotal (index s)) (map art_id sel) (article_id_map s) /\
    out_embeddings out = store_after pickle_dumps embs sel vectors /\
    out_indexed out = length sel /\
    out_total_vectors out
      = (total_vectors (get_index_stats s) + Z.of_nat (length sel))%Z /\
    out_files out
      = match sel with [] => fs | _ => persist (out_service out) fs path end.
Proof.
  intros Hout sel.
  destruct (generate_embeddings_inv _ _ _ _ _ _ _ Hout) as [vectors Hall].
  exists vectors. split; [done|].
  rewrite (generate_embeddings_ok _ _ _ _ _ _ _ Hall) in Hout.
  injection Hout as <-. by cbn.
Qed.

(** X14.  A call succeeds exactly when every article it embeds gets an
    embedding of the dimension of the index; otherwise it raises, be it
    because the model raises on an article, because two embeddings differ
    in length, or because the index refuses their dimension. *)
Theorem generate_embeddings_succeeds (s : FAISSService) (embs : list FAISSEmbedding)
    (fs : gmap string bytes) (path : string) (articles : list Article) (limit : nat) :
  (exists out, gen_embs s embs fs path articles limit = Ok out) <->
  Forall (fun art => exists v, generate_embedding (art_content art) = Ok v /\
                               length v = Faiss.d (index s))
         (embedded_articles articles limit).
Proof.
  split.
  - intros [out Hout].
    destruct (generate_embeddings_inv _ _ _ _ _ _ _ Hout) as [vectors Hall].
    eapply Forall2_Forall_l; [exact Hall|].
    apply Forall_forall. intros v _ art Hart. by exists v.
  - intros Hall. apply Forall_Forall2_ex in Hall as [vectors Hall].
    eexists. by apply generate_embeddings_ok.
Qed.
End GenerateEmbeddingsFacts.

(** *** The table of stored embeddings *)

Lemma row_of_upsert embs aid payload aid' :
  row_of aid' (upsert_embedding embs aid payload)
  = if Z.eqb aid aid' then Some (mkEmbedding aid payload) else row_of aid' embs.
Proof.
  unfold row_of. induction embs as [|e embs IH]; simpl.
  - by destruct (Z.eqb_spec aid aid').
  - destruct (Z.eqb_spec (emb_article_id e) aid) as [He|He]; simpl.
    + destruct (Z.eqb_spec aid aid') as [->|Hne]; [done|].
      rewrite He. by destruct (Z.eqb_spec aid aid').
    + destruct (Z.eqb_spec (emb_article_id e) aid') as [He'|He'].
      * destruct (Z.eqb_spec aid aid'); [congruence|done].
      * exact IH.
Qed.

Lemma upsert_noop embs aid payload :
  row_of aid embs = Some (mkEmbedding aid payload) ->
  upsert_embedding embs aid payload = embs.
Proof.
  unfold row_of. induction embs as [|e embs IH]; simpl; [done|].
  destruct (Z.eqb_spec (emb_article_id e) aid) as [He|He].
  - by intros [= ->].
  - intros Hrow. by rewrite IH.
Qed.

Lemma upsert_fresh embs aid payload :
  aid ∉ map emb_article_id embs ->
  upsert_embedding embs aid payload = embs ++ [mkEmbedding aid payload].
Proof.
  induction embs as [|e embs IH]; simpl; [done|].
  rewrite not_elem_of_cons. intros [Hne Hnin].
  destruct (Z.eqb_spec (emb_article_id e) aid); [done|]. by rewrite IH.
Qed.

Lemma upsert_ids embs aid payload :
  map emb_article_id (upsert_embedding embs aid payload)
  = if decide (aid ∈ map emb_article_id embs) then map emb_article_id embs
    else map emb_article_id embs ++ [aid].
Proof.
  induction embs as [|e embs IH]; cbn [upsert_embedding map].
  - destruct (decide _) as [H|H]; [by apply elem_of_nil in H|done].
  - destruct (Z.eqb_spec (emb_article_id e) aid) as [He|He]; cbn [map emb_article_id].
    + clear IH. rewrite He. destruct (decide _) as [H|H]; [done|]. destruct H. left.
    + rewrite IH. clear IH.
      destruct (decide (aid ∈ map emb_article_id embs)) as [H1|H1];
        destruct (decide _) as [H2|H2]; try done.
      * destruct H2. by right.
      * apply elem_of_cons in H2 as [?|?]; [congruence|done].
Qed.

Lemma upsert_elem_of embs aid payload e :
  emb_article_id e <> aid -> e ∈ upsert_embedding embs aid payload <-> e ∈ embs.
Proof.
  intros Hne. induction embs as [|e0 embs IH]; simpl.
  - rewrite list_elem_of_singleton. split; [intros ->; by destruct Hne|].
    by intros ?%elem_of_nil.
  - destruct (Z.eqb_spec (emb_article_id e0) aid) as [He|He].
    + rewrite !elem_of_cons. split; (intros [->|?]; [by destruct Hne|by right]).
    + rewrite !elem_of_cons, IH. done.
Qed.

Section StoreFacts.
Variable pickle_dumps : vector -> bytes.

Abbreviation store := (store_after pickle_dumps).

Lemma store_after_cons embs art arts v vectors :
  store embs (art :: arts) (v :: vectors)
  = store (upsert_embedding embs (art_id art) (pickle_dumps v)) arts vectors.
Proof. done. Qed.

Lemma store_after_other embs arts vectors e :
  emb_article_id e ∉ map art_id arts -> e ∈ store embs arts vectors <-> e ∈ embs.
Proof.
  revert embs vectors. induction arts as [|art arts IH]; intros embs vectors Hnin.
  { done. }
  destruct vectors as [|v vectors]; [done|].
  simpl in Hnin. apply not_elem_of_cons in Hnin as [Hne Hnin].
  rewrite store_after_cons, IH by done. by apply upsert_elem_of.
Qed.

Lemma store_after_row_other embs arts vectors aid :
  aid ∉ map art_id arts -> row_of aid (store embs arts vectors) = row_of aid embs.
Proof.
  revert embs vectors. induction arts as [|art arts IH]; intros embs vectors Hnin.
  { done. }
  destruct vectors as [|v vectors]; [done|].
  simpl in Hnin. apply not_elem_of_cons in Hnin as [Hne Hnin].
  rewrite store_after_cons, IH, row_of_upsert by done.
  destruct (Z.eqb_spec (art_id art) aid); [congruence|done].
Qed.

Lemma store_after_row embs arts vectors i art v :
  NoDup (map art_id arts) ->
  arts !! i = Some art -> vectors !! i = Some v ->
  row_of (art_id art) (store embs arts vectors)
  = Some (mkEmbedding (art_id art) (pickle_dumps v)).
Proof.
  revert embs vectors i.
  induction arts as [|a arts IH]; intros embs vectors i Hnd Hart Hv; [done|].
  destruct vectors as [|v0 vectors]; [by destruct i|].
  simpl in Hnd. apply NoDup_cons in Hnd as [Hnin Hnd].
  rewrite store_after_cons. destruct i as [|i]; simpl in Hart, Hv.
  - injection Hart as ->. injection Hv as ->.
    rewrite store_after_row_other, row_of_upsert by done. by rewrite Z.eqb_refl.
  - by eapply IH.
Qed.

Lemma store_after_ids embs arts vectors :
  NoDup (map emb_article_id embs) -> NoDup (map emb_article_id (store embs arts vectors)).
Proof.
  revert embs vectors. induction arts as [|art arts IH]; intros embs vectors Hnd; [done|].
  destruct vectors as [|v vectors]; [done|].
  rewrite store_after_cons. apply IH. rewrite upsert_ids.
  case_decide as Hin; [done|].
  apply NoDup_app. split; [done|]. split; [|apply NoDup_singleton].
  intros x Hx ->%list_elem_of_singleton. done.
Qed.

Lemma store_after_again embs arts vectors :
  (forall i art v, arts !! i = Some art -> vectors !! i = Some v ->
     row_of (art_id art) embs = Some (mkEmbedding (art_id art) (pickle_dumps v))) ->
  store embs arts vectors = embs.
Proof.
  revert vectors. induction arts as [|art arts IH]; intros vectors Hrows; [done|].
  destruct vectors as [|v vectors]; [done|].
  rewrite store_after_cons, upsert_noop by (by apply (Hrows 0%nat)).
  apply IH. intros i a w Ha Hw. by apply (Hrows (S i)).
Qed.

Lemma store_after_fresh embs arts vectors :
  NoDup (map emb_article_id embs ++ map art_id arts) ->
  length arts = length vectors ->
  store embs arts vectors
  = embs ++ zip_with (fun art v => mkEmbedding (art_id art) (pickle_dumps v)) arts vectors.
Proof.
  revert embs vectors. induction arts as [|art arts IH]; intros embs vectors Hnd Hlen.
  { simpl. by rewrite app_nil_r. }
  destruct vectors as [|v vectors]; [done|].
  simpl in Hnd. apply NoDup_app in Hnd as (Hnd1 & Hdisj & Hnd2).
  apply NoDup_cons in Hnd2 as [Hnin Hnd2].
  rewrite store_after_cons, upsert_fresh.
  2: { intros Hin. apply (Hdisj _ Hin). left. }
  rewrite IH.
  - simpl. by rewrite <- app_assoc.
  - rewrite map_app. simpl. apply NoDup_app. split; [|split; [|done]].
    + apply NoDup_app. split; [done|]. split; [|apply NoDup_singleton].
      intros x Hx ->%list_elem_of_singleton. apply (Hdisj _ Hx). left.
    + intros x [Hx|Hx]%elem_of_app Hin.
      * apply (Hdisj _ Hx). by right.
      * apply list_elem_of_singleton in Hx as ->. done.
  - by injection Hlen.
Qed.
End StoreFacts.

Lemma embedded_articles_NoDup (articles : list Article) (limit : nat) :
  NoDup (map art_id articles) -> NoDup (map art_id (embedded_articles articles limit)).
Proof.
  intros Hnd. eapply sublist_NoDup; [exact Hnd|].
  apply (fmap_sublist art_id). unfold embedded_articles.
  etrans; [apply filter_sublist|apply sublist_take].
Qed.

Section GenerateEmbeddingsStore.
Variable generate_embedding : string -> result vector.
Variable pickle_dumps : vector -> bytes.
Variable serialize_index : Faiss.IndexFlatL2 -> bytes.
Variable pickle_dump : snapshot_dict -> bytes.

Abbreviation gen_embs' :=
  (generate_embeddings generate_embedding pickle_dumps serialize_index pickle_dump).

(** X15.  After a successful call the stored embedding of every embedded
    article is the pickled embedding just computed, whether the article
    had a row before or not; the rows of all other articles are as they
    were; and a table with at most one row per article stays so. *)
Theorem generate_embeddings_store (s : FAISSService) (embs : list FAISSEmbedding)
    (fs : gmap string bytes) (path : string) (articles : list Article) (limit : nat)
    (out : embeddings_outcome) :
  gen_embs' s embs fs path articles limit = Ok out ->
  NoDup (map art_id articles) ->
  let sel := embedded_articles articles limit in
  (forall art, art ∈ sel ->
     exists v, generate_embedding (art_content art) = Ok v /\
       row_of (art_id art) (out_embeddings out)
       = Some (mkEmbedding (art_id art) (pickle_dumps v))) /\
  (forall aid, aid ∉ map art_id sel ->
     row_of aid (out_embeddings out) = row_of aid embs) /\
  (forall e, emb_article_id e ∉ map art_id sel ->
     e ∈ out_embeddings out <-> e ∈ embs) /\
  (NoDup (map emb_article_id embs) -> NoDup (map emb_article_id (out_embeddings out))).
Proof.
  intros Hout Hnd sel.
  destruct (generate_embeddings_inv _ _ _ _ _ _ _ _ _ _ _ Hout) as [vectors Hall].
  rewrite (generate_embeddings_ok _ _ _ _ _ _ _ _ _ _ _ Hall) in Hout.
  injection Hout as <-. cbn [out_embeddings]. fold sel.
  assert (Hsel : NoDup (map art_id sel)) by by apply embedded_articles_NoDup.
  split; [|split; [|split]].
  - intros art [i Hi]%list_elem_of_lookup.
    destruct (Forall2_lookup_l _ _ _ _ _ Hall Hi) as (v & Hv & Hgen & _).
    exists v. split; [done|]. by eapply store_after_row.
  - intros aid Hnin. by apply store_after_row_other.
  - intros e Hnin. by apply store_after_other.
  - apply store_after_ids.
Qed.

(** X16.  Repeating a successful call on the state it left succeeds again
    and leaves the table of stored embeddings as it is, but appends every
    embedding to the index a second time: the index grows by the number of
    embedded articles on every call. *)
Theorem generate_embeddings_again (s : FAISSService) (embs : list FAISSEmbedding)
    (fs : gmap string bytes) (path : string) (articles : list Article) (limit : nat)
    (out : embeddings_outcome) :
  gen_embs' s embs fs path articles limit = Ok out ->
  NoDup (map art_id articles) ->
  exists out2,
    gen_embs' (out_service out) (out_embeddings out) (out_files out) path articles limit
    = Ok out2 /\
    out_embeddings out2 = out_embeddings out /\
    out_indexed out2 = out_indexed out /\
    out_total_vectors out2
    = (total_vectors (get_index_stats s) + 2 * Z.of_nat (out_indexed out))%Z.
Proof.
  intros Hout Hnd.
  destruct (generate_embeddings_inv _ _ _ _ _ _ _ _ _ _ _ Hout) as [vectors Hall].
  rewrite (generate_embeddings_ok _ _ _ _ _ _ _ _ _ _ _ Hall) in Hout.
  injection Hout as <-. cbn [out_service out_embeddings out_files out_indexed].
  set (sel := embedded_articles articles limit) in *.
  set (s1 := mkService _ _ _).
  assert (Hall1 : Forall2 (fun art v => generate_embedding (art_content art) = Ok v /\
                                        length v = Faiss.d (index s1)) sel vectors) by done.
  eexists. split; [by apply generate_embeddings_ok|].
  cbn [out_embeddings out_indexed out_total_vectors]. fold sel.
  split; [|split; [done|]].
  - apply store_after_again. intros i art v Hart Hv.
    eapply store_after_row; [|done..]. by apply embedded_articles_NoDup.
  - unfold get_index_stats, Faiss.ntotal, s1. cbn [total_vectors index Faiss.xb].
    rewrite length_app, (Forall2_length _ _ _ Hall). lia.
Qed.
End GenerateEmbeddingsStore.

Lemma decode_stored (pickle_loads : bytes -> option vector) (pickle_dumps : vector -> bytes)
    (generate_embedding : string -> result vector) (sel : list Article)
    (vectors : list vector) :
  Forall (fun art => forall v, generate_embedding (art_content art) = Ok v ->
            pickle_loads (pickle_dumps v) = Some v /\ pickle_dumps v <> []) sel ->
  Forall2 (fun art v => generate_embedding (art_content art) = Ok v /\ v <> []) sel vectors ->
  omap (decode_row pickle_loads)
       (stored_rows (zip_with (fun art v => mkEmbedding (art_id art) (pickle_dumps v))
                              sel vectors))
  = zip (map art_id sel) vectors.
Proof.
  intros Hcodec Hall. induction Hall as [|art v sel vectors [Hgen Hne] Hall IH]; [done|].
  apply Forall_cons in Hcodec as [Hart Hcodec]. destruct (Hart v Hgen) as [Hload Hdump].
  cbn [zip_with stored_rows map]. csimpl. fold (stored_rows (zip_with
    (fun art v => mkEmbedding (art_id art) (pickle_dumps v)) sel vectors)).
  rewrite (IH Hcodec). unfold decode_row. cbn [fst snd emb_article_id embedding_vector].
  destruct (pickle_dumps v) as [|b bs] eqn:Hb; [done|]. rewrite Hload.
  unfold reshape_row. by destruct v.
Qed.

(** X17.  What the first successful call on an empty index and an empty
    table of stored embeddings leaves in the index is what a rebuild from
    the table gives: a restart that rebuilds the index from the stored
    embeddings restores the mapping and the vectors of the live index,
    provided [pickle] gives back the embeddings it wrote. *)
Theorem generate_then_rebuild (generate_embedding : string -> result vector)
    (pickle_dumps : vector -> bytes) (pickle_loads : bytes -> option vector)
    (serialize_index : Faiss.IndexFlatL2 -> bytes) (pickle_dump : snapshot_dict -> bytes)
    (dim : nat) (fs : gmap string bytes) (path : string) (articles : list Article)
    (limit : nat) (out : embeddings_outcome) (s2 : FAISSService) :
  0 < dim -> dimension s2 = dim ->
  NoDup (map art_id articles) ->
  Forall (fun art => forall v, generate_embedding (art_content art) = Ok v ->
            pickle_loads (pickle_dumps v) = Some v /\ pickle_dumps v <> [])
         (embedded_articles articles limit) ->
  generate_embeddings generate_embedding pickle_dumps serialize_index pickle_dump
    (init dim) [] fs path articles limit = Ok out ->
  rebuild_from_embeddings pickle_loads s2 (stored_rows (out_embeddings out))
  = (out_service out, Ok tt).
Proof.
  intros Hdim Hs2 Hnd Hcodec Hout.
  destruct (generate_embeddings_inv _ _ _ _ _ _ _ _ _ _ _ Hout) as [vectors Hall].
  rewrite (generate_embeddings_ok _ _ _ _ _ _ _ _ _ _ _ Hall) in Hout.
  injection Hout as <-. cbn [out_service out_embeddings].
  set (sel := embedded_articles articles limit) in *.
  pose proof (Forall2_length _ _ _ Hall) as Hlen.
  rewrite store_after_fresh; [|by apply embedded_articles_NoDup|done].
  cbn [app].
  assert (Hdec : omap (decode_row pickle_loads)
                   (stored_rows (zip_with (fun art v => mkEmbedding (art_id art)
                                                          (pickle_dumps v)) sel vectors))
                 = zip (map art_id sel) vectors).
  { apply (decode_stored _ _ generate_embedding); [done|].
    eapply Forall2_impl; [exact Hall|]. intros art v [Hgen Hv]. split; [done|].
    intros ->. simpl in Hv. cbn in Hv. lia. }
  rewrite rebuild_ok; rewrite Hdec.
  - unfold rebuilt. rewrite Hs2.
    rewrite fst_zip by (rewrite length_map; lia).
    rewrite snd_zip by (rewrite length_map; lia). done.
  - apply Forall_forall. intros [aid v] [i Hi]%list_elem_of_lookup.
    apply lookup_zip_Some in Hi as [_ Hv]. rewrite Hs2.
    eapply Forall2_lookup_r in Hall as (art & _ & _ & Hd); [|exact Hv]. done.
Qed.

(** Instances: three articles, the second without content, are embedded
    into an empty index of dimension 2. *)
Lemma generate_embeddings_outcome_witness :
  exists out,
    toy_generate_embeddings (init 2) [] ∅ "idx" example_articles 50 = Ok out /\
    out_indexed out = 2 /\ out_total_vectors out = 2%Z.
Proof.
  destruct (toy_generate_embeddings (init 2) [] ∅ "idx" example_articles 50)
    as [out|e] eqn:Hout; [|by vm_compute in Hout].
  exists out. split; [reflexivity|].
  destruct (generate_embeddings_outcome _ _ _ _ _ _ _ _ _ _ _ Hout)
    as (vectors & _ & _ & _ & _ & Hn & Ht & _).
  split; [exact Hn|exact Ht].
Defined.

Lemma generate_embeddings_store_witness :
  exists out v,
    toy_generate_embeddings (init 2) [mkEmbedding 3 []] ∅ "idx" example_articles 50
    = Ok out /\
    toy_generate_embedding "abc" = Ok v /\
    row_of 3 (out_embeddings out) = Some (mkEmbedding 3 (toy_pickle_dumps v)).
Proof.
  destruct (toy_generate_embeddings (init 2) [mkEmbedding 3 []] ∅ "idx" example_articles 50)
    as [out|e] eqn:Hout; [|by vm_compute in Hout].
  assert (Hnd : NoDup (map art_id example_articles)).
  { apply (bool_decide_unpack (NoDup [1; 2; 3]%Z)). by vm_compute. }
  destruct (generate_embeddings_store _ _ _ _ _ _ _ _ _ _ _ Hout Hnd) as (Hrow & _).
  destruct (Hrow (plain_article 3 "abc" 20)) as (v & Hv & Hr).
  { unfold embedded_articles, example_articles. simpl. right. left. }
  exists out, v. done.
Defined.

Lemma generate_embeddings_again_witness :
  exists out out2,
    toy_generate_embeddings (init 2) [] ∅ "idx" example_articles 50 = Ok out /\
    toy_generate_embeddings (out_service out) (out_embeddings out) (out_files out)
      "idx" example_articles 50 = Ok out2 /\
    out_embeddings out2 = out_embeddings out /\
    out_total_vectors out2 = (0 + 2 * Z.of_nat (out_indexed out))%Z.
Proof.
  destruct (toy_generate_embeddings (init 2) [] ∅ "idx" example_articles 50)
    as [out|e] eqn:Hout; [|by vm_compute in Hout].
  assert (Hnd : NoDup (map art_id example_articles)).
  { apply (bool_decide_unpack (NoDup [1; 2; 3]%Z)). by vm_compute. }
  destruct (generate_embeddings_again _ _ _ _ _ _ _ _ _ _ _ Hout Hnd)
    as (out2 & Hout2 & Hembs & _ & Htotal).
  exists out, out2. done.
Defined.

Lemma generate_then_rebuild_witness :
  exists out,
    toy_generate_embeddings (init 2) [] ∅ "idx" example_articles 50 = Ok out /\
    rebuild_from_embeddings toy_pickle_loads (init 2) (stored_rows (out_embeddings out))
    = (out_service out, Ok tt).
Proof.
  destruct (toy_generate_embeddings (init 2) [] ∅ "idx" example_articles 50)
    as [out|e] eqn:Hout; [|by vm_compute in Hout].
  exists out. split; [reflexivity|].
  apply (generate_then_rebuild toy_generate_embedding toy_pickle_dumps toy_pickle_loads
           toy_serialize_index toy_pickle_dump 2 ∅ "idx" example_articles 50).
  - lia.
  - reflexivity.
  - apply (bool_decide_unpack (NoDup [1; 2; 3]%Z)). by vm_compute.
  - unfold embedded_articles, example_articles. simpl.
    repeat constructor; injection H as <-; done.
  - exact Hout.
Defined.

(** ** The text helpers *)

Lemma Qlt_bool_iff (a b : Q) : Qlt_bool a b = true <-> (a < b)%Q.
Proof.
  unfold Qlt_bool. rewrite negb_true_iff. split.
  - intros Hb. apply Qnot_le_lt. intros Hle. apply Qle_bool_iff in Hle. congruence.
  - intros Hlt. apply not_true_iff_false. intros Hle%Qle_bool_iff.
    by apply Qlt_not_le in Hlt.
Qed.

Lemma Qlt_bool_false (a b : Q) : Qlt_bool a b = false <-> (b <= a)%Q.
Proof.
  unfold Qlt_bool. rewrite negb_false_iff. apply Qle_bool_iff.
Qed.

(** The quotient [n / (t + 1e-6)] of [_simple_bias] against a bound [p / q]. *)
Lemma bias_quotient_lt (n t p q : Z) :
  (0 <= t)%Z -> (0 < q)%Z -> (q * n <= p * t)%Z -> (0 < p)%Z ->
  (inject_Z n / (inject_Z t + (1 # 1000000)) < inject_Z p / inject_Z q)%Q.
Proof.
  intros Ht Hq Hle Hp.
  assert (Hd : (0 < inject_Z t + (1 # 1000000))%Q).
  { unfold Qlt, Qplus, inject_Z. simpl. lia. }
  assert (Hq' : (0 < inject_Z q)%Q) by (unfold Qlt, inject_Z; simpl; lia).
  apply Qlt_shift_div_r; [done|]. 
  unfold Qdiv. rewrite <- Qmult_assoc, (Qmult_comm (/ _)), Qmult_assoc.
  apply Qlt_shift_div_l; [done|].
  unfold Qlt, Qmult, Qplus, inject_Z. simpl. nia.
Qed.

Lemma bias_quotient_gt (n t p q : Z) :
  (0 <= t)%Z -> (0 < q)%Z -> (p * t < q * n)%Z -> (p < 1000000)%Z ->
  (inject_Z p / inject_Z q < inject_Z n / (inject_Z t + (1 # 1000000)))%Q.
Proof.
  intros Ht Hq Hlt Hp.
  assert (Hd : (0 < inject_Z t + (1 # 1000000))%Q).
  { unfold Qlt, Qplus, inject_Z. simpl. lia. }
  assert (Hq' : (0 < inject_Z q)%Q) by (unfold Qlt, inject_Z; simpl; lia).
  apply Qlt_shift_div_l; [done|].
  unfold Qdiv. rewrite <- Qmult_assoc, (Qmult_comm (/ _)), Qmult_assoc.
  apply Qlt_shift_div_r; [done|].
  unfold Qlt, Qmult, Qplus, inject_Z. simpl. nia.
Qed.

Lemma bias_quotient_sign (n t : Z) :
  (0 <= t)%Z ->
  (0 < inject_Z n / (inject_Z t + (1 # 1000000)))%Q <-> (0 < n)%Z.
Proof.
  intros Ht.
  assert (Hd : (0 < inject_Z t + (1 # 1000000))%Q).
  { unfold Qlt, Qplus, inject_Z. simpl. lia. }
  split.
  - intros Hpos. destruct (Z_lt_le_dec 0 n) as [|Hn]; [done|]. exfalso.
    apply (Qlt_not_le _ _ Hpos). apply Qle_shift_div_r; [done|].
    unfold Qle, Qmult, Qplus, inject_Z. simpl. nia.
  - intros Hn. apply Qlt_shift_div_l; [done|].
    unfold Qlt, Qmult, Qplus, inject_Z. simpl. nia.
Qed.

Lemma bias_quotient_opp (n : Z) (d : Q) :
  (inject_Z (- n) / d == - (inject_Z n / d))%Q.
Proof. rewrite inject_Z_opp. unfold Qdiv. ring. Qed.

(** The quotient against the thresholds [0.3] and [-0.3]. *)
Lemma bias_quotient_thresholds (n t : Z) :
  (0 <= t)%Z ->
  let raw := (inject_Z n / (inject_Z t + (1 # 1000000)))%Q in
  ((3 * t < 10 * n)%Z -> (3 # 10 < raw)%Q) /\
  ((10 * n <= 3 * t)%Z -> (raw < 3 # 10)%Q) /\
  ((3 * t < 10 * - n)%Z -> (raw < - (3 # 10))%Q) /\
  ((10 * - n <= 3 * t)%Z -> (- (3 # 10) < raw)%Q).
Proof.
  intros Ht raw.
  assert (Hopp : (raw == - (inject_Z (- n) / (inject_Z t + (1 # 1000000))))%Q).
  { rewrite bias_quotient_opp, Qopp_involutive. reflexivity. }
  split; [|split; [|split]].
  - intros H. apply (bias_quotient_gt n t 3 10); lia.
  - intros H. apply (bias_quotient_lt n t 3 10); lia.
  - intros H. rewrite Hopp. apply Qopp_lt_compat.
    apply (bias_quotient_gt (- n) t 3 10); lia.
  - intros H. rewrite Hopp. apply Qopp_lt_compat.
    apply (bias_quotient_lt (- n) t 3 10); lia.
Qed.

Lemma bias_quotient_bounds (n t : Z) :
  (Z.abs n <= t)%Z ->
  (-1 < inject_Z n / (inject_Z t + (1 # 1000000)) < 1)%Q.
Proof.
  intros Hn. split.
  - assert (Hopp : (inject_Z n / (inject_Z t + (1 # 1000000))
                    == - (inject_Z (- n) / (inject_Z t + (1 # 1000000))))%Q).
    { rewrite bias_quotient_opp, Qopp_involutive. reflexivity. }
    rewrite Hopp. apply (Qopp_lt_compat _ 1).
    apply (bias_quotient_lt (- n) t 1 1); lia.
  - apply (bias_quotient_lt n t 1 1); lia.
Qed.

Section BiasFacts.
Variable lower : string -> string.
Variable count : string -> string -> nat.

Abbreviation bias := (_simple_bias lower count).
Abbreviation hits := (keyword_hits count).

(** X18.  The score of [_simple_bias] lies strictly between -1 and 1, so
    that the clamping to [-1, 1] never changes it: it is 0 for an empty
    text and for a text without markers, and otherwise the quotient
    [(right - left) / (total + 1e-6)], positive exactly when there are
    more right than left markers.  The explanation depends on the counts
    alone: the text leans right when [right - left] exceeds three tenths
    of the total, left when [left - right] does, and is balanced
    otherwise; the score never is 0.3 or -0.3. *)
Theorem simple_bias_spec (text : string) :
  let lowered := lower text in
  let L := Z.of_nat (hits lowered left_keywords) in
  let R := Z.of_nat (hits lowered right_keywords) in
  let N := Z.of_nat (hits lowered neutral_keywords) in
  let T := (L + R + N)%Z in
  let score := fst (bias text) in
  let explanation := snd (bias text) in
  (-1 < score < 1)%Q /\
  (text = "" -> score = 0%Q /\ explanation = "No content to score") /\
  (text <> "" -> T = 0%Z ->
     score = 0%Q /\ explanation = "Neutral (no bias markers detected)") /\
  (text <> "" -> T <> 0%Z ->
     (score == inject_Z (R - L) / (inject_Z T + (1 # 1000000)))%Q /\
     ((0 < score)%Q <-> (L < R)%Z) /\
     ~ (score == 3 # 10)%Q /\ ~ (score == - (3 # 10))%Q /\
     ((3 * T < 10 * (R - L))%Z ->
        explanation = "Slightly leans right (market/business focus)") /\
     ((3 * T < 10 * (L - R))%Z ->
        explanation = "Slightly leans left (progressive/social focus)") /\
     ((10 * Z.abs (R - L) <= 3 * T)%Z ->
        explanation = "Balanced coverage with minimal bias")).
Proof.
  intros lowered L R N T score explanation.
  destruct text as [|c cs].
  { subst score explanation. simpl. repeat split; done. }
  subst score explanation. unfold _simple_bias. fold lowered.
  set (l := hits lowered left_keywords) in *.
  set (r := hits lowered right_keywords) in *.
  set (n := hits lowered neutral_keywords) in *.
  destruct (Nat.eqb_spec (l + r + n) 0) as [Hz|Hnz].
  { simpl. split; [done|]. split; [done|]. split; [done|]. intros _ HT. lia. }
  set (raw := (inject_Z (Z.of_nat r - Z.of_nat l)
               / (inject_Z (Z.of_nat (l + r + n)) + (1 # 1000000)))%Q).
  assert (Ht : (0 <= Z.of_nat (l + r + n))%Z) by lia.
  assert (HT : Z.of_nat (l + r + n) = T) by lia.
  assert (Hbounds : (-1 < raw < 1)%Q) by (apply bias_quotient_bounds; lia).
  destruct Hbounds as [Hgt1 Hlt1].
  assert (Hmin : py_min raw 1 = raw).
  { unfold py_min. destruct (Qlt_bool 1 raw) eqn:Hb; [|done].
    apply Qlt_bool_iff in Hb. exfalso. eapply Qlt_irrefl, Qlt_trans; eauto. }
  assert (Hmax : py_max raw (-1) = raw).
  { unfold py_max. destruct (Qlt_bool raw (-1)) eqn:Hb; [|done].
    apply Qlt_bool_iff in Hb. exfalso. eapply Qlt_irrefl, Qlt_trans; eauto. }
  rewrite Hmin, Hmax. cbn [fst snd].
  destruct (bias_quotient_thresholds (Z.of_nat r - Z.of_nat l) _ Ht)
    as (Hright & Hbelow & Hleft & Habove).
  fold raw in Hright, Hbelow, Hleft, Habove.
  split; [done|]. split; [done|]. split; [intros _ H0; lia|]. intros _ _.
  split; [|split; [|split; [|split; [|split; [|split]]]]].
  - unfold raw. rewrite HT. reflexivity.
  - unfold raw. rewrite bias_quotient_sign by done. unfold L, R. lia.
  - intros Heq.
    destruct (Z_lt_le_dec (3 * T) (10 * (R - L))) as [H|H].
    + assert (Hq : (3 # 10 < raw)%Q) by (apply Hright; lia).
      rewrite Heq in Hq. by apply Qlt_irrefl in Hq.
    + assert (Hq : (raw < 3 # 10)%Q) by (apply Hbelow; lia).
      rewrite Heq in Hq. by apply Qlt_irrefl in Hq.
  - intros Heq.
    destruct (Z_lt_le_dec (3 * T) (10 * (L - R))) as [H|H].
    + assert (Hq : (raw < - (3 # 10))%Q) by (apply Hleft; lia).
      rewrite Heq in Hq. by apply Qlt_irrefl in Hq.
    + assert (Hq : (- (3 # 10) < raw)%Q) by (apply Habove; lia).
      rewrite Heq in Hq. by apply Qlt_irrefl in Hq.
  - intros H. assert (Hr : (3 # 10 < raw)%Q) by (apply Hright; lia).
    destruct (Qlt_bool (Qabs raw) (3 # 10)) eqn:Hb.
    + apply Qlt_bool_iff, Qabs_Qlt_condition in Hb as [_ Hb].
      exfalso. eapply Qlt_irrefl, Qlt_trans; eauto.
    + by apply Qlt_bool_iff in Hr as ->.
  - intros H. assert (Hl : (raw < - (3 # 10))%Q) by (apply Hleft; lia).
    destruct (Qlt_bool (Qabs raw) (3 # 10)) eqn:Hb.
    + apply Qlt_bool_iff, Qabs_Qlt_condition in Hb as [Hb _].
      exfalso. eapply Qlt_irrefl, Qlt_trans; eauto.
    + destruct (Qlt_bool (3 # 10) raw) eqn:Hb2; [|done].
      apply Qlt_bool_iff in Hb2. exfalso.
      apply (Qlt_irrefl raw). etrans; [exact Hl|]. etrans; [|exact Hb2]. done.
  - intros H.
    assert (Hb : Qlt_bool (Qabs raw) (3 # 10) = true).
    { apply Qlt_bool_iff, Qabs_Qlt_condition. split; [apply Habove|apply Hbelow]; lia. }
    by rewrite Hb.
Qed.
End BiasFacts.

(** *** [_calculate_relevance_score] *)

Lemma count_if_le {A} (p : A -> bool) (l : list A) : count_if p l <= length l.
Proof.
  unfold count_if. induction l as [|x l IH]; simpl; [lia|].
  destruct (p x); simpl; lia.
Qed.

Lemma count_if_cons {A} (p : A -> bool) (x : A) (l : list A) :
  count_if p (x :: l) = (if p x then 1 else 0) + count_if p l.
Proof. unfold count_if. simpl. by destruct (p x). Qed.

Lemma count_if_or3 {A} (p q r : A -> bool) (l : list A) :
  count_if (fun x => p x || q x || r x) l <= count_if p l + count_if q l + count_if r l.
Proof.
  induction l as [|x l IH]; [done|]. rewrite !count_if_cons.
  destruct (p x), (q x), (r x); simpl; lia.
Qed.

Lemma count_if_or3_ge {A} (p q r : A -> bool) (l : list A) :
  count_if p l <= count_if (fun x => p x || q x || r x) l /\
  count_if q l <= count_if (fun x => p x || q x || r x) l /\
  count_if r l <= count_if (fun x => p x || q x || r x) l.
Proof.
  induction l as [|x l IH]; [done|]. rewrite !count_if_cons.
  destruct (p x), (q x), (r x); simpl; lia.
Qed.

Lemma count_if_pos {A} (p : A -> bool) (l : list A) :
  0 < count_if p l <-> exists x, x ∈ l /\ p x = true.
Proof.
  induction l as [|x l IH].
  - unfold count_if. simpl. split; [lia|]. by intros (x & ?%elem_of_nil & _).
  - rewrite count_if_cons. destruct (p x) eqn:Hx.
    + split; [|lia]. intros _. exists x. split; [left|done].
    + rewrite Nat.add_0_l, IH. split.
      * intros (y & Hin & Hy). exists y. split; [by right|done].
      * intros (y & [->|Hin]%elem_of_cons & Hy); [congruence|]. by exists y.
Qed.

Lemma count_if_disjoint {A} (p q : A -> bool) (l : list A) :
  (forall x, p x = true -> q x = true -> False) ->
  count_if p l + count_if q l <= length l.
Proof.
  intros Hpq. induction l as [|x l IH]; [done|]. rewrite !count_if_cons.
  pose proof (Hpq x) as Hx. destruct (p x), (q x); simpl; [by destruct Hx|lia..].
Qed.

Lemma ratio_below_half (m n : Z) :
  (0 < n)%Z -> Qlt_bool (inject_Z m / inject_Z n) (1 # 2) = true <-> (2 * m < n)%Z.
Proof.
  intros Hn. rewrite Qlt_bool_iff.
  assert (Hn' : (0 < inject_Z n)%Q) by (unfold Qlt, inject_Z; simpl; lia).
  split.
  - intros Hlt. destruct (Z_lt_le_dec (2 * m) n) as [|Hge]; [done|]. exfalso.
    apply (Qlt_not_le _ _ Hlt). apply Qle_shift_div_l; [done|].
    unfold Qle, Qmult, inject_Z. simpl. lia.
  - intros Hlt. apply Qlt_shift_div_r; [done|].
    unfold Qlt, Qmult, inject_Z. simpl. lia.
Qed.

Section RelevanceFacts.
Variable lower : string -> string.
Variable split : string -> list string.
Variable strip : string -> string.

Abbreviation relevance := (_calculate_relevance_score lower split strip).
Abbreviation keywords := (keywords_of lower split strip).

(** X19.  The relevance score is positive exactly when at least one
    keyword of the query, and at least half of them, occur in the title,
    the content or the source of the article, and it is 0 otherwise, in
    particular for a query without keywords.  A positive score is
    [10 * title + 2 * content + 3 * source] for the numbers of keywords
    that occur in each field; it is at least twice the number of keywords
    found and at most 15 times the number of keywords. *)
Theorem relevance_score_spec (article : Article) (query : string) :
  let kws := keywords query in
  let in_title := contains (lower (art_title article)) in
  let in_content := contains (lower (art_content article)) in
  let in_source := contains (lower (art_source article)) in
  let found := count_if (fun k => in_title k || in_content k || in_source k) kws in
  let points := (Z.of_nat (count_if in_title kws) * 10 + Z.of_nat (count_if in_content kws) * 2
                 + Z.of_nat (count_if in_source kws) * 3)%Z in
  let score := relevance article query in
  ((0 < score)%Q <-> 1 <= found /\ length kws <= 2 * found) /\
  (1 <= found /\ length kws <= 2 * found ->
     (score == inject_Z points)%Q /\
     (2 * Z.of_nat found <= points <= 15 * Z.of_nat (length kws))%Z) /\
  (~ (1 <= found /\ length kws <= 2 * found) -> score = 0%Q).
Proof.
  intros kws in_title in_content in_source found points score.
  assert (Hpoints : (2 * Z.of_nat found <= points <= 15 * Z.of_nat (length kws))%Z).
  { pose proof (count_if_or3 in_title in_content in_source kws).
    pose proof (count_if_le in_title kws). pose proof (count_if_le in_content kws).
    pose proof (count_if_le in_source kws). subst found points. lia. }
  assert (Hcases : (1 <= found /\ length kws <= 2 * found ->
                    (score == inject_Z points)%Q) /\
                   (~ (1 <= found /\ length kws <= 2 * found) -> score = 0%Q)).
  { subst score. unfold _calculate_relevance_score.
    fold kws in_title in_content in_source found.
    pose proof (count_if_le (fun k => in_title k || in_content k || in_source k) kws)
      as Hfound. fold found in Hfound.
    destruct kws as [|k kws'] eqn:Hkws.
    { simpl in Hfound. split; [lia|done]. }
    rewrite <- Hkws in *.
    assert (Hlen : 0 < length kws) by (rewrite Hkws; simpl; lia).
    destruct (Nat.eqb_spec found 0) as [Hz|Hnz]; [split; [lia|done]|].
    destruct (Qlt_bool _ _) eqn:Hratio.
    - apply ratio_below_half in Hratio; [|lia]. split; [lia|done].
    - assert (Hhalf : ~ (2 * Z.of_nat found < Z.of_nat (length kws))%Z).
      { intros H. apply ratio_below_half in H; [congruence|lia]. }
      split; [|lia]. intros _. subst points. cbv zeta. rewrite <- Hkws.
      rewrite !inject_Z_plus. ring. }
  destruct Hcases as [Hpos Hzero].
  split; [|split; [|done]].
  - split.
    + intros Hscore.
      destruct (decide (1 <= found /\ length kws <= 2 * found)) as [|Hno]; [done|].
      rewrite (Hzero Hno) in Hscore. by apply Qlt_irrefl in Hscore.
    + intros Hyes. rewrite (Hpos Hyes).
      unfold Qlt, inject_Z. simpl. lia.
  - intros Hyes. split; [by apply Hpos|done].
Qed.
End RelevanceFacts.

(** *** The fact-checking service *)

Lemma py_take_length_le {A} (k : Z) (l : list A) :
  (0 <= k)%Z -> length (py_take k l) <= Z.to_nat k.
Proof.
  intros Hk. unfold py_take. destruct (Z.leb_spec 0 k); [|lia].
  rewrite length_take. lia.
Qed.

Section FactCheckFacts.
Variable lower : string -> string.
Variable strip : string -> string.
Variable GOOGLE_FACT_CHECK_API_KEY : string.
Variable google_fact_check : string -> string -> api_reply.

Abbreviation claims_of := (extract_claims strip).
Abbreviation heuristic := (_heuristic_check lower).
Abbreviation check_claim :=
  (fun claim => fact_check_claim lower GOOGLE_FACT_CHECK_API_KEY google_fact_check claim None).
Abbreviation check_loop :=
  (check_claims lower GOOGLE_FACT_CHECK_API_KEY google_fact_check).
Abbreviation check := (check_article lower strip GOOGLE_FACT_CHECK_API_KEY google_fact_check).
Abbreviation simple_check :=
  (_simple_fact_check lower strip GOOGLE_FACT_CHECK_API_KEY google_fact_check).
Abbreviation is_flagged := (fun c : claim_check => String.eqb (check_status c) "flagged").
Abbreviation is_verified := (fun c : claim_check => String.eqb (check_status c) "verified").

Lemma check_claims_spec claims results flagged verified :
  check_loop claims results flagged verified
  = (results ++ map check_claim claims,
     flagged + count_if is_flagged (map check_claim claims),
     verified + count_if is_verified (map check_claim claims)).
Proof.
  revert results flagged verified.
  induction claims as [|claim rest IH]; intros results flagged verified.
  { simpl. by rewrite app_nil_r, !Nat.add_0_r. }
  cbn [check_claims map]. rewrite !count_if_cons.
  destruct (String.eqb_spec (check_status (check_claim claim)) "flagged") as [Hf|Hf].
  - rewrite IH, <- app_assoc. rewrite Hf. simpl. do 2 f_equal; lia.
  - destruct (String.eqb_spec (check_status (check_claim claim)) "verified") as [Hv|Hv].
    + rewrite IH, <- app_assoc. simpl. do 2 f_equal; lia.
    + rewrite IH, <- app_assoc. simpl. do 2 f_equal; lia.
Qed.

Lemma extract_claims_spec text max_claims :
  (0 <= max_claims)%Z ->
  length (claims_of text max_claims) <= Z.to_nat max_claims /\
  Forall (fun claim =>
            50 < String.length claim < 500 /\
            Forall (fun p => String.prefix p claim = false) ["http"; "The"; "A "; "An "] /\
            exists sent, sent ∈ split_on full_stop text /\ claim = strip sent)
         (claims_of text max_claims) /\
  (String.length text < 50 -> claims_of text max_claims = []).
Proof.
  intros Hmax. unfold extract_claims.
  destruct (Nat.ltb_spec (String.length text) 50) as [Hshort|Hlong].
  { split; [simpl; lia|]. split; [constructor|done]. }
  split; [by apply py_take_length_le|]. split; [|lia].
  apply Forall_forall. intros claim Hclaim.
  eapply elem_of_sublist in Hclaim; [|apply py_take_sublist].
  apply list_elem_of_omap in Hclaim as (sent & Hsent & Hkeep).
  eapply elem_of_sublist in Hsent; [|apply py_take_sublist].
  destruct (Nat.ltb_spec 50 (String.length (strip sent))) as [H50|]; [|done].
  destruct (Nat.ltb_spec (String.length (strip sent)) 500) as [H500|]; [|done].
  destruct (existsb _ _) eqn:Hprefix; [done|]. simpl in Hkeep.
  injection Hkeep as <-. split; [lia|]. split; [|by exists sent].
  simpl in Hprefix. repeat (apply orb_false_elim in Hprefix as [? Hprefix]).
  repeat constructor; done.
Qed.

Lemma check_article_unfold text :
  check text
  = match claims_of text 2 with
    | [] => mkArticleCheck "verified" 0 0 0 []
    | claims =>
        let checks := map check_claim claims in
        mkArticleCheck (if Nat.ltb 0 (count_if is_flagged checks)
                        then "flagged" else "verified")
                       (length claims) (count_if is_flagged checks)
                       (count_if is_verified checks) checks
    end.
Proof.
  unfold check_article. destruct (claims_of text 2) as [|c cs]; [done|].
  by rewrite check_claims_spec.
Qed.

Lemma check_article_overall text :
  overall_status (check text)
  = if Nat.ltb 0 (count_if is_flagged (map check_claim (claims_of text 2)))
    then "flagged" else "verified".
Proof. rewrite check_article_unfold. by destruct (claims_of text 2). Qed.

Lemma check_article_flagged text :
  overall_status (check text) = "flagged" <->
  exists c, c ∈ map check_claim (claims_of text 2) /\ check_status c = "flagged".
Proof.
  rewrite check_article_overall.
  assert (Hflag : 0 < count_if is_flagged (map check_claim (claims_of text 2)) <->
                  exists c, c ∈ map check_claim (claims_of text 2) /\
                            check_status c = "flagged").
  { rewrite count_if_pos. split; intros (c & Hin & Hc); exists c; split; try done.
    - by apply String.eqb_eq.
    - by apply String.eqb_eq. }
  rewrite <- Hflag. destruct (Nat.ltb_spec 0 (count_if is_flagged
                                (map check_claim (claims_of text 2)))); split; try done; lia.
Qed.

(** X20.  [check_article] checks at most two claims, each more than 50 and
    less than 500 characters long, and none when the text has fewer than
    50 characters.  Its counters count the flagged and the verified among
    the checks of these claims, and its overall status is "flagged" when
    one of them is flagged and "verified" otherwise, also when every
    check came back "unknown".  Hence [_simple_fact_check] answers
    "unknown" for the empty text only. *)
Theorem check_article_spec (text : string) :
  let claims := claims_of text 2 in
  let checks := map check_claim claims in
  let result := check text in
  details result = checks /\
  claims_checked result = length claims /\ length claims <= 2 /\
  Forall (fun claim => 50 < String.length claim < 500) claims /\
  (String.length text < 50 -> result = mkArticleCheck "verified" 0 0 0 []) /\
  flagged_count result = count_if is_flagged checks /\
  verified_count result = count_if is_verified checks /\
  flagged_count result + verified_count result <= claims_checked result /\
  (overall_status result = "flagged" <->
     exists c, c ∈ checks /\ check_status c = "flagged") /\
  (overall_status result = "verified" <->
     forall c, c ∈ checks -> check_status c <> "flagged") /\
  (simple_check text = "unknown" <-> text = "").
Proof.
  intros claims checks result.
  assert (H2 : (0 <= 2)%Z) by done.
  destruct (extract_claims_spec text 2 H2) as (Hlen & Hall & Hshort).
  fold claims in Hlen, Hall, Hshort.
  assert (Hcount : count_if is_flagged checks + count_if is_verified checks
                   <= length claims).
  { rewrite <- (length_map check_claim claims). fold checks.
    apply count_if_disjoint. intros c Hf%String.eqb_eq Hv%String.eqb_eq. congruence. }
  assert (Hresult : result = match claims with
                             | [] => mkArticleCheck "verified" 0 0 0 []
                             | _ => mkArticleCheck
                                      (if Nat.ltb 0 (count_if is_flagged checks)
                                       then "flagged" else "verified")
                                      (length claims) (count_if is_flagged checks)
                                      (count_if is_verified checks) checks
                             end).
  { subst result checks. rewrite check_article_unfold. fold claims. by destruct claims. }
  assert (Hoverall : overall_status result
                     = if Nat.ltb 0 (count_if is_flagged checks)
                       then "flagged" else "verified") by apply check_article_overall.
  pose proof (check_article_flagged text) as Hflagged. fold result claims checks in Hflagged.
  split; [rewrite Hresult; subst checks; by destruct claims|].
  split; [rewrite Hresult; by destruct claims|].
  split; [exact Hlen|]. split.
  { eapply Forall_impl; [exact Hall|]. by intros c (? & _). }
  split.
  { intros Hs. rewrite Hresult. by rewrite (Hshort Hs). }
  split; [rewrite Hresult; subst checks; by destruct claims|].
  split; [rewrite Hresult; subst checks; by destruct claims|].
  split.
  { rewrite Hresult. subst checks. destruct claims; [simpl; lia|].
    cbn [flagged_count verified_count claims_checked]. exact Hcount. }
  split; [|split].
  - exact Hflagged.
  - split.
    + intros Hv c Hin Hc.
      assert (Hf : overall_status result = "flagged") by (apply Hflagged; by exists c).
      congruence.
    + intros Hnone.
      assert (Hcases : overall_status result = "flagged" \/
                       overall_status result = "verified").
      { rewrite Hoverall. destruct (Nat.ltb 0 _); auto. }
      destruct Hcases as [Hf|Hv]; [|done].
      apply Hflagged in Hf as (c & Hin & Hc). by destruct (Hnone c Hin).
  - unfold _simple_fact_check. destruct text as [|ch rest]; [done|].
    fold result. rewrite Hoverall. split; [|done].
    by destruct (Nat.ltb 0 _).
Qed.

(** X21.  Without an API key, or when the API raises or answers with a
    status other than 200 whatever it is asked, every claim is checked by
    the heuristic, and the article is flagged exactly when one of its
    extracted claims contains, in lower case, one of the risky words. *)
Theorem check_article_heuristic (text : string) :
  GOOGLE_FACT_CHECK_API_KEY = "" \/
  (forall query key, match google_fact_check query key with
                     | ApiRaised => True
                     | ApiAnswer status_code _ => status_code <> 200%Z
                     end) ->
  details (check text) = map heuristic (claims_of text 2) /\
  Forall (fun c => check_method c = "heuristic" /\ check_sources c = [])
         (details (check text)) /\
  (simple_check text = "flagged" <->
   exists claim word, claim ∈ claims_of text 2 /\ word ∈ risky_words /\
                      contains (lower claim) word = true).
Proof.
  intros Hapi.
  assert (Hclaim : forall claim, check_claim claim = heuristic claim).
  { intros claim. unfold fact_check_claim.
    destruct GOOGLE_FACT_CHECK_API_KEY as [|c key] eqn:Hkey; [done|].
    destruct Hapi as [|Hapi]; [done|].
    specialize (Hapi (str_take 500 claim) (String c key)).
    destruct (google_fact_check _ _) as [|status_code claims]; [done|].
    by destruct (Z.eqb_spec status_code 200). }
  assert (Hchecks : map check_claim (claims_of text 2) = map heuristic (claims_of text 2)).
  { apply map_ext. intros claim. apply Hclaim. }
  assert (Hdetails : details (check text) = map heuristic (claims_of text 2)).
  { rewrite check_article_unfold, <- Hchecks. by destruct (claims_of text 2). }
  split; [exact Hdetails|]. split.
  - rewrite Hdetails. apply Forall_forall. intros c (claim & -> & _)%list_elem_of_fmap.
    unfold _heuristic_check. by destruct (existsb _ _).
  - assert (Hsimple : simple_check text = "flagged" <->
                      overall_status (check text) = "flagged").
    { unfold _simple_fact_check. destruct text as [|ch rest]; [|done].
      rewrite check_article_overall. done. }
    rewrite Hsimple, check_article_flagged, Hchecks. split.
    + intros (c & (claim & -> & Hin)%list_elem_of_fmap & Hc).
      unfold _heuristic_check in Hc.
      destruct (existsb _ _) eqn:Hrisky; [|done].
      apply existsb_exists in Hrisky as (word & Hword & Hcontains).
      exists claim, word. split; [done|]. split; [by apply list_elem_of_In|done].
    + intros (claim & word & Hin & Hword & Hcontains).
      exists (heuristic claim). split; [by apply list_elem_of_fmap_2|].
      unfold _heuristic_check.
      assert (Hrisky : existsb (contains (lower claim)) risky_words = true).
      { apply existsb_exists. exists word. split; [by apply list_elem_of_In|done]. }
      by rewrite Hrisky.
Qed.
End FactCheckFacts.

(** An instance: without an API key, a text whose first sentence contains
    "allegedly" is flagged. *)
Lemma check_article_heuristic_witness :
  _simple_fact_check (fun s => s) (fun s => s) "" (fun _ _ => ApiRaised)
    "Officials allegedly ignored the warnings for years before the collapse. More follows"
  = "flagged".
Proof.
  apply (check_article_heuristic (fun s => s) (fun s => s) "" (fun _ _ => ApiRaised)
           "Officials allegedly ignored the warnings for years before the collapse. More follows").
  - left. reflexivity.
  - exists "Officials allegedly ignored the warnings for years before the collapse",
           "allegedly".
    split; [|split].
    + assert (Hclaims : extract_claims (fun s => s)
                "Officials allegedly ignored the warnings for years before the collapse. More follows" 2
              = ["Officials allegedly ignored the warnings for years before the collapse"])
        by reflexivity.
      rewrite Hclaims. left.
    + unfold risky_words. do 4 right. left.
    + reflexivity.
Defined.

(** ** The news handlers *)

Lemma unique_by_url_app all_articles unique_articles seen_urls :
  unique_by_url all_articles unique_articles seen_urls
  = unique_articles ++ unique_by_url all_articles [] seen_urls.
Proof.
  revert unique_articles seen_urls.
  induction all_articles as [|a rest IH]; intros acc seen; simpl.
  { by rewrite app_nil_r. }
  destruct (decide (data_url a ∈ seen)); [apply IH|].
  rewrite IH, (IH [a]). by rewrite <- app_assoc.
Qed.

Lemma unique_by_url_spec all_articles seen_urls :
  let unique := unique_by_url all_articles [] seen_urls in
  NoDup (map data_url unique) /\
  unique `sublist_of` all_articles /\
  (forall a, a ∈ unique -> data_url a ∉ seen_urls) /\
  (forall a, a ∈ all_articles ->
     data_url a ∈ seen_urls \/ data_url a ∈ map data_url unique) /\
  (forall a, a ∈ unique ->
     List.find (fun b => String.eqb (data_url b) (data_url a)) all_articles = Some a).
Proof.
  revert seen_urls. induction all_articles as [|a rest IH]; intros seen; simpl.
  { split; [constructor|]. split; [done|]. split; [by intros a ?%elem_of_nil|].
    split; by intros a ?%elem_of_nil. }
  destruct (decide (data_url a ∈ seen)) as [Hseen|Hnew].
  - destruct (IH seen) as (Hnd & Hsub & Hfresh & Hcover & Hfirst).
    split; [done|]. split; [by constructor|]. split; [done|]. split.
    + intros b [->|Hb]%elem_of_cons; [by left|by apply Hcover].
    + intros b Hb. destruct (String.eqb_spec (data_url a) (data_url b)) as [Heq|_].
      * destruct (Hfresh b Hb). by rewrite <- Heq.
      * by apply Hfirst.
  - rewrite unique_by_url_app. simpl.
    destruct (IH ({[data_url a]} ∪ seen)) as (Hnd & Hsub & Hfresh & Hcover & Hfirst).
    split; [|split; [|split; [|split]]].
    + constructor; [|done]. intros (b & Hb & Hin)%list_elem_of_fmap.
      apply (Hfresh b Hin). rewrite <- Hb. by apply elem_of_union_l, elem_of_singleton.
    + by constructor.
    + intros b [->|Hb]%elem_of_cons; [done|]. apply Hfresh in Hb.
      intros Hin. by apply Hb, elem_of_union_r.
    + intros b [->|Hb]%elem_of_cons; [right; left|].
      destruct (Hcover b Hb) as [Hin|Hin]; [|by right; right].
      apply elem_of_union in Hin as [->%elem_of_singleton|Hin]; [right; left|by left].
    + intros b [->|Hb]%elem_of_cons; [by rewrite String.eqb_refl|].
      destruct (String.eqb_spec (data_url a) (data_url b)) as [Heq|_].
      * destruct (Hfresh b Hb). rewrite <- Heq. by apply elem_of_union_l, elem_of_singleton.
      * by apply Hfirst.
Qed.

(** X22.  [fetch_news_by_interests] returns the articles fetched for the
    interests, in the order in which they were fetched, without those
    whose URL occurred before: no two articles of the result share a URL,
    every URL fetched is the URL of an article of the result, and of the
    articles with one URL the first that was fetched is kept. *)
Theorem fetch_news_by_interests_unique (serper_fetch_news : string -> Z -> list ArticleData)
    (interests : list string) (articles_per_interest : Z) :
  let all_articles :=
    concat (map (fun interest => serper_fetch_news interest articles_per_interest)
                interests) in
  let unique := fetch_news_by_interests serper_fetch_news interests articles_per_interest in
  NoDup (map data_url unique) /\
  unique `sublist_of` all_articles /\
  (forall a, a ∈ all_articles -> data_url a ∈ map data_url unique) /\
  (forall a, a ∈ unique ->
     List.find (fun b => String.eqb (data_url b) (data_url a)) all_articles = Some a).
Proof.
  intros all_articles unique.
  destruct (unique_by_url_spec all_articles ∅) as (Hnd & Hsub & _ & Hcover & Hfirst).
  split; [done|]. split; [done|]. split; [|done].
  intros a Ha. destruct (Hcover a Ha) as [Hin|Hin]; [|done]. by apply elem_of_empty in Hin.
Qed.

Lemma article_by_url_app url (table1 table2 : list Article) :
  article_by_url url (table1 ++ table2)
  = match article_by_url url table1 with
    | Some a => Some a
    | None => article_by_url url table2
    end.
Proof.
  unfold article_by_url. induction table1 as [|a table1 IH]; simpl; [done|].
  by destruct (String.eqb (art_url a) url).
Qed.

Lemma article_by_url_Some url table a :
  article_by_url url table = Some a -> a ∈ table /\ art_url a = url.
Proof.
  unfold article_by_url. intros [Hin Hurl]%find_some.
  split; [by apply list_elem_of_In|by apply String.eqb_eq].
Qed.

Section NewsFacts.
Variable serper_fetch_news : string -> Z -> list ArticleData.
Variable lower : string -> string.
Variable strip : string -> string.
Variable count : string -> string -> nat.
Variable GOOGLE_FACT_CHECK_API_KEY : string.
Variable google_fact_check : string -> string -> api_reply.
Variable db_defaults : list Article -> Z * Z.

Abbreviation store_loop :=
  (store_articles lower strip count GOOGLE_FACT_CHECK_API_KEY google_fact_check db_defaults).
Abbreviation added :=
  (new_article lower strip count GOOGLE_FACT_CHECK_API_KEY google_fact_check db_defaults).
Abbreviation handler :=
  (fetch_news serper_fetch_news lower strip count GOOGLE_FACT_CHECK_API_KEY
              google_fact_check db_defaults).

Lemma store_articles_acc data acc table apply :
  store_loop data acc table apply
  = (fst (store_loop data [] table apply), acc ++ snd (store_loop data [] table apply)).
Proof.
  revert acc table. induction data as [|d rest IH]; intros acc table; simpl.
  { by rewrite app_nil_r. }
  destruct (article_by_url (data_url d) table) as [existing|].
  - rewrite IH, (IH [existing]). simpl. by rewrite <- app_assoc.
  - rewrite IH, (IH [added table d apply]). simpl. by rewrite <- app_assoc.
Qed.

Lemma store_articles_spec data table apply :
  exists new,
    fst (store_loop data [] table apply) = table ++ new /\
    Forall2 (fun d a => article_by_url (data_url d) (table ++ new) = Some a)
            data (snd (store_loop data [] table apply)) /\
    Forall (fun a => article_by_url (art_url a) table = None /\
                     exists d t, d ∈ data /\ a = added t d apply) new /\
    NoDup (map art_url new).
Proof.
  revert table. induction data as [|d rest IH]; intros table.
  { exists []. simpl. rewrite app_nil_r. repeat split; constructor. }
  simpl. destruct (article_by_url (data_url d) table) as [existing|] eqn:Hfind.
  - rewrite store_articles_acc. simpl.
    destruct (IH table) as (new & Htable & Hrows & Hnew & Hnd).
    exists new. split; [done|]. split; [|split; [|done]].
    + constructor; [|done]. by rewrite article_by_url_app, Hfind.
    + eapply Forall_impl; [exact Hnew|]. intros a (Hnone & d' & t & Hd' & Ha).
      split; [done|]. exists d', t. split; [by right|done].
  - rewrite store_articles_acc. simpl.
    set (article := added table d apply).
    destruct (IH (table ++ [article])) as (new & Htable & Hrows & Hnew & Hnd).
    exists (article :: new).
    assert (Happ : table ++ article :: new = (table ++ [article]) ++ new).
    { by rewrite <- app_assoc. }
    rewrite Happ. split; [done|]. split; [|split].
    + constructor; [|done].
      rewrite !article_by_url_app, Hfind. unfold article_by_url. simpl.
      by rewrite String.eqb_refl.
    + constructor.
      * split; [done|]. exists d, table. split; [left|done].
      * eapply Forall_impl; [exact Hnew|]. intros a (Hnone & d' & t & Hd' & Ha).
        rewrite article_by_url_app in Hnone.
        destruct (article_by_url (art_url a) table); [done|].
        split; [done|]. exists d', t. split; [by right|done].
    + simpl. constructor; [|done].
      intros (a & Ha & Hin)%list_elem_of_fmap.
      rewrite Forall_forall in Hnew. destruct (Hnew a Hin) as [Hnone _].
      rewrite article_by_url_app in Hnone.
      destruct (article_by_url (art_url a) table); [done|].
      unfold article_by_url in Hnone. simpl in Hnone.
      change (art_url article) with (data_url d) in Ha.
      rewrite Ha, String.eqb_refl in Hnone. done.
Qed.

Lemma store_articles_again data rows table acc apply :
  Forall2 (fun d a => article_by_url (data_url d) table = Some a) data rows ->
  store_loop data acc table apply = (table, acc ++ rows).
Proof.
  intros Hrows. revert acc.
  induction Hrows as [|d a data rows Hd Hrows IH]; intros acc; simpl.
  { by rewrite app_nil_r. }
  rewrite Hd, IH. by rewrite <- app_assoc.
Qed.

(** X23.  When [fetch_news] answers, the table of articles has grown by
    the rows it added, its answer has one article for each article it
    fetched, in their order, and each of them is the article stored under
    its URL.  An article whose URL was stored before is answered as it is
    stored, and nothing is computed for it; every row added has a URL
    that was not stored, no two of them share a URL, and they carry a
    fact-check status and a bias score exactly when [apply_fact_check] is
    set.  Storing the same articles once more adds no row and gives the
    same answer. *)
Theorem fetch_news_stores (users : list User) (table : list Article) (user_id : option Z)
    (query : option string) (limit : Z) (apply_fact_check : bool)
    (table' stored : list Article) :
  handler users table user_id query limit apply_fact_check = Answer (table', stored) ->
  exists articles_data new,
    articles_to_store serper_fetch_news users user_id query limit = Answer articles_data /\
    table' = table ++ new /\
    map art_url stored = map data_url articles_data /\
    Forall2 (fun d a => article_by_url (data_url d) table' = Some a) articles_data stored /\
    (forall i d existing,
       articles_data !! i = Some d -> article_by_url (data_url d) table = Some existing ->
       stored !! i = Some existing) /\
    Forall (fun a => a ∈ stored /\ article_by_url (art_url a) table = None /\
                     (art_fact_check_status a <> None <-> apply_fact_check = true) /\
                     (art_bias_score a <> None <-> apply_fact_check = true)) new /\
    NoDup (map art_url new) /\
    (forall again, store_loop articles_data [] table' again = (table', stored)).
Proof.
  unfold fetch_news.
  destruct (articles_to_store _ _ _ _ _) as [articles_data| |] eqn:Hdata; [|done..].
  intros [= Hstore].
  destruct (store_articles_spec articles_data table apply_fact_check)
    as (new & Htable & Hrows & Hnew & Hnd).
  destruct (store_loop articles_data [] table apply_fact_check) as [t s] eqn:Hloop.
  simpl in Htable, Hrows. injection Hstore as -> ->. rewrite <- Htable in Hrows.
  exists articles_data, new. split; [done|]. split; [done|].
  assert (Hurls : Forall2 (fun d a => art_url a = data_url d) articles_data stored).
  { eapply Forall2_impl; [exact Hrows|]. intros d a Ha.
    by apply article_by_url_Some in Ha as [_ ?]. }
  split; [|split; [done|split; [|split; [|split; [done|]]]]].
  - clear -Hurls. induction Hurls as [|d a ds rows Ha _ IH]; [done|].
    simpl. by rewrite Ha, IH.
  - intros i d existing Hd Hfind.
    destruct (Forall2_lookup_l _ _ _ _ _ Hrows Hd) as (a & Ha & Hrow).
    rewrite Htable, article_by_url_app, Hfind in Hrow. by injection Hrow as ->.
  - apply Forall_forall. intros a Ha.
    rewrite Forall_forall in Hnew. destruct (Hnew a Ha) as (Hnone & d & t & Hd & Hadded).
    split; [|split; [done|]].
    + apply list_elem_of_lookup in Hd as [i Hi].
      destruct (Forall2_lookup_l _ _ _ _ _ Hrows Hi) as (b & Hb & Hrow).
      assert (Hfirst : article_by_url (art_url a) table' = Some a).
      { rewrite Htable, article_by_url_app, Hnone.
        clear -Hnd Ha. induction new as [|n new IH]; [by apply elem_of_nil in Ha|].
        unfold article_by_url. simpl.
        apply NoDup_cons in Hnd as [Hn Hnd].
        apply elem_of_cons in Ha as [->|Ha]; [by rewrite String.eqb_refl|].
        destruct (String.eqb_spec (art_url n) (art_url a)) as [Heq|_].
        - destruct Hn. rewrite Heq. by apply list_elem_of_fmap_2.
        - by apply IH. }
      assert (Hurl : art_url a = data_url d) by (by rewrite Hadded).
      rewrite <- Hurl, Hfirst in Hrow. injection Hrow as <-.
      by eapply list_elem_of_lookup_2.
    + rewrite Hadded. unfold new_article. cbn [art_fact_check_status art_bias_score].
      by destruct apply_fact_check.
  - intros again. by apply (store_articles_again _ stored _ []).
Qed.
End NewsFacts.

(** An instance: of three fetched articles the third is stored already and
    the first two share a URL, so that one row is added. *)
Lemma fetch_news_stores_witness :
  exists table' stored,
    example_fetch_news [] [mkArticle 1 "old" "u2" "c0" "s" None None None 0]
                       None None 10 false = Answer (table', stored) /\
    map art_url stored = ["u1"; "u1"; "u2"] /\
    stored !! 2%nat = Some (mkArticle 1 "old" "u2" "c0" "s" None None None 0).
Proof.
  destruct (example_fetch_news [] [mkArticle 1 "old" "u2" "c0" "s" None None None 0]
                               None None 10 false)
    as [[table' stored]| |] eqn:Hrun; [|by vm_compute in Hrun..].
  destruct (fetch_news_stores _ _ _ _ _ _ _ _ _ _ _ _ _ _ _ Hrun)
    as (articles_data & new & Hdata & _ & Hurls & _ & Hold & _).
  injection Hdata as <-. exists table', stored. split; [done|]. split; [exact Hurls|].
  by apply (Hold 2%nat (mkData "third" "u2" "c3" "s")).
Defined.

(** ** The search handler of [routes.py] *)

Lemma search_by_embedding_sorted s q k res :
  search_by_embedding s q k = Ok res ->
  StronglySorted by_distance res /\
  length res <= Z.to_nat (Z.min k (Faiss.ntotal (index s))).
Proof.
  intros Hres.
  destruct (decide (Faiss.ntotal (index s) = 0%Z)) as [Hn|Hn].
  { unfold search_by_embedding in Hres. rewrite Hn in Hres. simpl in Hres.
    injection Hres as <-. split; [constructor|simpl; lia]. }
  apply search_by_embedding_inv in Hres as (-> & Hk & Hd); [|done].
  split.
  - eapply StronglySorted_omap; [|apply StronglySorted_take, stable_sort_sorted;
                                   [apply hit_leb_total|apply hit_leb_trans]].
    intros x y x' y' Hxy Hx Hy. simpl in Hx, Hy.
    destruct (_ !! snd x); [|done]. destruct (_ !! snd y); [|done].
    injection Hx as <-. injection Hy as <-.
    unfold by_distance. simpl. by apply Qle_bool_iff.
  - etrans; [apply length_omap_le|]. rewrite length_take. lia.
Qed.

Lemma article_lookup_spec (articles : list Article) (aid : Z) :
  NoDup (map art_id articles) ->
  article_lookup articles !! aid = List.find (fun a => Z.eqb (art_id a) aid) articles.
Proof.
  unfold article_lookup.
  assert (Hgen : forall m : gmap Z Article,
            (forall a, a ∈ articles -> m !! art_id a = None) ->
            NoDup (map art_id articles) ->
            foldl (fun m article => <[art_id article := article]> m) m articles !! aid
            = match List.find (fun a => Z.eqb (art_id a) aid) articles with
              | Some a => Some a
              | None => m !! aid
              end).
  { induction articles as [|a articles IH]; intros m Hfresh Hnd; [done|].
    simpl. apply NoDup_cons in Hnd as [Hnin Hnd]. rewrite IH; [| |done].
    - destruct (Z.eqb_spec (art_id a) aid) as [<-|Hne].
      + destruct (List.find _ articles) as [b|] eqn:Hb.
        * apply find_some in Hb as [Hin Hid%Z.eqb_eq]. destruct Hnin.
          rewrite <- Hid. by apply list_elem_of_fmap_2, list_elem_of_In.
        * by rewrite lookup_insert_eq.
      + destruct (List.find _ articles); [done|]. by rewrite lookup_insert_ne.
    - intros b Hb. rewrite lookup_insert_ne; [apply Hfresh; by right|].
      intros Heq. destruct Hnin. rewrite Heq. by apply list_elem_of_fmap_2. }
  intros Hnd. rewrite Hgen; [|done|done].
  by destruct (List.find _ articles).
Qed.

Lemma find_in_filter (ids : list Z) (table : list Article) (aid : Z) :
  in_list aid ids = true ->
  List.find (fun a => Z.eqb (art_id a) aid)
            (List.filter (fun a => in_list (art_id a) ids) table)
  = List.find (fun a => Z.eqb (art_id a) aid) table.
Proof.
  intros Hin. induction table as [|a table IH]; simpl; [done|].
  destruct (in_list (art_id a) ids) eqn:Ha; simpl.
  - by destruct (Z.eqb (art_id a) aid).
  - destruct (Z.eqb_spec (art_id a) aid) as [Heq|_]; [congruence|done].
Qed.

Lemma map_fst_omap_paired {A B C} (f : A -> option B) (g : A -> C) (l : list A) :
  map fst (omap (fun x => option_map (fun b => (b, g x)) (f x)) l) = omap f l.
Proof.
  induction l as [|x l IH]; csimpl; [done|].
  destruct (f x); simpl; by rewrite ?IH.
Qed.

Section RouteSearchFacts.
Variable generate_embedding : string -> result vector.

Abbreviation text_search := (search generate_embedding).
Abbreviation route_search := (search_articles generate_embedding).

Lemma search_sorted s query k res :
  text_search s query k = Ok res ->
  StronglySorted by_distance res /\
  length res <= Z.to_nat (Z.min k (Faiss.ntotal (index s))).
Proof.
  intros Hres.
  destruct (generate_embedding query) as [q|e] eqn:Hq.
  - rewrite (search_by_text _ _ _ _ _ Hq) in Hres. by apply (search_by_embedding_sorted _ q).
  - unfold search in Hres. rewrite Hq in Hres.
    destruct (Faiss.ntotal (index s) =? 0)%Z; [|done].
    injection Hres as <-. split; [constructor|simpl; lia].
Qed.

(** X24.  On a cache hit the search handler answers with what the cache
    holds and writes nothing.  Otherwise it answers with the articles of
    the results of the text search that are in the table of articles, in
    the order of the results, that is by non-decreasing distance to the
    query, and so with at most [min(top_k, ntotal)] articles; results whose
    article is not in the table are left out; and it writes its answer to
    the cache unless the search found nothing. *)
Theorem search_articles_ranked (cached_result : option (list Article)) (s : FAISSService)
    (table : list Article) (query : string) (top_k : Z)
    (answer : list Article) (written : option (list Article)) :
  NoDup (map art_id table) ->
  route_search cached_result s table query top_k = Ok (answer, written) ->
  match cached_result with
  | Some cached => answer = cached /\ written = None
  | None =>
      exists search_results,
        text_search s query top_k = Ok search_results /\
        answer = omap (fun r : Z * Q =>
                         List.find (fun a => Z.eqb (art_id a) (fst r)) table)
                      search_results /\
        written = match search_results with [] => None | _ => Some answer end /\
        length answer <= Z.to_nat (Z.min top_k (Faiss.ntotal (index s))) /\
        exists ranked : list (Article * Q),
          answer = map fst ranked /\
          StronglySorted (fun x y => (snd x <= snd y)%Q) ranked /\
          forall a d, (a, d) ∈ ranked -> a ∈ table /\ (art_id a, d) ∈ search_results
  end.
Proof.
  intros Hnd. unfold search_articles.
  destruct cached_result as [cached|]; [by intros [= <- <-]|].
  destruct (text_search s query top_k) as [search_results|e] eqn:Hsearch; [|done].
  cbn [rbind]. intros Hanswer. exists search_results. split; [done|].
  destruct (search_sorted _ _ _ _ Hsearch) as [Hsorted Hlen].
  set (lookup_table := fun r : Z * Q =>
                         List.find (fun a => Z.eqb (art_id a) (fst r)) table).
  assert (Hans : answer = omap lookup_table search_results /\
                 written = match search_results with [] => None | _ => Some answer end).
  { destruct search_results as [|r rs] eqn:Hrs; [by injection Hanswer as <- <-|].
    rewrite <- Hrs in *. injection Hanswer as <- <-. split; [|by rewrite Hrs].
    apply list_omap_ext. apply Forall2_same_length_lookup. split; [done|].
    intros i x y Hx Hy. rewrite Hx in Hy. injection Hy as <-.
    rewrite article_lookup_spec.
    - apply find_in_filter, in_list_spec, list_elem_of_fmap_2.
      by eapply list_elem_of_lookup_2.
    - eapply sublist_NoDup; [exact Hnd|]. apply (fmap_sublist art_id), filter_sublist. }
  destruct Hans as [Hans Hwritten].
  split; [done|]. split; [done|]. split.
  { rewrite Hans. etrans; [apply length_omap_le|done]. }
  exists (omap (fun r => option_map (fun a => (a, snd r)) (lookup_table r)) search_results).
  split; [|split].
  - by rewrite map_fst_omap_paired.
  - eapply StronglySorted_omap; [|exact Hsorted].
    intros x y x' y' Hxy Hx Hy. simpl in Hx, Hy.
    destruct (lookup_table x); [|done]. destruct (lookup_table y); [|done].
    injection Hx as <-. injection Hy as <-. done.
  - intros a d (r & Hr & Hfound)%list_elem_of_omap.
    destruct (lookup_table r) as [b|] eqn:Hb; [|done]. injection Hfound as <- <-.
    apply find_some in Hb as [Hin Hid%Z.eqb_eq].
    split; [by apply list_elem_of_In|]. rewrite Hid. by destruct r.
Qed.
End RouteSearchFacts.

(** An instance: the index holds the articles 1 and 3 and a slot of an
    article 9 that is not in the table. *)
Lemma search_articles_ranked_witness :
  exists answer written,
    search_articles toy_generate_embedding None
      (fst (add_embeddings (init 2) [[2; 1]; [9; 1]; [3; 1]]%Q [1; 9; 3]%Z))
      example_articles "abc" 3 = Ok (answer, written) /\
    length answer <= 3 /\ written = Some answer.
Proof.
  destruct (search_articles toy_generate_embedding None
              (fst (add_embeddings (init 2) [[2; 1]; [9; 1]; [3; 1]]%Q [1; 9; 3]%Z))
              example_articles "abc" 3) as [[answer written]|e] eqn:Hrun;
    [|by vm_compute in Hrun].
  assert (Hnd : NoDup (map art_id example_articles)).
  { apply (bool_decide_unpack (NoDup [1; 2; 3]%Z)). by vm_compute. }
  destruct (search_articles_ranked _ _ _ _ _ _ _ _ Hnd Hrun)
    as (search_results & Hsearch & _ & Hwritten & Hlen & _).
  exists answer, written. split; [done|]. split; [exact Hlen|].
  vm_compute in Hsearch. injection Hsearch as <-. exact Hwritten.
Defined.
